(** * Particle bounce house: falloff curve, scale LUT, distance field, animator

    A shallow embedding of the numeric core of [src/App.tsx] and of the three
    earlier copies of that file kept in [src/unnamed/part_000].

    Number model.  A JavaScript number (a double) is taken as an exact
    number: the rounding of double arithmetic, NaN and signed zeros are not
    modelled.
    - The curve solver and the LUT builder only add, subtract, multiply,
      divide by constants and compare.  They are embedded over [Q], which
      contains every finite double, so they can be run on concrete inputs.
    - The LUT is a [Float32Array]: every store rounds the number to the
      nearest single-precision value, ties to even, and to an infinity
      beyond the single-precision range.  This rounding is modelled
      ([fround]); the entries of a generated table are [float32] values.
    - The distance field and the animator call [Math.sqrt], [Math.sin],
      [Math.cos] and [Math.exp].  They are embedded over [R]; the table a
      scene reads is the list of the numbers its entries read back as.
    The one infinite value the code creates ([let dist = Infinity]) is a
    constructor of its own. *)

From Stdlib Require Import QArith Qabs Qminmax Qround Qpower Qreals.
From Stdlib Require Import ZArith List Bool Arith Lia.
From Stdlib Require Import Reals Psatz.
Import ListNotations.

(* ================================================================== *)
(** * Part I: definitions *)
(* ================================================================== *)

(** ** Constants shared by the four copies *)

Definition GRID_SIZE : nat := 12.
Definition LUT_SIZE : nat := 256.
Definition MAX_ENGINE_CENTERS : nat := 3.

(** ** Single-precision storage ([Float32Array]) *)

Section Float32Defs.
Local Open Scope Q_scope.

(** What an element of a [Float32Array] can hold once a number (never NaN
    here) has been stored: a finite single-precision value or an infinity. *)
Inductive float32 : Type :=
  | F32 (q : Q)
  | F32_inf
  | F32_neg_inf.

(** The order of the values read back. *)
Definition f32_le (a b : float32) : Prop :=
  match a, b with
  | F32 p, F32 q => p <= q
  | F32_neg_inf, _ => True
  | _, F32_inf => True
  | _, _ => False
  end.

Definition f32_neg (a : float32) : float32 :=
  match a with
  | F32 q => F32 (- q)
  | F32_inf => F32_neg_inf
  | F32_neg_inf => F32_inf
  end.

Definition pow2 (e : Z) : Q := 2 ^ e.

(** [floor(log2 x)] of a positive rational: the difference of the bit
    lengths of numerator and denominator, or one less. *)
Definition ilog2 (x : Q) : Z :=
  let k := (Z.log2 (Qnum x) - Z.log2 (Zpos (Qden x)))%Z in
  if Qle_bool (pow2 k) x then k else (k - 1)%Z.

(** Rounding to the nearest integer, ties to the even one. *)
Definition roundHalfEven (x : Q) : Z :=
  let f := Qfloor x in
  match Qcompare (x - inject_Z f) (1 # 2) with
  | Lt => f
  | Gt => (f + 1)%Z
  | Eq => if Z.even f then f else (f + 1)%Z
  end.

(** Single precision: 23 fraction bits, least normal exponent -126 (below it
    the spacing stays that of the subnormals), overflow from 2^128 on. *)
Definition F32_MIN_EXP : Z := (-126)%Z.
Definition F32_MANT_BITS : Z := 23%Z.
Definition F32_OVERFLOW : Q := pow2 128.

(** The binade of a positive number and the spacing of the single-precision
    values in it. *)
Definition binade (x : Q) : Z := Z.max (ilog2 x) F32_MIN_EXP.
Definition ulpOf (x : Q) : Q := pow2 (binade x - F32_MANT_BITS).

(** A positive number rounded to the nearest multiple of its spacing. *)
Definition roundMagnitude (x : Q) : Q :=
  inject_Z (roundHalfEven (x / ulpOf x)) * ulpOf x.

Definition froundPos (x : Q) : float32 :=
  let r := roundMagnitude x in
  if Qle_bool F32_OVERFLOW r then F32_inf else F32 r.

(** The conversion a store into a [Float32Array] applies ([Math.fround]):
    round to nearest, ties to even, symmetric in the sign. *)
Definition fround (x : Q) : float32 :=
  match Qcompare x 0 with
  | Eq => F32 0
  | Gt => froundPos x
  | Lt => f32_neg (froundPos (- x))
  end.

End Float32Defs.

(** ** Curve solver and LUT builder (over Q) *)

Section CurveDefs.
Local Open Scope Q_scope.

(** [const clamp01 = (v) => Math.min(1, Math.max(0, v))] *)
Definition clamp01 (v : Q) : Q := Qmin 1 (Qmax 0 v).

(** [cubicBezierCoord]: the cubic through control values p0..p3 in
    power-basis form, exactly as the source expands it. *)
Definition cubicBezierCoord (t p0 p1 p2 p3 : Q) : Q :=
  let cx := 3 * (p1 - p0) in
  let bx := 3 * (p2 - p1) - cx in
  let ax := p3 - p0 - cx - bx in
  ax * t ^ 3 + bx * t ^ 2 + cx * t + p0.

(** The variables of the [for] loop of [sampleBezierY]; [broke] records that
    the loop was left through [break]. *)
Record Bisect : Type := mkBisect
  { bi : nat; low : Q; high : Q; bt : Q; broke : bool }.

(** The iteration budget: [for (let i = 0; i < 24; i++)]. *)
Definition BISECT_BUDGET : nat := 24.

(** The loop is over: either [break] was taken or [i < 24] fails. *)
Definition loop_done (st : Bisect) : bool :=
  broke st || (BISECT_BUDGET <=? bi st)%nat.

(** One execution of the loop body followed by [i++]. *)
Definition loop_body (targetX p1x p2x : Q) (st : Bisect) : Bisect :=
  let mid := (low st + high st) / 2 in
  let x := cubicBezierCoord mid 0 p1x p2x 1 in
  if Qlt_le_dec (Qabs (x - targetX)) (1 # 10000) then
    mkBisect (bi st) (low st) (high st) mid true
  else if Qlt_le_dec x targetX then
    mkBisect (S (bi st)) mid (high st) mid false
  else
    mkBisect (S (bi st)) (low st) mid mid false.

(** The loop, run for at most [fuel] iterations; [bisect_reaches_done] below
    shows that the budget is fuel enough to reach [loop_done]. *)
Fixpoint bisect (fuel : nat) (targetX p1x p2x : Q) (st : Bisect) : Bisect :=
  match fuel with
  | O => st
  | S fuel' =>
      if loop_done st then st
      else bisect fuel' targetX p1x p2x (loop_body targetX p1x p2x st)
  end.

(** [let low = 0; let high = 1; let t = targetX;] *)
Definition bisect_init (targetX : Q) : Bisect := mkBisect 0 0 1 targetX false.

(** The loop of [sampleBezierY] from its initial variables, with the budget
    as fuel. *)
Definition sampleLoop (u p1x p2x : Q) : Bisect :=
  bisect BISECT_BUDGET (clamp01 u) p1x p2x (bisect_init (clamp01 u)).

(** The parameter [t] the loop of [sampleBezierY] ends with. *)
Definition solveT (u p1x p2x : Q) : Q := bt (sampleLoop u p1x p2x).

(** [sampleBezierY(u, p1x, p1y, p2x, p2y, startY, endY)] *)
Definition sampleBezierY (u p1x p1y p2x p2y startY endY : Q) : Q :=
  cubicBezierCoord (solveT u p1x p2x) startY p1y p2y endY.

(** The X and Y polynomials of the falloff curve. *)
Definition curveX (p1x p2x t : Q) : Q := cubicBezierCoord t 0 p1x p2x 1.
Definition curveY (p1y p2y startY endY t : Q) : Q :=
  cubicBezierCoord t startY p1y p2y endY.

(** The query of LUT slot [i]: [const t = i / (LUT_SIZE - 1)]. *)
Definition lutQuery (i : nat) : Q :=
  inject_Z (Z.of_nat i) / inject_Z (Z.of_nat (LUT_SIZE - 1)).

(** The number [generateScaleLUT] computes for slot [i], before it is
    stored: [minScale + normalizedVal * (maxScale - minScale)]. *)
Definition slotValue (p1x p1y p2x p2y startY endY minScale maxScale : Q)
  (i : nat) : Q :=
  let t := lutQuery i in
  let normalizedVal := sampleBezierY t p1x p1y p2x p2y startY endY in
  minScale + normalizedVal * (maxScale - minScale).

(** [generateScaleLUT] of the copy with freely draggable anchors (second file
    of part_000): the anchors are arguments.  [lut] is a
    [new Float32Array(LUT_SIZE)], so [lut[i] = ...] stores the rounded
    number. *)
Definition generateScaleLUT_anchors
  (p1x p1y p2x p2y startY endY minScale maxScale : Q) : list float32 :=
  map (fun i =>
         fround (slotValue p1x p1y p2x p2y startY endY minScale maxScale i))
      (seq 0 LUT_SIZE).

(** [generateScaleLUT] of [src/App.tsx]: the anchors come from [isReversed],
    then the same loop. *)
Definition generateScaleLUT
  (p1x p1y p2x p2y : Q) (isReversed : bool) (minScale maxScale : Q)
  : list float32 :=
  let startY := if isReversed then 0 else 1 in
  let endY := if isReversed then 1 else 0 in
  generateScaleLUT_anchors p1x p1y p2x p2y startY endY minScale maxScale.

(** What the curve editor lets through ([handlePointerMove]): every control
    coordinate in [0,1] and [p1x] at least [gap = 0.02] below [p2x]. *)
Definition valid_control_points (p1x p1y p2x p2y : Q) : Prop :=
  0 <= p1x <= 1 /\ 0 <= p1y <= 1 /\ 0 <= p2x <= 1 /\ 0 <= p2y <= 1 /\
  p1x + (2 # 100) <= p2x.

(** The tolerance of the loop test [Math.abs(x - targetX) < 1e-4]. *)
Definition X_TOLERANCE : Q := 1 # 10000.

(** "X(t) is monotonic" and "Y(t) is monotonic" on the unit interval, the
    latter falling (anchors 1, 0) or rising (anchors 0, 1). *)
Definition monotoneX (p1x p2x : Q) : Prop :=
  forall s t, 0 <= s -> s <= t -> t <= 1 ->
    curveX p1x p2x s <= curveX p1x p2x t.

Definition fallingY (p1y p2y startY endY : Q) : Prop :=
  forall s t, 0 <= s -> s <= t -> t <= 1 ->
    curveY p1y p2y startY endY t <= curveY p1y p2y startY endY s.

Definition risingY (p1y p2y startY endY : Q) : Prop :=
  forall s t, 0 <= s -> s <= t -> t <= 1 ->
    curveY p1y p2y startY endY s <= curveY p1y p2y startY endY t.

(** Loop invariants used below.  [inside]: [t] lies in the bracket.
    [zeroInv] / [oneInv]: for the targets 0 and 1 one end of the bracket
    never moves and the other halves on every iteration. *)
Definition inside (st : Bisect) : Prop := low st <= bt st <= high st.

Fixpoint halfPow (n : nat) : Q :=
  match n with O => 1 | S k => halfPow k / 2 end.

Definition zeroInv (a b : Q) (st : Bisect) : Prop :=
  low st == 0 /\ 0 < high st <= 1 /\
  if broke st
  then 0 < bt st < 1 /\ Qabs (curveX a b (bt st) - 0) < X_TOLERANCE
  else high st == halfPow (bi st) /\ ((0 < bi st)%nat -> bt st == high st).

Definition oneInv (a b : Q) (st : Bisect) : Prop :=
  high st == 1 /\ 0 <= low st < 1 /\
  if broke st
  then 0 < bt st < 1 /\ Qabs (curveX a b (bt st) - 1) < X_TOLERANCE
  else low st == 1 - halfPow (bi st) /\ ((0 < bi st)%nat -> bt st == low st).

End CurveDefs.

(** ** Distance field (over R) *)

Section FieldDefs.
Local Open Scope R_scope.

(** [THREE.Vector3] and [THREE.Color], reduced to their three numbers. *)
Record Vector3 : Type := mkVector3 { vx : R; vy : R; vz : R }.
Record Color : Type := mkColor { cr : R; cg : R; cb : R }.

(** three.js [Vector3.distanceTo]: the Euclidean distance. *)
Definition distanceTo (a b : Vector3) : R :=
  let dx := vx a - vx b in
  let dy := vy a - vy b in
  let dz := vz a - vz b in
  sqrt (dx * dx + dy * dy + dz * dz).

(** three.js [MathUtils.lerp(x, y, t)]. *)
Definition lerp (x y t : R) : R := (1 - t) * x + t * y.

(** three.js [Color.lerp(color, alpha)]: [this.r += (color.r - this.r) * alpha]
    and the same for g and b. *)
Definition Color_lerp (c color : Color) (alpha : R) : Color :=
  mkColor (cr c + (cr color - cr c) * alpha)
          (cg c + (cg color - cg c) * alpha)
          (cb c + (cb color - cb c) * alpha).

Definition BASE_WHITE : Color := mkColor 1 1 1.

(** [interface SceneConfig]; the copies that have a single tint leave
    [tintColor2] unused, the first copy uses [maxDist], [opacity], [lut]
    only. *)
Record SceneConfig : Type := mkSceneConfig
  { maxDist : R; opacity : R; lut : list R;
    minScale : R; maxScale : R; tintColor : Color; tintColor2 : Color }.

(** The value of [maxDist] every copy of [App] computes:
    [Math.sqrt(3 * Math.pow((GRID_SIZE * INITIAL_SPACING) / 2, 2)) * 1.1]. *)
Definition INITIAL_SPACING : R := 12 / 10.
Definition App_maxDist : R :=
  sqrt (3 * ((INR GRID_SIZE * INITIAL_SPACING) / 2) ^ 2) * (11 / 10).

(** The running minimum [dist], which starts at [Infinity]. *)
Inductive Dist : Type :=
  | Infinity : Dist
  | Finite : R -> Dist.

(** [weightRef.current?.[c] ?? 1] *)
Definition weightAt (weights : list R) (c : nat) : R := nth c weights 1.

(** [if (d < dist) dist = d] *)
Definition takeNearer (d : R) (dist : Dist) : Dist :=
  match dist with
  | Infinity => Finite d
  | Finite m => if Rlt_dec d m then Finite d else Finite m
  end.

(** The loop over the centers, from index [c] on, [focal] being the centers
    still to visit. *)
Fixpoint centersLoop (pos : Vector3) (weights : list R) (c : nat)
  (focal : list Vector3) (dist : Dist) : Dist :=
  match focal with
  | [] => dist
  | f :: rest =>
      let w := weightAt weights c in
      if Rlt_dec w (1 / 1000) then centersLoop pos weights (S c) rest dist
      else
        let d := distanceTo pos f / w in
        centersLoop pos weights (S c) rest (takeNearer d dist)
  end.

(** [for (let c = 0; c < Math.min(focalPoints.length, MAX_ENGINE_CENTERS); c++)] *)
Definition effectiveDistance (pos : Vector3) (focal : list Vector3)
  (weights : list R) : Dist :=
  centersLoop pos weights 0 (firstn MAX_ENGINE_CENTERS focal) Infinity.

(** [Math.min(1, dist / maxDist)].  [maxDist] is positive in every scene (see
    [App_maxDist_pos]), so [Infinity / maxDist] is [Infinity] and the minimum
    is 1. *)
Definition normalizedDistance (dist : Dist) (maxDist : R) : R :=
  match dist with
  | Infinity => 1
  | Finite d => Rmin 1 (d / maxDist)
  end.

(** [Math.floor(t * (LUT_SIZE - 1))] *)
Definition lutIndex (t : R) : Z := Int_part (t * (INR LUT_SIZE - 1)).

(** [lut[idx]]: [undefined] (here [None]) outside the array. *)
Definition lutAt (lut : list R) (idx : Z) : option R :=
  if (idx <? 0)%Z then None else nth_error lut (Z.to_nat idx).

(** [lut[idx] || fallback]: [undefined] and [0] are falsy. *)
Definition orElse (entry : option R) (fallback : R) : R :=
  match entry with
  | Some v => if Req_dec_T v 0 then fallback else v
  | None => fallback
  end.

(** The per-element part of [useFrame] in [InstancedSpheres], up to
    [finalScale]; the same lines in [src/App.tsx] and in the second file of
    part_000. *)
Definition sphereT (cfg : SceneConfig) (focal : list Vector3)
  (weights : list R) (pos : Vector3) : R :=
  normalizedDistance (effectiveDistance pos focal weights) (maxDist cfg).

Definition finalScale (cfg : SceneConfig) (focal : list Vector3)
  (weights : list R) (pos : Vector3) : R :=
  orElse (lutAt (lut cfg) (lutIndex (sphereT cfg focal weights pos)))
         (minScale cfg).

(** [tempColor.copy(tintColor).lerp(tintColor2, t)] (second file of
    part_000). *)
Definition sphereColor (cfg : SceneConfig) (focal : list Vector3)
  (weights : list R) (pos : Vector3) : Color :=
  Color_lerp (tintColor cfg) (tintColor2 cfg) (sphereT cfg focal weights pos).

(** What one frame publishes for one grid element: the scalar of
    [setMatrixAt] and the color of [setColorAt]. *)
Record Instance : Type := mkInstance { iScale : R; iColor : Color }.

(** [useFrame] of [InstancedSpheres] in the second file of part_000.  The
    frame is skipped ([None]) when there is no focal point; otherwise every
    grid position gets its instance, in order.  [src/App.tsx] has the same
    loop without the [setColorAt] lines. *)
Definition InstancedSpheres_useFrame (cfg : SceneConfig)
  (positions focal : list Vector3) (weights : list R) : option (list Instance) :=
  match focal with
  | [] => None
  | _ :: _ =>
      Some (map (fun pos => mkInstance (finalScale cfg focal weights pos)
                                       (sphereColor cfg focal weights pos))
                positions)
  end.

(** The qualifying adjusted distances in the words of the specification: for
    each center whose weight is at least 0.001, its distance to the element
    divided by its weight.  [adjustedFrom c] numbers the centers from [c]. *)
Definition adjustedFrom (c : nat) (pos : Vector3) (focal : list Vector3)
  (weights : list R) : list R :=
  map (fun cf => distanceTo pos (snd cf) / weightAt weights (fst cf))
      (filter (fun cf => if Rlt_dec (weightAt weights (fst cf)) (1 / 1000)
                         then false else true)
              (combine (seq c (length focal)) focal)).

Definition adjustedDistances (pos : Vector3) (focal : list Vector3)
  (weights : list R) : list R :=
  adjustedFrom 0 pos focal weights.

(** [m] is the minimum of [l], [Infinity] standing for the empty minimum. *)
Definition isMinimumOf (l : list R) (m : Dist) : Prop :=
  match m with
  | Infinity => l = []
  | Finite d => In d l /\ forall x, In x l -> d <= x
  end.

(** A scene used to instantiate the theorems: the maximal distance of the
    app, a flat table, the default scale bounds, a red near tint and a blue
    far tint. *)
Definition sampleConfig : SceneConfig :=
  mkSceneConfig App_maxDist (1 / 2) (repeat (1 / 2) LUT_SIZE) (3 / 100) 2
                (mkColor 1 0 0) (mkColor 0 0 1).

(** The same scene with a table that rises in a straight line from the
    lower scale bound in slot 0 to the upper one in the last slot, so that
    every slot holds another scale. *)
Definition rampEntry (i : nat) : R := 3 / 100 + 197 / 100 * (INR i / 255).

Definition rampConfig : SceneConfig :=
  mkSceneConfig App_maxDist (1 / 2) (map rampEntry (seq 0 LUT_SIZE)) (3 / 100) 2
                (mkColor 1 0 0) (mkColor 0 0 1).

(** The same scene with a table of zeros, as [new Float32Array(LUT_SIZE)]
    is before it is filled. *)
Definition blankConfig : SceneConfig :=
  mkSceneConfig App_maxDist (1 / 2) (repeat 0 LUT_SIZE) (3 / 100) 2
                (mkColor 1 0 0) (mkColor 0 0 1).

End FieldDefs.

(** The single-focus [Sphere] of the first file of part_000: one focal
    point, no weights, and the literal [0.1] as fallback scale. *)
Module SingleFocus.
Section Defs.
Local Open Scope R_scope.

Definition Sphere_useFrame (cfg : SceneConfig) (focalPoint spherePos : Vector3) : R :=
  let dist := distanceTo spherePos focalPoint in
  let t := Rmin 1 (dist / maxDist cfg) in
  let idx := lutIndex t in
  orElse (lutAt (lut cfg) idx) (1 / 10).

End Defs.
End SingleFocus.

(** The single-focus [Sphere] of the third file of part_000: one focal
    point, [minScale] as fallback and one tint applied with
    [curveFactor = 1]. *)
Module SingleTint.
Section Defs.
Local Open Scope R_scope.

Definition Sphere_useFrame (cfg : SceneConfig) (focalPoint spherePos : Vector3)
  : Instance :=
  let dist := distanceTo spherePos focalPoint in
  let t := Rmin 1 (dist / maxDist cfg) in
  let idx := lutIndex t in
  let finalScale := orElse (lutAt (lut cfg) idx) (minScale cfg) in
  let curveFactor := 1 in
  mkInstance finalScale (Color_lerp BASE_WHITE (tintColor cfg) curveFactor).

End Defs.
End SingleTint.

(** ** Focal-center animator (over R) *)

Section AnimatorDefs.
Local Open Scope R_scope.

(** One entry of [phaseRef]: three phases and the amplitude and frequency
    jitter vectors drawn when the center is created. *)
Record Phase : Type := mkPhase
  { px : R; py : R; pz : R; amp : Vector3; freq : Vector3 }.



(** The refs of [SceneContent] together with the shared [focalPointsRef]. *)
Record AnimatorState : Type := mkAnimatorState
  { timeRef : R;
    weightRef : list R;
    weightTargetRef : list R;
    smoothRandomnessRef : R;
    phaseRef : list Phase;
    focalPointsRef : list Vector3 }.

(** The props of [SceneContent] the frame callback reads. *)
Record Props : Type := mkProps
  { isDynamic : bool; speed : R; engineCenters : nat;
    engineRandomness : R; boundScale : R }.

(** [(GRID_SIZE * INITIAL_SPACING) / 2]: the half extent of the grid. *)
Definition baseBound : R := (INR GRID_SIZE * INITIAL_SPACING) / 2.

(** The weight loop of the frame callback:
    [weightRef[i] = lerp(weightRef[i] ?? 0, weightTargetRef[i] ?? 0,
                         1 - Math.exp(-delta * 6))] for every [i] below
    [weightRef.length]. *)
Fixpoint smoothWeights (delta : R) (weights targets : list R) : list R :=
  match weights with
  | [] => []
  | current :: rest =>
      lerp current (hd 0 targets) (1 - exp (- delta * 6))
      :: smoothWeights delta rest (tl targets)
  end.

(** The body of the center loop: the Lissajous position of center [i]. *)
Definition centerPosition (i : nat) (phase : Phase) (t bound randNorm : R)
  : Vector3 :=
  let freq0 := 2 / 10 in
  let freqJitterX := (1 + INR i * (1 / 10)) * lerp 1 (vx (freq phase)) randNorm in
  let freqJitterY := (135 / 100 + INR i * (1 / 10)) * lerp 1 (vy (freq phase)) randNorm in
  let freqJitterZ := (8 / 10 + INR i * (8 / 100)) * lerp 1 (vz (freq phase)) randNorm in
  let ampJitterX := lerp 1 (vx (amp phase)) randNorm in
  let ampJitterY := lerp 1 (vy (amp phase)) randNorm in
  let ampJitterZ := lerp 1 (vz (amp phase)) randNorm in
  let x := sin (t * freq0 * freqJitterX + px phase) * bound * ampJitterX in
  let y := sin (t * freq0 * freqJitterY + py phase) * bound * (85 / 100) * ampJitterY in
  let z := cos (t * freq0 * freqJitterZ + pz phase) * bound * ampJitterZ in
  mkVector3 x y z.

(** [if (!focalPoints[i]) focalPoints[i] = new Vector3();
     focalPoints[i].set(x, y, z)].  The loop visits 0, 1, 2 in order, so [i]
    is never beyond the length; at the length the array grows by one. *)
Definition setCenter (i : nat) (v : Vector3) (focal : list Vector3)
  : list Vector3 :=
  if (i <? length focal)%nat
  then firstn i focal ++ v :: skipn (S i) focal
  else focal ++ [v].

(** The center loop from index [i] with [count] centers to go.  Reading a
    missing [phaseRef.current[i]] throws in the source: [None]. *)
Fixpoint moveCenters (count i : nat) (phases : list Phase)
  (t bound randNorm : R) (focal : list Vector3) : option (list Vector3) :=
  match count with
  | O => Some focal
  | S count' =>
      match nth_error phases i with
      | None => None
      | Some phase =>
          moveCenters count' (S i) phases t bound randNorm
            (setCenter i (centerPosition i phase t bound randNorm) focal)
      end
  end.

(** The frame callback of [SceneContent] in the second file of part_000
    (with [boundScale] and the smoothed randomness). *)
Definition SceneContent_useFrame (p : Props) (delta : R) (s : AnimatorState)
  : option AnimatorState :=
  if negb (isDynamic p) then Some s
  else
    let time := timeRef s + delta * speed p in
    let weights := smoothWeights delta (weightRef s) (weightTargetRef s) in
    let smooth := lerp (smoothRandomnessRef s) (engineRandomness p)
                       (1 - exp (- delta * 3)) in
    let bound := baseBound * boundScale p in
    let randNorm := smooth / 100 in
    let centerCount := Nat.min (engineCenters p) MAX_ENGINE_CENTERS in
    match moveCenters centerCount 0 (phaseRef s) time bound randNorm
                      (focalPointsRef s) with
    | None => None
    | Some focal =>
        Some (mkAnimatorState time weights (weightTargetRef s) smooth
                              (phaseRef s) focal)
    end.

(** A run of frames, each with its props and its [delta]. *)
Fixpoint frames (fs : list (Props * R)) (s : AnimatorState)
  : option AnimatorState :=
  match fs with
  | [] => Some s
  | (p, delta) :: rest =>
      match SceneContent_useFrame p delta s with
      | None => None
      | Some s' => frames rest s'
      end
  end.

(** The sum of the [delta]s of a run. *)
Definition elapsed (fs : list (Props * R)) : R :=
  fold_right (fun f acc => snd f + acc) 0 fs.

(** [while (a.length < MAX_ENGINE_CENTERS) a.push(fresh())]: [fresh k] is the
    k-th value drawn. *)
Definition pushUpTo {A : Type} (n : nat) (fresh : nat -> A) (a : list A)
  : list A :=
  a ++ map fresh (seq 0 (n - length a)).

(** [for (i < MAX_ENGINE_CENTERS) weightTargetRef[i] = i < engineCenters ? 1 : 0],
    on an array that has at least [MAX_ENGINE_CENTERS] entries. *)
Definition setTargets (engineCenters : nat) (targets : list R) : list R :=
  map (fun i => if (i <? engineCenters)%nat then 1 else 0)
      (seq 0 MAX_ENGINE_CENTERS)
  ++ skipn MAX_ENGINE_CENTERS targets.

(** The effect of [SceneContent]: it fills the refs up to
    [MAX_ENGINE_CENTERS], trims [phaseRef] to that length and sets the weight
    targets.  [freshPhase] and [freshPoint] stand for the [Math.random()]
    draws. *)
Definition SceneContent_useEffect (engineCenters : nat)
  (freshPhase : nat -> Phase) (freshPoint : nat -> Vector3)
  (s : AnimatorState) : AnimatorState :=
  mkAnimatorState
    (timeRef s)
    (pushUpTo MAX_ENGINE_CENTERS (fun _ => 0) (weightRef s))
    (setTargets engineCenters
       (pushUpTo MAX_ENGINE_CENTERS (fun _ => 0) (weightTargetRef s)))
    (smoothRandomnessRef s)
    (firstn MAX_ENGINE_CENTERS
       (pushUpTo MAX_ENGINE_CENTERS freshPhase (phaseRef s)))
    (pushUpTo MAX_ENGINE_CENTERS freshPoint (focalPointsRef s)).

(** The refs as [SceneContent] mounts: [useRef([])], [useRef(0)],
    [useRef(engineRandomness)], and [focalPointsRef] holding the origin. *)
Definition mountState (engineRandomness : R) : AnimatorState :=
  mkAnimatorState 0 [] [] engineRandomness [] [mkVector3 0 0 0].

(** Every entry of a list of weights lies in [0,1]. *)
Definition unitWeights (ws : list R) : Prop := Forall (fun w => 0 <= w <= 1) ws.

(** The largest coordinate magnitude of a position. *)
Definition within (bound : R) (v : Vector3) : Prop :=
  Rabs (vx v) <= bound /\ Rabs (vy v) <= bound /\ Rabs (vz v) <= bound.

(** The state a run of frames needs and keeps: a phase for each of the three
    centers, weights and targets in [0,1]. *)
Definition animatorReady (s : AnimatorState) : Prop :=
  length (phaseRef s) = MAX_ENGINE_CENTERS /\
  unitWeights (weightRef s) /\ unitWeights (weightTargetRef s).

(** States used to instantiate the theorems.  [samplePhase] is a phase the
    effect can draw: [Math.random()] = 0.25 for [px], 0.75 for [amp.x], 0.5
    for [amp.y] and [amp.z], 0 elsewhere. *)
Definition samplePhase : Phase :=
  mkPhase (PI / 2) 0 0 (mkVector3 (6 / 5) 1 1) (mkVector3 1 1 1).

(** The refs after mounting with one engine center and randomness 0. *)
Definition sampleState : AnimatorState :=
  SceneContent_useEffect 1 (fun _ => samplePhase) (fun _ => mkVector3 0 0 0)
                         (mountState 0).

(** Refs with the randomness fully faded in at 100. *)
Definition jitteredState : AnimatorState :=
  mkAnimatorState 0 [1; 0; 0] [1; 0; 0] 100
                  [samplePhase; samplePhase; samplePhase]
                  [mkVector3 0 0 0; mkVector3 0 0 0; mkVector3 0 0 0].

End AnimatorDefs.

(** The frame callback of [SceneContent] in [src/App.tsx]: the bound is the
    half extent times the literal 2 and the randomness is used as set. *)
Module AppTsx.
Section Defs.
Local Open Scope R_scope.

Definition SceneContent_useFrame (p : Props) (delta : R) (s : AnimatorState)
  : option AnimatorState :=
  if negb (isDynamic p) then Some s
  else
    let time := timeRef s + delta * speed p in
    let weights := smoothWeights delta (weightRef s) (weightTargetRef s) in
    let bound := (INR GRID_SIZE * INITIAL_SPACING) / 2 * 2 in
    let randNorm := engineRandomness p / 100 in
    let centerCount := Nat.min (engineCenters p) MAX_ENGINE_CENTERS in
    match moveCenters centerCount 0 (phaseRef s) time bound randNorm
                      (focalPointsRef s) with
    | None => None
    | Some focal =>
        Some (mkAnimatorState time weights (weightTargetRef s)
                              (smoothRandomnessRef s) (phaseRef s) focal)
    end.

End Defs.
End AppTsx.

(** ** The bracket of the bisection *)

Section BracketDefs.
Local Open Scope Q_scope.

(** The bracket of the bisection: the target lies between the X values at
    [low] and [high], the bracket halves on every iteration and [t] is one
    of its ends; after [break] X at [t] is within the tolerance. *)
Definition bracketInv (a b tx : Q) (st : Bisect) : Prop :=
  0 <= low st /\ low st <= high st /\ high st <= 1 /\
  curveX a b (low st) <= tx <= curveX a b (high st) /\
  if broke st
  then Qabs (curveX a b (bt st) - tx) < X_TOLERANCE
  else high st - low st == halfPow (bi st) /\
       ((0 < bi st)%nat -> bt st = low st \/ bt st = high st).

End BracketDefs.

(** ** The editing collaborators (over Q) *)

Section EditorDefs.
Local Open Scope Q_scope.

(** The four numbers the curve editor edits ([p1x], [p1y], [p2x], [p2y] of
    [App]). *)
Record ControlPoints : Type := mkControlPoints
  { cp1x : Q; cp1y : Q; cp2x : Q; cp2y : Q }.

(** The control points [App] starts with. *)
Definition defaultControlPoints : ControlPoints :=
  mkControlPoints (33 # 100) (8 # 10) (66 # 100) (2 # 10).

(** [handlePointerMove] of [BezierEditor] in [src/App.tsx].  [fx] and [fy]
    are the pointer fractions [(e.clientX - rect.left) / rect.width] and
    [(e.clientY - rect.top) / rect.height]; the result is what [onChange]
    receives, the points unchanged when the handler returns early. *)
Definition handlePointerMove (activeHandle : option nat) (fx fy : Q)
  (c : ControlPoints) : ControlPoints :=
  match activeHandle with
  | None => c
  | Some handle =>
      let rawX := clamp01 fx in
      let y := 1 - clamp01 fy in
      let minEdge := 1 # 100 in
      let gap := 2 # 100 in
      if (handle =? 1)%nat then
        let x := Qmax minEdge (Qmin (cp2x c - gap) rawX) in
        mkControlPoints x y (cp2x c) (cp2y c)
      else if (handle =? 2)%nat then
        let x := Qmin (1 - minEdge) (Qmax (cp1x c + gap) rawX) in
        mkControlPoints (cp1x c) (cp1y c) x y
      else c
  end.

(** What the editor keeps: both X coordinates at least [minEdge] from the
    ends, [p1x] at least [gap] below [p2x], both Y coordinates in [0,1]. *)
Definition editorInv (c : ControlPoints) : Prop :=
  (1 # 100) <= cp1x c /\ cp1x c + (2 # 100) <= cp2x c /\ cp2x c <= 99 # 100 /\
  0 <= cp1y c <= 1 /\ 0 <= cp2y c <= 1.

(** A drag: the active handle and the pointer fractions of one move. *)
Definition Drag : Type := (option nat * Q * Q)%type.

Definition drags (ds : list Drag) (c : ControlPoints) : ControlPoints :=
  fold_left (fun c d => handlePointerMove (fst (fst d)) (snd (fst d)) (snd d) c)
            ds c.

(** [handleMinChange] and [handleMaxChange] of [ScaleRangeSlider]: [parsed]
    is [parseFloat(e.target.value)], the pair is what [onChange] receives,
    that is the next [(minScale, maxScale)] of [App]. *)
Definition handleMinChange (parsed : Q) (bounds : Q * Q) : Q * Q :=
  let maxVal := snd bounds in
  (Qmin parsed (maxVal - (1 # 100)), maxVal).

Definition handleMaxChange (parsed : Q) (bounds : Q * Q) : Q * Q :=
  let minVal := fst bounds in
  (minVal, Qmax parsed (minVal + (1 # 100))).

(** A slider change: [inl] moves the lower thumb, [inr] the upper one. *)
Definition slide (ev : Q + Q) (bounds : Q * Q) : Q * Q :=
  match ev with
  | inl parsed => handleMinChange parsed bounds
  | inr parsed => handleMaxChange parsed bounds
  end.

Definition slides (evs : list (Q + Q)) (bounds : Q * Q) : Q * Q :=
  fold_left (fun b ev => slide ev b) evs bounds.

(** The scale bounds [App] starts with in [src/App.tsx]. *)
Definition defaultBounds : Q * Q := (3 # 100, 2).

(** [hsvToRgb]: the object [{ r, g, b }] as a record.  [i % 6] is the
    remainder of JavaScript, which has the sign of [i]. *)
Record Rgb : Type := mkRgb { rgb_r : Q; rgb_g : Q; rgb_b : Q }.

Definition hsvToRgb (h s v : Q) : Rgb :=
  let i := Qfloor (h * 6) in
  let f := h * 6 - inject_Z i in
  let p := v * (1 - s) in
  let q := v * (1 - f * s) in
  let t := v * (1 - (1 - f) * s) in
  match Z.rem i 6 with
  | 0%Z => mkRgb v t p
  | 1%Z => mkRgb q v p
  | 2%Z => mkRgb p v t
  | 3%Z => mkRgb p q v
  | 4%Z => mkRgb t p v
  | 5%Z => mkRgb v p q
  | _ => mkRgb v t p
  end.

(** [updateHue] of the color picker: the hue, in degrees, of a pointer
    fraction. *)
Definition updateHue (fx : Q) : Q := clamp01 fx * 360.

(** Every component of a color lies between [lo] and [hi]. *)
Definition rgbWithin (lo hi : Q) (c : Rgb) : Prop :=
  lo <= rgb_r c <= hi /\ lo <= rgb_g c <= hi /\ lo <= rgb_b c <= hi.

(** [handlePointerMove] of the [BezierEditor] with draggable anchors (second
    file of part_000): handles 1 and 2 as above, handle 0 moves [startY],
    handle 3 moves [endY].  The state is the control points with the two
    anchors; [onChange] and [onAnchorChange] each replace their part. *)
Record AnchoredCurve : Type := mkAnchoredCurve
  { controlPoints : ControlPoints; anchorStartY : Q; anchorEndY : Q }.

Definition defaultAnchoredCurve : AnchoredCurve :=
  mkAnchoredCurve defaultControlPoints 1 0.

Definition handlePointerMove_anchored (activeHandle : option nat) (fx fy : Q)
  (a : AnchoredCurve) : AnchoredCurve :=
  match activeHandle with
  | None => a
  | Some handle =>
      let c := controlPoints a in
      let rawX := clamp01 fx in
      let y := 1 - clamp01 fy in
      let minEdge := 1 # 100 in
      let gap := 2 # 100 in
      if (handle =? 1)%nat then
        let x := Qmax minEdge (Qmin (cp2x c - gap) rawX) in
        mkAnchoredCurve (mkControlPoints x y (cp2x c) (cp2y c))
                        (anchorStartY a) (anchorEndY a)
      else if (handle =? 2)%nat then
        let x := Qmin (1 - minEdge) (Qmax (cp1x c + gap) rawX) in
        mkAnchoredCurve (mkControlPoints (cp1x c) (cp1y c) x y)
                        (anchorStartY a) (anchorEndY a)
      else if (handle =? 0)%nat then
        mkAnchoredCurve c y (anchorEndY a)
      else if (handle =? 3)%nat then
        mkAnchoredCurve c (anchorStartY a) y
      else a
  end.

Definition drags_anchored (ds : list Drag) (a : AnchoredCurve) : AnchoredCurve :=
  fold_left (fun a d =>
               handlePointerMove_anchored (fst (fst d)) (snd (fst d)) (snd d) a)
            ds a.

Definition anchoredInv (a : AnchoredCurve) : Prop :=
  editorInv (controlPoints a) /\
  0 <= anchorStartY a <= 1 /\ 0 <= anchorEndY a <= 1.

End EditorDefs.

(** ** The grid, the single-focus animation and the center count (over R) *)

Section SceneDefs.
Local Open Scope R_scope.

(** [generateInitialSpheres(spacing)]: the positions, in the order of the
    three nested loops (the ids, colors and unit scales are not modelled). *)
Definition gridCoordinate (spacing : R) (k : nat) : R :=
  INR k * spacing - INR (GRID_SIZE - 1) * spacing / 2.

Definition generateInitialSpheres (spacing : R) : list Vector3 :=
  flat_map (fun x =>
    flat_map (fun y =>
      map (fun z => mkVector3 (gridCoordinate spacing x)
                              (gridCoordinate spacing y)
                              (gridCoordinate spacing z))
          (seq 0 GRID_SIZE))
      (seq 0 GRID_SIZE))
    (seq 0 GRID_SIZE).

(** [Math.sign] on a number that is not NaN. *)
Definition sign (x : R) : R :=
  if Rlt_dec 0 x then 1 else if Rlt_dec x 0 then -1 else 0.

(** One axis of the frame callback of the single-focus [SceneContent]
    (first and third file of part_000): move, and on leaving the bound turn
    the velocity around and put the coordinate on the bound.  The pair is
    (coordinate, velocity). *)
Definition bounceAxis (bound scaledDelta : R) (xv : R * R) : R * R :=
  let x := fst xv + snd xv * scaledDelta in
  if Rlt_dec bound (Rabs x)
  then (sign x * bound, snd xv * -1)
  else (x, snd xv).

(** The focal point and its velocity. *)
Record Bouncer : Type := mkBouncer { focalPoint : Vector3; velocity : Vector3 }.

(** The frame callback of the single-focus [SceneContent]. *)
Definition Bounce_useFrame (isDynamic : bool) (speed delta : R) (s : Bouncer)
  : Bouncer :=
  if negb isDynamic then s
  else
    let bound := (INR GRID_SIZE * INITIAL_SPACING) / 2 in
    let scaledDelta := delta * speed * 15 in
    let x := bounceAxis bound scaledDelta (vx (focalPoint s), vx (velocity s)) in
    let y := bounceAxis bound scaledDelta (vy (focalPoint s), vy (velocity s)) in
    let z := bounceAxis bound scaledDelta (vz (focalPoint s), vz (velocity s)) in
    mkBouncer (mkVector3 (fst x) (fst y) (fst z))
              (mkVector3 (snd x) (snd y) (snd z)).

Definition bounces (fs : list (bool * R * R)) (s : Bouncer) : Bouncer :=
  fold_left (fun s f => Bounce_useFrame (fst (fst f)) (snd (fst f)) (snd f) s)
            fs s.

(** The effect of [App] that follows [engineCenters]: it pushes fresh points
    up to the target or cuts the array down to it. *)
Definition App_useEffect (engineCenters : nat) (freshPoint : nat -> Vector3)
  (focal : list Vector3) : list Vector3 :=
  let target := engineCenters in
  let current := length focal in
  if (current <? target)%nat
  then focal ++ map freshPoint (seq 0 (target - current))
  else if (target <? current)%nat then firstn target focal
  else focal.

(** The numbers a table reads back as.  [R] has no infinite number, so a
    table that holds an infinite entry has no counterpart among the scenes
    modelled here ([None]); [table_is_read] shows that scale bounds whose
    stored values are finite never produce one. *)
Definition f32_finite (x : float32) : bool :=
  match x with F32 _ => true | _ => false end.

Definition f32_number (x : float32) : R :=
  match x with F32 q => Q2R q | _ => 0 end.

Definition readTable (table : list float32) : option (list R) :=
  if forallb f32_finite table then Some (map f32_number table) else None.

(** The [config] object [App] of [src/App.tsx] hands to the scene: the table
    of [generateScaleLUT], the scale bounds it was built with and the
    constant [maxDist]. *)
Definition App_config (p1x p1y p2x p2y : Q) (isReversed : bool)
  (minScale maxScale : Q) (opacity : R) (tint tint2 : Color)
  : option SceneConfig :=
  match readTable (generateScaleLUT p1x p1y p2x p2y isReversed
                                    minScale maxScale) with
  | Some lut =>
      Some (mkSceneConfig App_maxDist opacity lut (Q2R minScale) (Q2R maxScale)
                          tint tint2)
  | None => None
  end.

(** The time a run adds to [timeRef]: [delta * speed] of its running
    frames. *)
Definition runningTime (fs : list (Props * R)) : R :=
  fold_right (fun f acc =>
                (if isDynamic (fst f) then snd f * speed (fst f) else 0) + acc)
             0 fs.

End SceneDefs.

(* ================================================================== *)
(** * Part II: single-precision rounding *)
(* ================================================================== *)

Section Float32Facts.
Local Open Scope Q_scope.

Lemma pow2_pos (e : Z) : 0 < pow2 e.
Proof. apply Qpower_0_lt. reflexivity. Qed.

Lemma pow2_plus (a b : Z) : pow2 (a + b) == pow2 a * pow2 b.
Proof. apply Qpower_plus. discriminate. Qed.

Lemma pow2_succ (a : Z) : pow2 (a + 1) == 2 * pow2 a.
Proof. rewrite pow2_plus. unfold pow2 at 2. simpl. ring. Qed.

Lemma pow2_le (a b : Z) : (a <= b)%Z -> pow2 a <= pow2 b.
Proof. intro H. apply Qpower_le_compat_l; [exact H | discriminate]. Qed.

Lemma pow2_lt (a b : Z) : (a < b)%Z -> pow2 a < pow2 b.
Proof. intro H. apply Qpower_lt_compat_l; [exact H | reflexivity]. Qed.

Lemma pow2_Z (a : Z) : (0 <= a)%Z -> pow2 a == inject_Z (2 ^ a).
Proof. intro H. rewrite Zpower_Qpower by exact H. reflexivity. Qed.

Lemma log2_bracket (n : Z) :
  (0 < n)%Z ->
  pow2 (Z.log2 n) <= inject_Z n /\ inject_Z n < 2 * pow2 (Z.log2 n).
Proof.
  intro H. destruct (Z.log2_spec n H) as [L U].
  pose proof (Z.log2_nonneg n) as P.
  split.
  - rewrite pow2_Z by exact P. rewrite <- Zle_Qle. exact L.
  - rewrite <- pow2_succ. rewrite pow2_Z by lia. rewrite <- Zlt_Qlt.
    exact U.
Qed.

Lemma ratio_bracket (x N D A B P : Q) :
  0 < P -> 0 < B -> x * D == N -> P * B == A ->
  A <= N -> N < 2 * A -> B <= D -> D < 2 * B ->
  P <= 2 * x /\ x < 2 * P.
Proof.
  intros Pk Pb E K NL NU DL DU. split.
  - apply Qnot_lt_le. intro C.
    assert (2 * (x * D) < P * D)
      by (rewrite Qmult_assoc; apply Qmult_lt_compat_r; lra).
    assert (P * D <= 2 * (P * B)).
    { setoid_replace (2 * (P * B)) with (P * (2 * B)) by ring.
      apply Qmult_le_l; lra. }
    lra.
  - apply Qnot_le_lt. intro C.
    assert (2 * (P * D) <= x * D)
      by (rewrite Qmult_assoc; apply Qmult_le_compat_r; lra).
    assert (P * B <= P * D) by (apply Qmult_le_l; lra).
    lra.
Qed.

Lemma ilog2_spec (x : Q) :
  0 < x -> pow2 (ilog2 x) <= x /\ x < pow2 (ilog2 x + 1).
Proof.
  intro Hx. unfold ilog2.
  set (k := (Z.log2 (Qnum x) - Z.log2 (Zpos (Qden x)))%Z).
  assert (Hn : (0 < Qnum x)%Z).
  { destruct x as [n d]. unfold Qlt in Hx. simpl in *. lia. }
  destruct (log2_bracket (Qnum x) Hn) as [NL NU].
  destruct (log2_bracket (Zpos (Qden x)) eq_refl) as [DL DU].
  assert (E : x * inject_Z (Zpos (Qden x)) == inject_Z (Qnum x)).
  { destruct x as [n d]. unfold Qeq, Qmult, inject_Z. simpl. lia. }
  assert (K : pow2 k * pow2 (Z.log2 (Zpos (Qden x))) == pow2 (Z.log2 (Qnum x))).
  { rewrite <- pow2_plus. unfold k.
    replace (Z.log2 (Qnum x) - Z.log2 (Zpos (Qden x)) + Z.log2 (Zpos (Qden x)))%Z
      with (Z.log2 (Qnum x)) by ring.
    reflexivity. }
  destruct (ratio_bracket _ _ _ _ _ _ (pow2_pos k) (pow2_pos _) E K NL NU DL DU)
    as [Lo Up].
  clear NL NU DL DU E K Hn.
  assert (S1 : pow2 k == 2 * pow2 (k - 1)).
  { rewrite <- pow2_succ. replace (k - 1 + 1)%Z with k by ring. reflexivity. }
  clearbody k.
  destruct (Qle_bool (pow2 k) x) eqn:T.
  - apply Qle_bool_iff in T. split; [exact T |]. rewrite pow2_succ. exact Up.
  - assert (x < pow2 k).
    { apply Qnot_le_lt. intro C. apply Qle_bool_iff in C. congruence. }
    replace (k - 1 + 1)%Z with k by ring.
    split; [| assumption].
    generalize dependent (pow2 k). generalize dependent (pow2 (k - 1)).
    intros. lra.
Qed.

Lemma ilog2_monotone (x y : Q) : 0 < x -> x <= y -> (ilog2 x <= ilog2 y)%Z.
Proof.
  intros Hx Hxy.
  destruct (ilog2_spec x Hx) as [Lx Ux].
  destruct (ilog2_spec y) as [Ly Uy]; [lra |].
  destruct (Z_le_gt_dec (ilog2 x) (ilog2 y)) as [|G]; [assumption |].
  exfalso.
  assert (pow2 (ilog2 y + 1) <= pow2 (ilog2 x)) by (apply pow2_le; lia).
  lra.
Qed.

Lemma roundHalfEven_bounds (x : Q) :
  (Qfloor x <= roundHalfEven x <= Qfloor x + 1)%Z.
Proof.
  unfold roundHalfEven.
  destruct (Qcompare (x - inject_Z (Qfloor x)) (1 # 2)); [| lia | lia].
  destruct (Z.even (Qfloor x)); lia.
Qed.

Lemma roundHalfEven_monotone (x y : Q) :
  x <= y -> (roundHalfEven x <= roundHalfEven y)%Z.
Proof.
  intro H. pose proof (Qfloor_resp_le x y H) as F.
  pose proof (roundHalfEven_bounds x) as Bx.
  pose proof (roundHalfEven_bounds y) as By.
  destruct (Z.eq_dec (Qfloor x) (Qfloor y)) as [E | NE]; [| lia].
  clear Bx By. unfold roundHalfEven. rewrite <- E.
  destruct (Qcompare_spec (x - inject_Z (Qfloor x)) (1 # 2)) as [X | X | X];
    destruct (Qcompare_spec (y - inject_Z (Qfloor x)) (1 # 2)) as [Y | Y | Y];
    try (destruct (Z.even (Qfloor x))); try lia; exfalso; lra.
Qed.

Lemma roundHalfEven_Z (n : Z) : roundHalfEven (inject_Z n) = n.
Proof.
  unfold roundHalfEven. rewrite Qfloor_Z.
  destruct (Qcompare_spec (inject_Z n - inject_Z n) (1 # 2)) as [X | X | X];
    [exfalso; lra | reflexivity | exfalso; lra].
Qed.

(** The rounding is to a nearest integer, and on a grid of spacing [u] to a
    nearest grid point. *)
Lemma roundHalfEven_nearest (x : Q) :
  Qabs (inject_Z (roundHalfEven x) - x) <= 1 # 2.
Proof.
  pose proof (Qfloor_le x) as L. pose proof (Qlt_floor x) as U.
  rewrite inject_Z_plus in U. change (inject_Z 1) with 1 in U.
  unfold roundHalfEven.
  destruct (Qcompare_spec (x - inject_Z (Qfloor x)) (1 # 2)) as [E | E | E];
    [destruct (Z.even (Qfloor x)) | |];
    rewrite ?inject_Z_plus; change (inject_Z 1) with 1;
    apply Qabs_Qle_condition; split; lra.
Qed.

Lemma grid_nearest (u x : Q) :
  0 < u -> Qabs (inject_Z (roundHalfEven (x / u)) * u - x) <= u / 2.
Proof.
  intro Hu. pose proof (roundHalfEven_nearest (x / u)) as N.
  assert (E : inject_Z (roundHalfEven (x / u)) * u - x
              == (inject_Z (roundHalfEven (x / u)) - x / u) * u) by (field; lra).
  rewrite E, Qabs_Qmult. rewrite (Qabs_pos u) by lra.
  setoid_replace (u / 2) with ((1 # 2) * u) by field.
  apply Qmult_le_compat_r; [exact N | lra].
Qed.

Lemma grid_monotone (u x y : Q) :
  0 < u -> x <= y ->
  inject_Z (roundHalfEven (x / u)) * u <= inject_Z (roundHalfEven (y / u)) * u.
Proof.
  intros Hu H. apply Qmult_le_compat_r; [| lra].
  rewrite <- Zle_Qle. apply roundHalfEven_monotone.
  unfold Qdiv. apply Qmult_le_compat_r; [exact H |].
  apply Qlt_le_weak, Qinv_lt_0_compat, Hu.
Qed.

Lemma grid_point (u : Q) (n : Z) :
  0 < u -> inject_Z (roundHalfEven (inject_Z n * u / u)) * u == inject_Z n * u.
Proof.
  intro Hu.
  assert (E : inject_Z n * u / u == inject_Z n) by (field; lra).
  assert (L : (roundHalfEven (inject_Z n * u / u) <= n)%Z).
  { rewrite <- (roundHalfEven_Z n) at 2. apply roundHalfEven_monotone. lra. }
  assert (G : (n <= roundHalfEven (inject_Z n * u / u))%Z).
  { rewrite <- (roundHalfEven_Z n) at 1. apply roundHalfEven_monotone. lra. }
  replace (roundHalfEven (inject_Z n * u / u)) with n by lia. reflexivity.
Qed.

Lemma ulpOf_pos (x : Q) : 0 < ulpOf x.
Proof. apply pow2_pos. Qed.

Lemma binade_top (x : Q) : inject_Z (2 ^ 24) * ulpOf x == pow2 (binade x + 1).
Proof.
  unfold ulpOf. rewrite <- pow2_Z by lia.
  rewrite <- pow2_plus. unfold F32_MANT_BITS.
  replace (24 + (binade x - 23))%Z with (binade x + 1)%Z by ring. reflexivity.
Qed.

Lemma binade_bottom (x : Q) : inject_Z (2 ^ 23) * ulpOf x == pow2 (binade x).
Proof.
  unfold ulpOf. rewrite <- pow2_Z by lia.
  rewrite <- pow2_plus. unfold F32_MANT_BITS.
  replace (23 + (binade x - 23))%Z with (binade x) by ring. reflexivity.
Qed.

(** The stored magnitude is within half a spacing of the number. *)
Lemma roundMagnitude_nearest (x : Q) :
  Qabs (roundMagnitude x - x) <= ulpOf x / 2.
Proof. unfold roundMagnitude. apply grid_nearest, ulpOf_pos. Qed.

Lemma roundMagnitude_upper (x : Q) :
  0 < x -> roundMagnitude x <= pow2 (binade x + 1).
Proof.
  intro Hx. destruct (ilog2_spec x Hx) as [_ U].
  assert (B : pow2 (ilog2 x + 1) <= pow2 (binade x + 1))
    by (apply pow2_le; unfold binade; lia).
  rewrite <- binade_top. rewrite <- (grid_point (ulpOf x) (2 ^ 24) (ulpOf_pos x)).
  unfold roundMagnitude. apply grid_monotone; [apply ulpOf_pos |].
  rewrite binade_top. lra.
Qed.

Lemma roundMagnitude_lower (y : Q) :
  0 < y -> (F32_MIN_EXP <= ilog2 y)%Z -> pow2 (binade y) <= roundMagnitude y.
Proof.
  intros Hy N. destruct (ilog2_spec y Hy) as [L _].
  assert (B : binade y = ilog2 y) by (unfold binade; lia).
  rewrite <- binade_bottom. rewrite <- (grid_point (ulpOf y) (2 ^ 23) (ulpOf_pos y)).
  unfold roundMagnitude. apply grid_monotone; [apply ulpOf_pos |].
  rewrite binade_bottom, B. exact L.
Qed.

Lemma roundMagnitude_nonneg (x : Q) : 0 < x -> 0 <= roundMagnitude x.
Proof.
  intro Hx. unfold roundMagnitude.
  apply Qmult_le_0_compat; [| apply Qlt_le_weak, ulpOf_pos].
  change 0 with (inject_Z 0). rewrite <- Zle_Qle.
  pose proof (roundHalfEven_bounds (x / ulpOf x)) as B.
  assert (0 <= x / ulpOf x).
  { unfold Qdiv. apply Qmult_le_0_compat; [lra |].
    apply Qlt_le_weak, Qinv_lt_0_compat, ulpOf_pos. }
  assert (0 <= Qfloor (x / ulpOf x))%Z.
  { rewrite <- (Qfloor_Z 0). apply Qfloor_resp_le. assumption. }
  lia.
Qed.

Lemma roundMagnitude_monotone (x y : Q) :
  0 < x -> x <= y -> roundMagnitude x <= roundMagnitude y.
Proof.
  intros Hx H. assert (Hy : 0 < y) by lra.
  pose proof (ilog2_monotone x y Hx H) as M.
  destruct (Z.eq_dec (binade x) (binade y)) as [E | NE].
  - unfold roundMagnitude.
    assert (U : ulpOf y = ulpOf x) by (unfold ulpOf; now rewrite E).
    rewrite U. apply grid_monotone; [apply ulpOf_pos | exact H].
  - assert (L : (binade x < binade y)%Z) by (unfold binade in *; lia).
    apply Qle_trans with (pow2 (binade x + 1)); [now apply roundMagnitude_upper |].
    apply Qle_trans with (pow2 (binade y)); [apply pow2_le; lia |].
    apply roundMagnitude_lower; [exact Hy | unfold binade in *; lia].
Qed.

Lemma f32_le_refl (a : float32) : f32_le a a.
Proof. destruct a; simpl; [apply Qle_refl | exact I | exact I]. Qed.

Lemma f32_le_trans (a b c : float32) : f32_le a b -> f32_le b c -> f32_le a c.
Proof.
  destruct a, b, c; simpl; try tauto. apply Qle_trans.
Qed.

Lemma froundPos_monotone (x y : Q) :
  0 < x -> x <= y -> f32_le (froundPos x) (froundPos y).
Proof.
  intros Hx H. pose proof (roundMagnitude_monotone x y Hx H) as M.
  unfold froundPos.
  destruct (Qle_bool F32_OVERFLOW (roundMagnitude y)) eqn:Oy.
  - destruct (Qle_bool F32_OVERFLOW (roundMagnitude x)); exact I.
  - destruct (Qle_bool F32_OVERFLOW (roundMagnitude x)) eqn:Ox; [| exact M].
    apply Qle_bool_iff in Ox.
    assert (C : Qle_bool F32_OVERFLOW (roundMagnitude y) = true)
      by (apply Qle_bool_iff; lra).
    congruence.
Qed.

Lemma froundPos_nonneg (x : Q) : 0 < x -> f32_le (F32 0) (froundPos x).
Proof.
  intro Hx. unfold froundPos.
  destruct (Qle_bool F32_OVERFLOW (roundMagnitude x)); [exact I |].
  now apply roundMagnitude_nonneg.
Qed.

Lemma f32_neg_antitone (a b : float32) : f32_le a b -> f32_le (f32_neg b) (f32_neg a).
Proof.
  destruct a, b; simpl; try tauto. intro. lra.
Qed.

Lemma fround_monotone (x y : Q) : x <= y -> f32_le (fround x) (fround y).
Proof.
  intro H. unfold fround.
  destruct (Qcompare_spec x 0) as [X | X | X];
    destruct (Qcompare_spec y 0) as [Y | Y | Y]; try (exfalso; lra).
  - simpl. apply Qle_refl.
  - now apply froundPos_nonneg.
  - change (F32 0) with (f32_neg (F32 0)). apply f32_neg_antitone.
    apply froundPos_nonneg. lra.
  - apply f32_neg_antitone. apply froundPos_monotone; lra.
  - apply f32_le_trans with (F32 0).
    + change (F32 0) with (f32_neg (F32 0)). apply f32_neg_antitone.
      apply froundPos_nonneg. lra.
    + now apply froundPos_nonneg.
  - now apply froundPos_monotone.
Qed.

(** An entry between two finite values is finite. *)
Lemma f32_between (a b : Q) (e : float32) :
  f32_le (F32 a) e -> f32_le e (F32 b) -> exists q, e = F32 q /\ a <= q <= b.
Proof.
  destruct e as [q | |]; simpl; intros L U; try contradiction.
  exists q. auto.
Qed.

End Float32Facts.

(* ================================================================== *)
(** * Part III: the curve solver and the LUT builder *)
(* ================================================================== *)

Section CurveFacts.
Local Open Scope Q_scope.

Lemma cubic_bernstein (t p0 p1 p2 p3 : Q) :
  cubicBezierCoord t p0 p1 p2 p3 ==
  (1 - t) * (1 - t) * (1 - t) * p0 + 3 * ((1 - t) * (1 - t) * t) * p1
  + 3 * ((1 - t) * t * t) * p2 + t * t * t * p3.
Proof. unfold cubicBezierCoord. cbv zeta. ring. Qed.

Lemma cubic_convex (t lo hi p0 p1 p2 p3 : Q) :
  0 <= t <= 1 ->
  lo <= p0 <= hi -> lo <= p1 <= hi -> lo <= p2 <= hi -> lo <= p3 <= hi ->
  lo <= cubicBezierCoord t p0 p1 p2 p3 <= hi.
Proof.
  intros Ht H0 H1 H2 H3. rewrite cubic_bernstein.
  set (s := 1 - t).
  assert (Hs : 0 <= s) by (unfold s; lra).
  assert (Hsum : s + t == 1) by (unfold s; lra).
  assert (W0 : 0 <= s * s * s) by (repeat apply Qmult_le_0_compat; lra).
  assert (W1 : 0 <= s * s * t) by (repeat apply Qmult_le_0_compat; lra).
  assert (W2 : 0 <= s * t * t) by (repeat apply Qmult_le_0_compat; lra).
  assert (W3 : 0 <= t * t * t) by (repeat apply Qmult_le_0_compat; lra).
  assert (One : s * s * s + 3 * (s * s * t) + 3 * (s * t * t) + t * t * t == 1).
  { transitivity ((s + t) * (s + t) * (s + t)); [ring|]. rewrite Hsum. ring. }
  assert (P : forall w p, 0 <= w -> lo <= p <= hi -> 0 <= w * (p - lo) /\ 0 <= w * (hi - p)).
  { intros w p Hw Hp. split; apply Qmult_le_0_compat; lra. }
  destruct (P _ _ W0 H0), (P _ _ W1 H1), (P _ _ W2 H2), (P _ _ W3 H3).
  split; nra.
Qed.

Lemma clamp01_range (v : Q) : 0 <= clamp01 v <= 1.
Proof.
  unfold clamp01. split.
  - apply Q.min_glb; [lra | apply Q.le_max_l].
  - apply Q.le_min_l.
Qed.

Lemma clamp01_id (v : Q) : 0 <= v <= 1 -> clamp01 v == v.
Proof.
  intros [H0 H1]. unfold clamp01.
  rewrite (Q.max_r 0 v H0). apply Q.min_r. exact H1.
Qed.

Lemma half_between (a b : Q) : a <= b -> a <= (a + b) / 2 <= b.
Proof.
  intros H. assert (E : (a + b) / 2 == (a + b) * (1 # 2)) by (field).
  rewrite E. lra.
Qed.

Lemma loop_body_inside (tx a b : Q) (st : Bisect) :
  low st <= high st ->
  let st' := loop_body tx a b st in
  low st <= low st' /\ inside st' /\ high st' <= high st.
Proof.
  intros H. pose proof (half_between _ _ H) as M.
  unfold loop_body, inside.
  destruct (Qlt_le_dec _ _); [|destruct (Qlt_le_dec _ _)]; cbn; lra.
Qed.

Lemma bisect_inside (n : nat) (tx a b : Q) (st : Bisect) :
  inside st ->
  let r := bisect n tx a b st in
  low st <= low r /\ inside r /\ high r <= high st.
Proof.
  revert st. induction n as [|n IH]; intros st H; cbn.
  - unfold inside in *. lra.
  - destruct (loop_done st).
    + unfold inside in *. lra.
    + assert (L : low st <= high st) by (unfold inside in H; lra).
      destruct (loop_body_inside tx a b st L) as (B1 & B2 & B3).
      destruct (IH _ B2) as (C1 & C2 & C3). cbn in *. repeat split; try apply C2; lra.
Qed.

Lemma bisect_t_range (n : nat) (tx a b : Q) (st : Bisect) :
  inside st -> low st <= bt (bisect n tx a b st) <= high st.
Proof.
  intros H. destruct (bisect_inside n tx a b st H) as (A & B & C).
  unfold inside in B. lra.
Qed.

Lemma solveT_range (u a b : Q) : 0 <= solveT u a b <= 1.
Proof.
  unfold solveT, sampleLoop.
  apply (bisect_t_range BISECT_BUDGET (clamp01 u) a b (bisect_init (clamp01 u))).
  unfold inside, bisect_init; cbn. apply clamp01_range.
Qed.

(** Iteration count and termination. *)
Lemma loop_body_count (tx a b : Q) (st : Bisect) :
  loop_done st = false ->
  let st' := loop_body tx a b st in
  (bi st' <= BISECT_BUDGET)%nat /\
  (broke st' = true \/ bi st' = S (bi st)).
Proof.
  unfold loop_done. intros H. apply orb_false_elim in H. destruct H as [_ H].
  apply Nat.leb_gt in H. unfold loop_body.
  destruct (Qlt_le_dec _ _); [|destruct (Qlt_le_dec _ _)]; cbn; split; auto; lia.
Qed.

Lemma bisect_done_id (n : nat) (tx a b : Q) (st : Bisect) :
  loop_done st = true -> bisect n tx a b st = st.
Proof. intros H. destruct n; cbn; [reflexivity|]. now rewrite H. Qed.

Lemma bisect_count (n : nat) (tx a b : Q) (st : Bisect) :
  (bi st <= BISECT_BUDGET)%nat -> (bi (bisect n tx a b st) <= BISECT_BUDGET)%nat.
Proof.
  revert st. induction n as [|n IH]; intros st H; cbn; auto.
  destruct (loop_done st) eqn:D; auto.
  apply IH. now apply loop_body_count.
Qed.

Lemma bisect_reaches_done (n : nat) (tx a b : Q) (st : Bisect) :
  (BISECT_BUDGET <= bi st + n)%nat -> loop_done (bisect n tx a b st) = true.
Proof.
  revert st. induction n as [|n IH]; intros st H; cbn.
  - unfold loop_done. apply orb_true_intro. right. apply Nat.leb_le. lia.
  - destruct (loop_done st) eqn:D; auto.
    destruct (loop_body_count tx a b st D) as [_ [B|B]].
    + rewrite bisect_done_id; unfold loop_done; rewrite B; reflexivity.
    + apply IH. rewrite B. lia.
Qed.

Lemma bisect_plus (n k : nat) (tx a b : Q) (st : Bisect) :
  bisect (n + k) tx a b st = bisect k tx a b (bisect n tx a b st).
Proof.
  revert st. induction n as [|n IH]; intros st; cbn; auto.
  destruct (loop_done st) eqn:D; auto.
  now rewrite bisect_done_id.
Qed.

Lemma bisect_fuel_enough (n : nat) (tx a b : Q) :
  (BISECT_BUDGET <= n)%nat ->
  bisect n tx a b (bisect_init tx) = bisect BISECT_BUDGET tx a b (bisect_init tx).
Proof.
  intros H. replace n with (BISECT_BUDGET + (n - BISECT_BUDGET))%nat by lia.
  rewrite bisect_plus. apply bisect_done_id. apply bisect_reaches_done. cbn. lia.
Qed.

(** The parameter found grows with the target. *)
Lemma bisect_monotone (n : nat) (tx1 tx2 a b : Q) (st : Bisect) :
  tx1 <= tx2 -> inside st ->
  bt (bisect n tx1 a b st) <= bt (bisect n tx2 a b st).
Proof.
  intros Htx. revert st. induction n as [|n IH]; intros st H; cbn; [lra|].
  destruct (loop_done st); [lra|].
  assert (L : low st <= high st) by (unfold inside in H; lra).
  pose proof (half_between _ _ L) as M.
  pose proof (loop_body_inside tx1 a b st L) as B1.
  pose proof (loop_body_inside tx2 a b st L) as B2.
  cbv zeta in B1, B2. revert B1 B2.
  unfold loop_body. set (mid := (low st + high st) / 2) in *.
  set (x := cubicBezierCoord mid 0 a b 1).
  destruct (Qlt_le_dec (Qabs (x - tx1)) _) as [A1|A1];
  destruct (Qlt_le_dec (Qabs (x - tx2)) _) as [A2|A2];
  try (destruct (Qlt_le_dec x tx1) as [C1|C1]);
  try (destruct (Qlt_le_dec x tx2) as [C2|C2]);
  intros (_ & I1 & _) (_ & I2 & _).
  all: try (apply Qabs_Qlt_condition in A1).
  all: try (apply Qabs_Qlt_condition in A2).
  all: try (rewrite bisect_done_id by reflexivity; cbn).
  all: try (rewrite (bisect_done_id n tx2) by reflexivity; cbn).
  all: try lra.
  all: try (apply IH; assumption).
  all: try (pose proof (bisect_t_range n tx1 a b _ I1) as R1; cbn in R1).
  all: try (pose proof (bisect_t_range n tx2 a b _ I2) as R2; cbn in R2).
  all: try lra.
  all: try (exfalso; revert A1; apply Qabs_case; intros; lra).
  all: try (exfalso; revert A2; apply Qabs_case; intros; lra).
Qed.

Lemma clamp01_monotone (u v : Q) : u <= v -> clamp01 u <= clamp01 v.
Proof.
  intros H. unfold clamp01.
  apply Q.min_le_compat_l. apply Q.max_le_compat_l. exact H.
Qed.

Lemma bisect_S (n : nat) (tx a b : Q) (st : Bisect) :
  bisect (S n) tx a b st
  = if loop_done st then st else bisect n tx a b (loop_body tx a b st).
Proof. reflexivity. Qed.

Lemma loop_body_ignores_t (tx a b : Q) (i : nat) (l h t t' : Q) (br : bool) :
  loop_body tx a b (mkBisect i l h t br) = loop_body tx a b (mkBisect i l h t' br).
Proof. unfold loop_body. cbn [low high bi]. reflexivity. Qed.

Lemma bisect_first_step (n : nat) (tx a b t t' : Q) :
  bisect (S n) tx a b (mkBisect 0 0 1 t false)
  = bisect (S n) tx a b (mkBisect 0 0 1 t' false).
Proof.
  rewrite !bisect_S.
  change (loop_done (mkBisect 0 0 1 t false)) with false.
  change (loop_done (mkBisect 0 0 1 t' false)) with false.
  now rewrite (loop_body_ignores_t tx a b 0 0 1 t t').
Qed.

Lemma solveT_monotone (u v a b : Q) : u <= v -> solveT u a b <= solveT v a b.
Proof.
  intros H. unfold solveT, sampleLoop.
  apply clamp01_monotone in H.
  unfold bisect_init. change BISECT_BUDGET with (S 23).
  rewrite (bisect_first_step 23 (clamp01 u) a b (clamp01 u) (clamp01 v)).
  apply bisect_monotone; [exact H|].
  unfold inside; cbn [low high bt]. apply clamp01_range.
Qed.

Lemma lutQuery_monotone (i j : nat) : (i <= j)%nat -> lutQuery i <= lutQuery j.
Proof.
  intros H. unfold lutQuery. unfold Qdiv.
  apply Qmult_le_compat_r.
  - rewrite <- Zle_Qle. lia.
  - cbn. discriminate.
Qed.

Lemma LUT_length (p1x p1y p2x p2y startY endY minScale maxScale : Q) :
  length (generateScaleLUT_anchors p1x p1y p2x p2y startY endY minScale maxScale)
  = LUT_SIZE.
Proof. unfold generateScaleLUT_anchors. now rewrite length_map, length_seq. Qed.

Lemma nth_map_seq {A : Type} (f : nat -> A) (n i : nat) (d : A) :
  (i < n)%nat -> nth i (map f (seq 0 n)) d = f i.
Proof.
  intros H. rewrite (nth_indep _ d (f O)) by (now rewrite length_map, length_seq).
  rewrite map_nth. now rewrite seq_nth.
Qed.

Lemma LUT_entry (p1x p1y p2x p2y startY endY minScale maxScale : Q) (i : nat) :
  (i < LUT_SIZE)%nat ->
  nth i (generateScaleLUT_anchors p1x p1y p2x p2y startY endY minScale maxScale)
      (F32 0)
  = fround (slotValue p1x p1y p2x p2y startY endY minScale maxScale i).
Proof.
  intros H. unfold generateScaleLUT_anchors. now rewrite nth_map_seq.
Qed.


Lemma curveX_bounds (a b t : Q) :
  0 <= a <= 1 -> 0 <= b <= 1 -> 0 <= t <= 1 ->
  0 <= curveX a b t /\ curveX a b t <= 3 * t /\
  curveX a b t <= 1 /\ 1 - curveX a b t <= 3 * (1 - t).
Proof.
  intros Ha Hb Ht. unfold curveX.
  destruct (cubic_convex t 0 1 0 a b 1 Ht) as [L U]; try lra.
  rewrite cubic_bernstein in *.
  set (s := 1 - t) in *.
  assert (Hs : 0 <= s) by (unfold s; lra).
  assert (W1 : 0 <= s * s * t) by (repeat apply Qmult_le_0_compat; lra).
  assert (W2 : 0 <= s * t * t) by (repeat apply Qmult_le_0_compat; lra).
  assert (W0 : 0 <= s * s * s) by (repeat apply Qmult_le_0_compat; lra).
  assert (W3 : 0 <= t * t * t) by (repeat apply Qmult_le_0_compat; lra).
  assert (A1 : 0 <= s * s * t * (1 - a)) by (apply Qmult_le_0_compat; lra).
  assert (A2 : 0 <= s * t * t * (1 - b)) by (apply Qmult_le_0_compat; lra).
  assert (B1 : 0 <= s * s * t * a) by (apply Qmult_le_0_compat; lra).
  assert (B2 : 0 <= s * t * t * b) by (apply Qmult_le_0_compat; lra).
  assert (T2 : 0 <= t * t) by (apply Qmult_le_0_compat; lra).
  assert (S2 : 0 <= s * s) by (apply Qmult_le_0_compat; lra).
  assert (E : s == 1 - t) by reflexivity.
  repeat split; try lra.
  - assert (0 <= t * t * (3 - t)) by (apply Qmult_le_0_compat; lra).
    assert (s * s * t + s * t * t == t - t * t) by (rewrite E; ring).
    assert (s * s * t == t - 2 * (t * t) + t * t * t) by (rewrite E; ring).
    nra.
  - assert (0 <= s * s * (3 - s)) by (apply Qmult_le_0_compat; lra).
    assert (T : t == 1 - s) by (unfold s; ring).
    assert (s * s * t + s * t * t == s - s * s) by (rewrite T; ring).
    assert (s * t * t == s - 2 * (s * s) + s * s * s) by (rewrite T; ring).
    nra.
Qed.

Lemma halfPow_pos (n : nat) : 0 < halfPow n <= 1.
Proof.
  induction n as [|n IH]; cbn [halfPow]; [lra|].
  assert (E : halfPow n / 2 == halfPow n * (1 # 2)) by field. rewrite E. lra.
Qed.

Lemma half_eq (x : Q) : x / 2 == x * (1 # 2).
Proof. field. Qed.

Lemma zeroInv_body (a b : Q) (st : Bisect) :
  0 <= a <= 1 -> 0 <= b <= 1 ->
  loop_done st = false -> zeroInv a b st -> zeroInv a b (loop_body 0 a b st).
Proof.
  intros Ha Hb D (L & H & I).
  unfold loop_done in D. apply orb_false_elim in D. destruct D as [Br _].
  rewrite Br in I. destruct I as [Hp _].
  set (mid := (low st + high st) / 2).
  assert (M : mid == high st * (1 # 2)) by (unfold mid; rewrite half_eq; lra).
  assert (Mr : 0 <= mid <= 1) by lra.
  pose proof (curveX_bounds a b mid Ha Hb Mr) as (X0 & _).
  unfold loop_body. fold mid. fold (curveX a b mid).
  destruct (Qlt_le_dec _ _) as [A|A]; [|destruct (Qlt_le_dec _ _) as [C|C]];
    unfold zeroInv; cbn [low high bt broke bi].
  - repeat split; try lra. exact A.
  - lra.
  - repeat split; try lra.
    cbn [halfPow]. rewrite half_eq. lra.
Qed.

Lemma oneInv_body (a b : Q) (st : Bisect) :
  0 <= a <= 1 -> 0 <= b <= 1 ->
  loop_done st = false -> oneInv a b st -> oneInv a b (loop_body 1 a b st).
Proof.
  intros Ha Hb D (L & H & I).
  unfold loop_done in D. apply orb_false_elim in D. destruct D as [Br _].
  rewrite Br in I. destruct I as [Hp _].
  pose proof (halfPow_pos (bi st)) as HP.
  set (mid := (low st + high st) / 2).
  assert (M : mid == (low st + 1) * (1 # 2)) by (unfold mid; rewrite half_eq; lra).
  assert (Mr : 0 <= mid <= 1) by lra.
  pose proof (curveX_bounds a b mid Ha Hb Mr) as (_ & _ & X1 & _).
  unfold loop_body. fold mid. fold (curveX a b mid).
  destruct (Qlt_le_dec _ _) as [A|A]; [|destruct (Qlt_le_dec _ _) as [C|C]];
    unfold oneInv; cbn [low high bt broke bi].
  - repeat split; try lra. exact A.
  - repeat split; try lra.
    cbn [halfPow]. rewrite half_eq. lra.
  - exfalso. revert A. apply Qabs_case; unfold X_TOLERANCE; intros; lra.
Qed.

Lemma zeroInv_bisect (n : nat) (a b : Q) (st : Bisect) :
  0 <= a <= 1 -> 0 <= b <= 1 ->
  zeroInv a b st -> zeroInv a b (bisect n 0 a b st).
Proof.
  intros Ha Hb. revert st. induction n as [|n IH]; intros st H; [exact H|].
  rewrite bisect_S. destruct (loop_done st) eqn:D; [exact H|].
  apply IH. now apply zeroInv_body.
Qed.

Lemma oneInv_bisect (n : nat) (a b : Q) (st : Bisect) :
  0 <= a <= 1 -> 0 <= b <= 1 ->
  oneInv a b st -> oneInv a b (bisect n 1 a b st).
Proof.
  intros Ha Hb. revert st. induction n as [|n IH]; intros st H; [exact H|].
  rewrite bisect_S. destruct (loop_done st) eqn:D; [exact H|].
  apply IH. now apply oneInv_body.
Qed.

Lemma halfPow_budget : 3 * halfPow BISECT_BUDGET < X_TOLERANCE.
Proof. vm_compute. reflexivity. Qed.

Lemma clamp01_0 : clamp01 0 = 0.
Proof. reflexivity. Qed.

Lemma clamp01_1 : clamp01 1 = 1.
Proof. reflexivity. Qed.

Lemma init_budget (tx : Q) :
  (BISECT_BUDGET <= bi (bisect_init tx) + BISECT_BUDGET)%nat.
Proof. apply Nat.le_add_l. Qed.

Lemma init_count (tx : Q) : (bi (bisect_init tx) <= BISECT_BUDGET)%nat.
Proof. apply Nat.le_0_l. Qed.

Lemma zeroInv_init (a b : Q) : zeroInv a b (bisect_init 0).
Proof.
  unfold zeroInv, bisect_init; cbn [low high bt bi broke halfPow].
  repeat split; try lra. intros F; inversion F.
Qed.

Lemma oneInv_init (a b : Q) : oneInv a b (bisect_init 1).
Proof.
  unfold oneInv, bisect_init; cbn [low high bt bi broke halfPow].
  repeat split; try lra. intros F; inversion F.
Qed.

Lemma zeroInv_final (a b : Q) (r : Bisect) :
  0 <= a <= 1 -> 0 <= b <= 1 ->
  zeroInv a b r -> loop_done r = true -> (bi r <= BISECT_BUDGET)%nat ->
  0 < bt r < 1 /\ Qabs (curveX a b (bt r) - 0) < X_TOLERANCE.
Proof.
  intros Ha Hb (L & H & I) D C. unfold loop_done in D.
  destruct (broke r); [exact I|].
  rewrite orb_false_l in D. apply Nat.leb_le in D.
  assert (E : bi r = BISECT_BUDGET) by lia. rewrite E in I.
  destruct I as [I1 I2]. specialize (I2 ltac:(unfold BISECT_BUDGET; lia)).
  pose proof halfPow_budget as HB. pose proof (halfPow_pos BISECT_BUDGET) as HP.
  assert (R : 0 <= bt r <= 1) by lra.
  pose proof (curveX_bounds a b (bt r) Ha Hb R) as (X0 & X3 & _).
  unfold X_TOLERANCE in *.
  split; [lra|]. apply Qabs_case; intros; lra.
Qed.

Lemma oneInv_final (a b : Q) (r : Bisect) :
  0 <= a <= 1 -> 0 <= b <= 1 ->
  oneInv a b r -> loop_done r = true -> (bi r <= BISECT_BUDGET)%nat ->
  0 < bt r < 1 /\ Qabs (curveX a b (bt r) - 1) < X_TOLERANCE.
Proof.
  intros Ha Hb (L & H & I) D C. unfold loop_done in D.
  destruct (broke r); [exact I|].
  rewrite orb_false_l in D. apply Nat.leb_le in D.
  assert (E : bi r = BISECT_BUDGET) by lia. rewrite E in I.
  destruct I as [I1 I2]. specialize (I2 ltac:(unfold BISECT_BUDGET; lia)).
  pose proof halfPow_budget as HB. pose proof (halfPow_pos BISECT_BUDGET) as HP.
  assert (R : 0 <= bt r <= 1) by lra.
  pose proof (curveX_bounds a b (bt r) Ha Hb R) as (_ & _ & X1 & X3).
  unfold X_TOLERANCE in *.
  split; [lra|]. apply Qabs_case; intros; lra.
Qed.

Lemma solveT_zero (a b : Q) :
  0 <= a <= 1 -> 0 <= b <= 1 ->
  0 < solveT 0 a b < 1 /\ Qabs (curveX a b (solveT 0 a b) - 0) < X_TOLERANCE.
Proof.
  intros Ha Hb. unfold solveT, sampleLoop. rewrite clamp01_0.
  exact (zeroInv_final a b _ Ha Hb
           (zeroInv_bisect BISECT_BUDGET a b _ Ha Hb (zeroInv_init a b))
           (bisect_reaches_done BISECT_BUDGET 0 a b _ (init_budget 0))
           (bisect_count BISECT_BUDGET 0 a b _ (init_count 0))).
Qed.

Lemma solveT_one (a b : Q) :
  0 <= a <= 1 -> 0 <= b <= 1 ->
  0 < solveT 1 a b < 1 /\ Qabs (curveX a b (solveT 1 a b) - 1) < X_TOLERANCE.
Proof.
  intros Ha Hb. unfold solveT, sampleLoop. rewrite clamp01_1.
  exact (oneInv_final a b _ Ha Hb
           (oneInv_bisect BISECT_BUDGET a b _ Ha Hb (oneInv_init a b))
           (bisect_reaches_done BISECT_BUDGET 1 a b _ (init_budget 1))
           (bisect_count BISECT_BUDGET 1 a b _ (init_count 1))).
Qed.

Lemma Qabs_le_iff (x y : Q) : Qabs x <= y <-> - y <= x <= y.
Proof. apply Qabs_Qle_condition. Qed.

(** Near the start anchor the Y error is at most [k] times the X error when
    no control value lies more than [k] times its X above or below
    [startY]. *)
Lemma start_error (k a b p1y p2y s e t : Q) :
  0 <= t <= 1 ->
  Qabs (p1y - s) <= k * a -> Qabs (p2y - s) <= k * b -> Qabs (e - s) <= k ->
  Qabs (curveY p1y p2y s e t - s) <= k * curveX a b t.
Proof.
  intros Ht H1 H2 H3. apply Qabs_le_iff in H1, H2, H3. apply Qabs_le_iff.
  unfold curveY, curveX. rewrite !cubic_bernstein.
  set (u := 1 - t).
  assert (Hu : 0 <= u) by (unfold u; lra).
  assert (W1 : 0 <= u * u * t) by (repeat apply Qmult_le_0_compat; lra).
  assert (W2 : 0 <= u * t * t) by (repeat apply Qmult_le_0_compat; lra).
  assert (W3 : 0 <= t * t * t) by (repeat apply Qmult_le_0_compat; lra).
  assert (One : u * u * u == 1 - 3 * (u * u * t) - 3 * (u * t * t) - t * t * t).
  { unfold u. ring. }
  assert (A1 : 0 <= u * u * t * (k * a - (p1y - s))) by (apply Qmult_le_0_compat; lra).
  assert (A2 : 0 <= u * u * t * (k * a + (p1y - s))) by (apply Qmult_le_0_compat; lra).
  assert (B1 : 0 <= u * t * t * (k * b - (p2y - s))) by (apply Qmult_le_0_compat; lra).
  assert (B2 : 0 <= u * t * t * (k * b + (p2y - s))) by (apply Qmult_le_0_compat; lra).
  assert (C1 : 0 <= t * t * t * (k - (e - s))) by (apply Qmult_le_0_compat; lra).
  assert (C2 : 0 <= t * t * t * (k + (e - s))) by (apply Qmult_le_0_compat; lra).
  rewrite One. split; lra.
Qed.

Lemma end_error (k a b p1y p2y s e t : Q) :
  0 <= t <= 1 ->
  Qabs (p1y - e) <= k * (1 - a) -> Qabs (p2y - e) <= k * (1 - b) ->
  Qabs (s - e) <= k ->
  Qabs (curveY p1y p2y s e t - e) <= k * (1 - curveX a b t).
Proof.
  intros Ht H1 H2 H3. apply Qabs_le_iff in H1, H2, H3. apply Qabs_le_iff.
  unfold curveY, curveX. rewrite !cubic_bernstein.
  set (u := 1 - t).
  assert (Hu : 0 <= u) by (unfold u; lra).
  assert (W0 : 0 <= u * u * u) by (repeat apply Qmult_le_0_compat; lra).
  assert (W1 : 0 <= u * u * t) by (repeat apply Qmult_le_0_compat; lra).
  assert (W2 : 0 <= u * t * t) by (repeat apply Qmult_le_0_compat; lra).
  assert (One : t * t * t == 1 - 3 * (u * u * t) - 3 * (u * t * t) - u * u * u).
  { unfold u. ring. }
  assert (A1 : 0 <= u * u * t * (k * (1 - a) - (p1y - e))) by (apply Qmult_le_0_compat; lra).
  assert (A2 : 0 <= u * u * t * (k * (1 - a) + (p1y - e))) by (apply Qmult_le_0_compat; lra).
  assert (B1 : 0 <= u * t * t * (k * (1 - b) - (p2y - e))) by (apply Qmult_le_0_compat; lra).
  assert (B2 : 0 <= u * t * t * (k * (1 - b) + (p2y - e))) by (apply Qmult_le_0_compat; lra).
  assert (C1 : 0 <= u * u * u * (k - (s - e))) by (apply Qmult_le_0_compat; lra).
  assert (C2 : 0 <= u * u * u * (k + (s - e))) by (apply Qmult_le_0_compat; lra).
  rewrite One. split; lra.
Qed.

(** ** Claims about the solver and the LUT *)

(** C9.  The solver is total.  For every input, the loop of [sampleBezierY]
    has been left (through [break] or through [i < 24]) once the budget of
    24 iterations is spent, its counter never exceeds 24, fuel beyond the
    budget changes nothing, and the value returned is the Y polynomial at the
    loop's last [t].  The same holds with the degenerate control points
    [p2x = p1x]. *)
Theorem sampleBezierY_terminates (u p1x p1y p2x p2y startY endY : Q) :
  loop_done (sampleLoop u p1x p2x) = true /\
  (bi (sampleLoop u p1x p2x) <= BISECT_BUDGET)%nat /\
  (forall fuel, (BISECT_BUDGET <= fuel)%nat ->
     bisect fuel (clamp01 u) p1x p2x (bisect_init (clamp01 u))
     = sampleLoop u p1x p2x) /\
  sampleBezierY u p1x p1y p2x p2y startY endY
  = cubicBezierCoord (bt (sampleLoop u p1x p2x)) startY p1y p2y endY /\
  loop_done (sampleLoop u p1x p1x) = true /\
  (bi (sampleLoop u p1x p1x) <= BISECT_BUDGET)%nat.
Proof.
  unfold sampleBezierY, solveT, sampleLoop. repeat split.
  - apply bisect_reaches_done, init_budget.
  - apply bisect_count, init_count.
  - intros fuel H. now apply bisect_fuel_enough.
  - apply bisect_reaches_done, init_budget.
  - apply bisect_count, init_count.
Qed.

(** The number computed for a slot lies between the scale bounds when the
    Y control values are in [0,1]. *)
Lemma slotValue_within (p1x p1y p2x p2y startY endY minScale maxScale : Q)
  (i : nat) :
  0 <= startY <= 1 -> 0 <= p1y <= 1 -> 0 <= p2y <= 1 -> 0 <= endY <= 1 ->
  minScale <= maxScale ->
  minScale <= slotValue p1x p1y p2x p2y startY endY minScale maxScale i
  <= maxScale.
Proof.
  intros Hs H1 H2 He Hm. unfold slotValue. cbv zeta.
  assert (Y : 0 <= sampleBezierY (lutQuery i) p1x p1y p2x p2y startY endY <= 1).
  { unfold sampleBezierY. apply cubic_convex; auto. apply solveT_range. }
  set (y := sampleBezierY _ _ _ _ _ _ _) in *.
  assert (0 <= y * (maxScale - minScale)) by (apply Qmult_le_0_compat; lra).
  assert (0 <= (1 - y) * (maxScale - minScale)) by (apply Qmult_le_0_compat; lra).
  lra.
Qed.

(** What storing does to a number between the bounds: the stored value lies
    between the stored bounds, and is finite between any finite values that
    enclose those. *)
Lemma stored_within (minScale maxScale y : Q) :
  minScale <= y <= maxScale ->
  f32_le (fround minScale) (fround y) /\
  f32_le (fround y) (fround maxScale) /\
  (forall lo hi,
     f32_le (F32 lo) (fround minScale) -> f32_le (fround maxScale) (F32 hi) ->
     exists q, fround y = F32 q /\ lo <= q <= hi).
Proof.
  intros [L U].
  pose proof (fround_monotone _ _ L) as A.
  pose proof (fround_monotone _ _ U) as B.
  split; [exact A |]. split; [exact B |].
  intros lo hi Hlo Hhi. apply f32_between.
  - exact (f32_le_trans _ _ _ Hlo A).
  - exact (f32_le_trans _ _ _ B Hhi).
Qed.

(** C10 as stated fails: the table is a [Float32Array], and a bound that is
    not a single-precision value is not kept by the store.  With the valid
    control points p1 = (0.01, 0), p2 = (0.03, 0), the anchors 1, 0 and the
    default bounds 0.03 and 2, the number computed for the last slot is at
    least [minScale], and the entry stored is 16106127 / 2^29, which is
    below it. *)
Lemma LUT_entry_below_minScale :
  valid_control_points (1 # 100) 0 (3 # 100) 0 /\
  (3 # 100) <= 2 /\
  (3 # 100) <= slotValue (1 # 100) 0 (3 # 100) 0 1 0 (3 # 100) 2 255 /\
  nth 255 (generateScaleLUT (1 # 100) 0 (3 # 100) 0 false (3 # 100) 2) (F32 0)
  = F32 (16106127 # 536870912) /\
  ~ ((3 # 100) <= (16106127 # 536870912) <= 2).
Proof.
  split; [unfold valid_control_points; repeat split; lra |].
  split; [lra |].
  split.
  { refine (proj1 (slotValue_within (1 # 100) 0 (3 # 100) 0 1 0 (3 # 100) 2 255
                     _ _ _ _ _)); lra. }
  split.
  - unfold generateScaleLUT. cbv zeta.
    rewrite LUT_entry by (unfold LUT_SIZE; lia).
    vm_compute. reflexivity.
  - intros [C _]. revert C. apply Qlt_not_le. reflexivity.
Qed.

(** C10, as the code has it.  With [startY], [p1y], [p2y], [endY] in [0,1]
    the loop's [t] stays in [0,1] and the solver returns a value in [0,1] for
    every query and all [p1x], [p2x]; so, when [minScale <= maxScale], the
    number computed for every slot lies in [minScale, maxScale].  The entry
    is that number as stored in single precision: it lies between the stored
    bounds [fround minScale] and [fround maxScale], and between any finite
    values that enclose them (the bounds themselves when they are
    single-precision values).  This holds for the builder with free anchors
    and for the one with [isReversed]. *)
Theorem sampleBezierY_unit_range
  (p1x p1y p2x p2y startY endY minScale maxScale : Q) :
  0 <= startY <= 1 -> 0 <= p1y <= 1 -> 0 <= p2y <= 1 -> 0 <= endY <= 1 ->
  (forall u, 0 <= solveT u p1x p2x <= 1 /\
             0 <= sampleBezierY u p1x p1y p2x p2y startY endY <= 1) /\
  (minScale <= maxScale ->
   forall i, (i < LUT_SIZE)%nat ->
     let y := slotValue p1x p1y p2x p2y startY endY minScale maxScale i in
     let e := nth i (generateScaleLUT_anchors p1x p1y p2x p2y startY endY
                                              minScale maxScale) (F32 0) in
     minScale <= y <= maxScale /\
     e = fround y /\
     f32_le (fround minScale) e /\ f32_le e (fround maxScale) /\
     (forall lo hi,
        f32_le (F32 lo) (fround minScale) -> f32_le (fround maxScale) (F32 hi) ->
        exists q, e = F32 q /\ lo <= q <= hi)) /\
  (minScale <= maxScale ->
   forall (isReversed : bool) (i : nat), (i < LUT_SIZE)%nat ->
     let y := slotValue p1x p1y p2x p2y (if isReversed then 0 else 1)
                        (if isReversed then 1 else 0) minScale maxScale i in
     let e := nth i (generateScaleLUT p1x p1y p2x p2y isReversed
                                      minScale maxScale) (F32 0) in
     minScale <= y <= maxScale /\
     e = fround y /\
     f32_le (fround minScale) e /\ f32_le e (fround maxScale) /\
     (forall lo hi,
        f32_le (F32 lo) (fround minScale) -> f32_le (fround maxScale) (F32 hi) ->
        exists q, e = F32 q /\ lo <= q <= hi)).
Proof.
  intros Hs H1 H2 He.
  split; [| split].
  - intros u. split; [apply solveT_range |].
    unfold sampleBezierY. apply cubic_convex; auto. apply solveT_range.
  - intros Hm i Hi. cbv zeta. rewrite LUT_entry by exact Hi.
    pose proof (slotValue_within p1x p1y p2x p2y startY endY minScale maxScale i
                  Hs H1 H2 He Hm) as W.
    split; [exact W |]. split; [reflexivity |].
    destruct (stored_within _ _ _ W) as (A & B & C). auto.
  - intros Hm isReversed i Hi. cbv zeta. unfold generateScaleLUT. cbv zeta.
    rewrite LUT_entry by exact Hi.
    assert (W : minScale
                <= slotValue p1x p1y p2x p2y (if isReversed then 0 else 1)
                             (if isReversed then 1 else 0) minScale maxScale i
                <= maxScale).
    { apply slotValue_within; auto; destruct isReversed; lra. }
    split; [exact W |]. split; [reflexivity |].
    destruct (stored_within _ _ _ W) as (A & B & C). auto.
Qed.

Lemma sampleBezierY_unit_range_witness :
  exists q,
    nth 128 (generateScaleLUT (33 # 100) (8 # 10) (66 # 100) (2 # 10)
                              false (3 # 100) 2) (F32 0) = F32 q /\
    (16106127 # 536870912) <= q <= 2.
Proof.
  refine (proj2 (proj2 (proj2 (proj2
            (proj2 (proj2 (sampleBezierY_unit_range (33 # 100) (8 # 10) (66 # 100)
                             (2 # 10) 1 0 (3 # 100) 2 _ _ _ _))
               _ false 128%nat _))))
            (16106127 # 536870912) 2 _ _);
    try lra.
  - unfold LUT_SIZE. lia.
  - vm_compute. discriminate.
  - vm_compute. discriminate.
Defined.

(** A solver-level fact behind C7: the entries of a LUT follow the order of
    the Y values at the parameters found, which grow with the slot. *)
Lemma LUT_step (p1x p1y p2x p2y startY endY minScale maxScale : Q) (i : nat) :
  (S i < LUT_SIZE)%nat ->
  0 <= solveT (lutQuery i) p1x p2x /\
  solveT (lutQuery i) p1x p2x <= solveT (lutQuery (S i)) p1x p2x /\
  solveT (lutQuery (S i)) p1x p2x <= 1.
Proof.
  intros _. repeat split.
  - apply solveT_range.
  - apply solveT_monotone, lutQuery_monotone. lia.
  - apply solveT_range.
Qed.

(** C7.  With the scale bounds in their order ([minScale <= maxScale], which
    the scale slider keeps): if the anchors are 1, 0 ([isReversed = false])
    and the control points keep X(t) monotonic and Y(t) falling, the stored
    LUT is non-increasing in the slot, [lut[i+1] <= lut[i]] for every [i]
    below [LUT_SIZE - 1]; with the anchors 0, 1 and Y(t) rising it is
    non-decreasing. *)
Theorem LUT_monotone (p1x p1y p2x p2y minScale maxScale : Q) :
  minScale <= maxScale ->
  monotoneX p1x p2x ->
  (fallingY p1y p2y 1 0 ->
   forall i, (S i < LUT_SIZE)%nat ->
     f32_le
       (nth (S i) (generateScaleLUT p1x p1y p2x p2y false minScale maxScale)
            (F32 0))
       (nth i (generateScaleLUT p1x p1y p2x p2y false minScale maxScale)
            (F32 0))) /\
  (risingY p1y p2y 0 1 ->
   forall i, (S i < LUT_SIZE)%nat ->
     f32_le
       (nth i (generateScaleLUT p1x p1y p2x p2y true minScale maxScale)
            (F32 0))
       (nth (S i) (generateScaleLUT p1x p1y p2x p2y true minScale maxScale)
            (F32 0))).
Proof.
  intros Hm _. split; intros HY i Hi;
    destruct (LUT_step p1x p1y p2x p2y 0 0 minScale maxScale i Hi) as (T0 & T1 & T2);
    unfold generateScaleLUT; cbv zeta;
    rewrite !LUT_entry by lia; apply fround_monotone;
    unfold slotValue, sampleBezierY; cbv zeta;
    specialize (HY _ _ T0 T1 T2); unfold curveY in HY.
  - assert (0 <= (cubicBezierCoord (solveT (lutQuery i) p1x p2x) 1 p1y p2y 0
                  - cubicBezierCoord (solveT (lutQuery (S i)) p1x p2x) 1 p1y p2y 0)
                 * (maxScale - minScale)) by (apply Qmult_le_0_compat; lra).
    lra.
  - assert (0 <= (cubicBezierCoord (solveT (lutQuery (S i)) p1x p2x) 0 p1y p2y 1
                  - cubicBezierCoord (solveT (lutQuery i) p1x p2x) 0 p1y p2y 1)
                 * (maxScale - minScale)) by (apply Qmult_le_0_compat; lra).
    lra.
Qed.

Lemma straight_X (t : Q) : curveX (1 # 3) (2 # 3) t == t.
Proof. unfold curveX, cubicBezierCoord. cbv zeta. ring. Qed.

Lemma straight_Y_falling (t : Q) : curveY (2 # 3) (1 # 3) 1 0 t == 1 - t.
Proof. unfold curveY, cubicBezierCoord. cbv zeta. ring. Qed.

Lemma straight_Y_rising (t : Q) : curveY (1 # 3) (2 # 3) 0 1 t == t.
Proof. unfold curveY, cubicBezierCoord. cbv zeta. ring. Qed.

Lemma straight_monotoneX : monotoneX (1 # 3) (2 # 3).
Proof. intros s t H0 H1 H2. rewrite !straight_X. exact H1. Qed.

Lemma straight_fallingY : fallingY (2 # 3) (1 # 3) 1 0.
Proof. intros s t H0 H1 H2. rewrite !straight_Y_falling. lra. Qed.

Lemma straight_risingY : risingY (1 # 3) (2 # 3) 0 1.
Proof. intros s t H0 H1 H2. rewrite !straight_Y_rising. exact H1. Qed.

Lemma LUT_monotone_witness :
  f32_le
    (nth 1 (generateScaleLUT (1 # 3) (2 # 3) (2 # 3) (1 # 3) false (3 # 100) 2)
         (F32 0))
    (nth 0 (generateScaleLUT (1 # 3) (2 # 3) (2 # 3) (1 # 3) false (3 # 100) 2)
         (F32 0)).
Proof.
  refine (proj1 (LUT_monotone (1 # 3) (2 # 3) (2 # 3) (1 # 3) (3 # 100) 2 _
                   straight_monotoneX) straight_fallingY 0%nat _).
  - lra.
  - unfold LUT_SIZE. lia.
Defined.

(** C6 as stated fails: the loop stops as soon as X is within 1e-4 of the
    target, not at the end of the curve.  With the valid control points
    p1 = (0.01, 0), p2 = (0.5, 0) and anchors 1, 0 the loop stops for the
    query 0 at t = 2^-9 and the value returned is more than 1e-3 away from
    [startY]. *)
Lemma endpoint_off_by_more_than_tolerance :
  valid_control_points (1 # 100) 0 (1 # 2) 0 /\
  ~ (Qabs (sampleBezierY 0 (1 # 100) 0 (1 # 2) 0 1 0 - 1) <= 1 # 1000).
Proof.
  split.
  - unfold valid_control_points. repeat split; lra.
  - apply Qlt_not_le. vm_compute. reflexivity.
Qed.

(** C6, as the code has it.  For valid control points and all anchors, the
    solver at the query 0 (at the query 1) returns the Y polynomial at a
    parameter strictly between 0 and 1 whose X is within 1e-4 of the query.
    The value is within 1e-3 of [startY] (of [endY]) when no other control
    value lies further from that anchor in Y than 10 times its distance from
    it in X. *)
Theorem endpoint_within_x_tolerance (p1x p1y p2x p2y startY endY : Q) :
  valid_control_points p1x p1y p2x p2y ->
  (0 < solveT 0 p1x p2x < 1 /\
   Qabs (curveX p1x p2x (solveT 0 p1x p2x) - 0) < X_TOLERANCE /\
   sampleBezierY 0 p1x p1y p2x p2y startY endY
   = curveY p1y p2y startY endY (solveT 0 p1x p2x) /\
   (Qabs (p1y - startY) <= 10 * p1x -> Qabs (p2y - startY) <= 10 * p2x ->
    Qabs (endY - startY) <= 10 ->
    Qabs (sampleBezierY 0 p1x p1y p2x p2y startY endY - startY) < 1 # 1000)) /\
  (0 < solveT 1 p1x p2x < 1 /\
   Qabs (curveX p1x p2x (solveT 1 p1x p2x) - 1) < X_TOLERANCE /\
   sampleBezierY 1 p1x p1y p2x p2y startY endY
   = curveY p1y p2y startY endY (solveT 1 p1x p2x) /\
   (Qabs (p1y - endY) <= 10 * (1 - p1x) -> Qabs (p2y - endY) <= 10 * (1 - p2x) ->
    Qabs (startY - endY) <= 10 ->
    Qabs (sampleBezierY 1 p1x p1y p2x p2y startY endY - endY) < 1 # 1000)).
Proof.
  intros (Ha & _ & Hb & _ & _).
  destruct (solveT_zero p1x p2x Ha Hb) as [Z1 Z2].
  destruct (solveT_one p1x p2x Ha Hb) as [O1 O2].
  split; (split; [assumption|]); (split; [assumption|]); (split; [reflexivity|]);
    intros H1 H2 H3; unfold sampleBezierY;
    fold (curveY p1y p2y startY endY (solveT 0 p1x p2x));
    fold (curveY p1y p2y startY endY (solveT 1 p1x p2x)).
  - assert (R : 0 <= solveT 0 p1x p2x <= 1) by lra.
    pose proof (start_error 10 p1x p2x p1y p2y startY endY _ R H1 H2 H3) as E.
    unfold X_TOLERANCE in Z2. revert Z2. apply Qabs_case; intros; lra.
  - assert (R : 0 <= solveT 1 p1x p2x <= 1) by lra.
    pose proof (end_error 10 p1x p2x p1y p2y startY endY _ R H1 H2 H3) as E.
    unfold X_TOLERANCE in O2. revert O2. apply Qabs_case; intros; lra.
Qed.

Lemma endpoint_within_x_tolerance_witness :
  Qabs (sampleBezierY 0 (33 # 100) (8 # 10) (66 # 100) (2 # 10) 1 0 - 1) < 1 # 1000 /\
  Qabs (sampleBezierY 1 (33 # 100) (8 # 10) (66 # 100) (2 # 10) 1 0 - 0) < 1 # 1000.
Proof.
  assert (V : valid_control_points (33 # 100) (8 # 10) (66 # 100) (2 # 10)).
  { unfold valid_control_points. repeat split; lra. }
  destruct (endpoint_within_x_tolerance (33 # 100) (8 # 10) (66 # 100) (2 # 10) 1 0 V)
    as [(_ & _ & _ & S) (_ & _ & _ & E)].
  split; [apply S | apply E]; apply Qabs_Qle_condition; split; lra.
Defined.

End CurveFacts.

(* ================================================================== *)
(** * Part IV: the distance field *)
(* ================================================================== *)

Section FieldFacts.
Local Open Scope R_scope.

Lemma distanceTo_nonneg (a b : Vector3) : 0 <= distanceTo a b.
Proof. unfold distanceTo. cbv zeta. apply sqrt_pos. Qed.

Lemma distanceTo_self (a : Vector3) : distanceTo a a = 0.
Proof.
  unfold distanceTo. cbv zeta.
  replace ((vx a - vx a) * (vx a - vx a) + (vy a - vy a) * (vy a - vy a)
           + (vz a - vz a) * (vz a - vz a)) with 0 by ring.
  apply sqrt_0.
Qed.

Lemma App_maxDist_pos : 0 < App_maxDist.
Proof.
  unfold App_maxDist. apply Rmult_lt_0_compat; [|lra].
  apply sqrt_lt_R0. unfold INITIAL_SPACING, GRID_SIZE. simpl INR. nra.
Qed.

Lemma LUT_last_slot : INR LUT_SIZE - 1 = 255.
Proof. unfold LUT_SIZE. rewrite INR_IZR_INZ. simpl Z.of_nat. lra. Qed.

Lemma Int_part_IZR (z : Z) : Int_part (IZR z) = z.
Proof. symmetry. apply Int_part_spec. lra. Qed.

Lemma Int_part_between (x : R) (lo hi : Z) :
  IZR lo <= x <= IZR hi -> (lo <= Int_part x <= hi)%Z.
Proof.
  intros [L H]. destruct (base_Int_part x) as [B1 B2]. split.
  - assert (IZR lo < IZR (Int_part x + 1)) by (rewrite plus_IZR; lra).
    apply lt_IZR in H0. lia.
  - apply le_IZR. lra.
Qed.

(** [lutIndex] of a normalized distance is a slot of the table. *)
Lemma lutIndex_range (t : R) :
  0 <= t <= 1 -> (0 <= lutIndex t <= 255)%Z.
Proof.
  intros H. unfold lutIndex. rewrite LUT_last_slot.
  apply Int_part_between. lra.
Qed.

Lemma lutIndex_one : lutIndex 1 = 255%Z.
Proof.
  unfold lutIndex. rewrite LUT_last_slot, Rmult_1_l. apply Int_part_IZR.
Qed.

Lemma lutIndex_zero : lutIndex 0 = 0%Z.
Proof. unfold lutIndex. rewrite Rmult_0_l. apply Int_part_IZR. Qed.

(** The running minimum is the minimum of what has been visited. *)
Lemma takeNearer_min (prev : list R) (d : R) (dist : Dist) :
  isMinimumOf prev dist -> isMinimumOf (prev ++ [d]) (takeNearer d dist).
Proof.
  destruct dist as [|m]; cbn.
  - intros ->. cbn. split; [now left|]. intros x [<-|[]]. lra.
  - intros [Hin Hmin]. destruct (Rlt_dec d m) as [L|L]; cbn; split.
    + apply in_or_app. right. now left.
    + intros x Hx. apply in_app_or in Hx. destruct Hx as [Hx|[<-|[]]].
      * specialize (Hmin x Hx). lra.
      * lra.
    + apply in_or_app. now left.
    + intros x Hx. apply in_app_or in Hx. destruct Hx as [Hx|[<-|[]]].
      * now apply Hmin.
      * lra.
Qed.

Lemma centersLoop_min (pos : Vector3) (weights : list R) (focal : list Vector3) :
  forall (c : nat) (dist : Dist) (prev : list R),
    isMinimumOf prev dist ->
    isMinimumOf (prev ++ adjustedFrom c pos focal weights)
                (centersLoop pos weights c focal dist).
Proof.
  induction focal as [|f rest IH]; intros c dist prev H.
  - unfold adjustedFrom. cbn. now rewrite app_nil_r.
  - unfold adjustedFrom in *. cbn [length seq combine filter fst snd centersLoop].
    destruct (Rlt_dec (weightAt weights c) (1 / 1000)) as [W|W].
    + apply IH. exact H.
    + cbn [map fst snd].
      replace (prev ++ distanceTo pos f / weightAt weights c
                 :: map (fun cf => distanceTo pos (snd cf) / weightAt weights (fst cf))
                      (filter (fun cf => if Rlt_dec (weightAt weights (fst cf)) (1 / 1000)
                                         then false else true)
                              (combine (seq (S c) (length rest)) rest)))
        with ((prev ++ [distanceTo pos f / weightAt weights c])
              ++ map (fun cf => distanceTo pos (snd cf) / weightAt weights (fst cf))
                     (filter (fun cf => if Rlt_dec (weightAt weights (fst cf)) (1 / 1000)
                                        then false else true)
                             (combine (seq (S c) (length rest)) rest)))
        by (now rewrite <- app_assoc).
      apply IH. now apply takeNearer_min.
Qed.

Lemma effectiveDistance_min (pos : Vector3) (focal : list Vector3) (weights : list R) :
  isMinimumOf (adjustedDistances pos (firstn MAX_ENGINE_CENTERS focal) weights)
              (effectiveDistance pos focal weights).
Proof.
  unfold adjustedDistances, effectiveDistance.
  apply (centersLoop_min pos weights _ 0%nat Infinity []). reflexivity.
Qed.

Lemma adjustedFrom_nonneg (pos : Vector3) (weights : list R) (focal : list Vector3) :
  forall c x, In x (adjustedFrom c pos focal weights) -> 0 <= x.
Proof.
  intros c x H. unfold adjustedFrom in H. apply in_map_iff in H.
  destruct H as ([i f] & <- & H). apply filter_In in H. destruct H as [_ H].
  cbn [fst snd] in *. destruct (Rlt_dec _ _) as [W|W]; [discriminate|].
  apply Rmult_le_pos; [apply distanceTo_nonneg|].
  apply Rlt_le, Rinv_0_lt_compat. lra.
Qed.

Lemma normalizedDistance_range (pos : Vector3) (focal : list Vector3)
  (weights : list R) (maxDist : R) :
  0 < maxDist ->
  0 <= normalizedDistance (effectiveDistance pos focal weights) maxDist <= 1.
Proof.
  intros Hm. pose proof (effectiveDistance_min pos focal weights) as M.
  destruct (effectiveDistance pos focal weights) as [|d]; cbn; [lra|].
  destruct M as [Hin _]. apply adjustedFrom_nonneg in Hin.
  assert (0 <= d / maxDist).
  { apply Rmult_le_pos; [exact Hin|]. apply Rlt_le, Rinv_0_lt_compat, Hm. }
  unfold Rmin. destruct (Rle_dec 1 (d / maxDist)); lra.
Qed.

(** No qualifying center: the loop leaves [dist] at [Infinity]. *)
Lemma centersLoop_no_center (pos : Vector3) (weights : list R) (focal : list Vector3) :
  forall (c : nat) (dist : Dist),
    (forall k, (k < length focal)%nat -> weightAt weights (c + k) < 1 / 1000) ->
    centersLoop pos weights c focal dist = dist.
Proof.
  induction focal as [|f rest IH]; intros c dist H; cbn [centersLoop]; [reflexivity|].
  destruct (Rlt_dec (weightAt weights c) (1 / 1000)) as [W|W].
  - apply IH. intros k Hk. replace (S c + k)%nat with (c + S k)%nat by lia.
    apply H. cbn. lia.
  - exfalso. apply W. replace c with (c + 0)%nat by lia. apply H. cbn. lia.
Qed.

Lemma orElse_falsy (entry : option R) (fallback : R) :
  entry = None \/ entry = Some 0 -> orElse entry fallback = fallback.
Proof.
  intros [->| ->]; cbn; [reflexivity|].
  destruct (Req_dec_T 0 0) as [_|N]; [reflexivity|]. now elim N.
Qed.

Lemma orElse_truthy (v fallback : R) : v <> 0 -> orElse (Some v) fallback = v.
Proof. intros H. cbn. destruct (Req_dec_T v 0) as [E|_]; [now elim H|reflexivity]. Qed.

Lemma lutAt_outside (l : list R) (idx : Z) :
  (idx < 0 \/ Z.of_nat (length l) <= idx)%Z -> lutAt l idx = None.
Proof.
  intros H. unfold lutAt. destruct (idx <? 0)%Z eqn:E; [reflexivity|].
  apply Z.ltb_ge in E. apply nth_error_None. lia.
Qed.

Lemma lutAt_inside (l : list R) (idx : Z) :
  (0 <= idx < Z.of_nat (length l))%Z -> exists v, lutAt l idx = Some v.
Proof.
  intros H. unfold lutAt. destruct (idx <? 0)%Z eqn:E; [apply Z.ltb_lt in E; lia|].
  destruct (nth_error l (Z.to_nat idx)) eqn:N; [now exists r|].
  apply nth_error_None in N. lia.
Qed.

Lemma frame_instances (cfg : SceneConfig) (positions focal : list Vector3)
  (weights : list R) :
  focal <> [] ->
  InstancedSpheres_useFrame cfg positions focal weights
  = Some (map (fun pos => mkInstance (finalScale cfg focal weights pos)
                                     (sphereColor cfg focal weights pos))
              positions).
Proof. destruct focal; [intros H; now elim H | reflexivity]. Qed.


(** The candidates of the minimum, one by one. *)
Lemma adjustedFrom_member (pos : Vector3) (weights : list R) (focal : list Vector3) :
  forall c k f,
    nth_error focal k = Some f -> ~ weightAt weights (c + k) < 1 / 1000 ->
    In (distanceTo pos f / weightAt weights (c + k))
       (adjustedFrom c pos focal weights).
Proof.
  induction focal as [|f0 rest IH]; intros c k f Hk Hw.
  - destruct k; discriminate.
  - unfold adjustedFrom in *. cbn [length seq combine filter fst snd].
    destruct k as [|k].
    + cbn in Hk. inversion Hk; subst f0. rewrite Nat.add_0_r in *.
      destruct (Rlt_dec (weightAt weights c) (1 / 1000)) as [F|_]; [contradiction|].
      cbn [map fst snd]. now left.
    + cbn in Hk. replace (c + S k)%nat with (S c + k)%nat in * by lia.
      specialize (IH (S c) k f Hk Hw).
      destruct (Rlt_dec (weightAt weights c) (1 / 1000)); [exact IH|].
      cbn [map]. right. exact IH.
Qed.

Lemma adjustedFrom_In (pos : Vector3) (weights : list R) (focal : list Vector3) :
  forall c x,
    In x (adjustedFrom c pos focal weights) ->
    exists k f,
      nth_error focal k = Some f /\ ~ weightAt weights (c + k) < 1 / 1000 /\
      x = distanceTo pos f / weightAt weights (c + k).
Proof.
  induction focal as [|f0 rest IH]; intros c x H.
  - destruct H.
  - unfold adjustedFrom in *. cbn [length seq combine filter fst snd] in H.
    destruct (Rlt_dec (weightAt weights c) (1 / 1000)) as [W|W].
    + destruct (IH (S c) x H) as (k & f & Hk & Hw & Hx).
      exists (S k), f. replace (c + S k)%nat with (S c + k)%nat by lia. auto.
    + cbn [map fst snd] in H. destruct H as [H|H].
      * exists 0%nat, f0. rewrite Nat.add_0_r. auto.
      * destruct (IH (S c) x H) as (k & f & Hk & Hw & Hx).
        exists (S k), f. replace (c + S k)%nat with (S c + k)%nat by lia. auto.
Qed.

Lemma weightAt_nth_error (weights : list R) (c : nat) :
  weightAt weights c = match nth_error weights c with Some w => w | None => 1 end.
Proof.
  unfold weightAt. revert c. induction weights as [|w ws IH]; intros [|c]; cbn; auto.
Qed.

Lemma sum_squares_nonneg (x y z : R) : 0 <= x * x + y * y + z * z.
Proof.
  pose proof (Rle_0_sqr x). pose proof (Rle_0_sqr y). pose proof (Rle_0_sqr z).
  unfold Rsqr in *. lra.
Qed.

Lemma distanceTo_square (a b : Vector3) :
  distanceTo a b * distanceTo a b
  = (vx a - vx b) * (vx a - vx b) + (vy a - vy b) * (vy a - vy b)
    + (vz a - vz b) * (vz a - vz b).
Proof. unfold distanceTo. cbv zeta. apply sqrt_sqrt, sum_squares_nonneg. Qed.

Lemma distanceTo_unique (a b : Vector3) (d : R) :
  0 <= d ->
  d * d = (vx a - vx b) * (vx a - vx b) + (vy a - vy b) * (vy a - vy b)
          + (vz a - vz b) * (vz a - vz b) ->
  distanceTo a b = d.
Proof.
  intros H E. unfold distanceTo. cbv zeta.
  apply sqrt_lem_1; [apply sum_squares_nonneg | exact H | exact E].
Qed.

(** The candidates in the words of the specification: one for each of the
    first [MAX_ENGINE_CENTERS] centers whose weight ([1] when none is
    stored) is at least 0.001, the Euclidean distance to it divided by that
    weight. *)
Lemma adjustedDistances_spec (pos : Vector3) (focal : list Vector3)
  (weights : list R) (x : R) :
  In x (adjustedDistances pos (firstn MAX_ENGINE_CENTERS focal) weights) <->
  exists c f w d,
    (c < MAX_ENGINE_CENTERS)%nat /\ nth_error focal c = Some f /\
    w = match nth_error weights c with Some w0 => w0 | None => 1 end /\
    1 / 1000 <= w /\
    0 <= d /\
    d * d = (vx pos - vx f) * (vx pos - vx f) + (vy pos - vy f) * (vy pos - vy f)
            + (vz pos - vz f) * (vz pos - vz f) /\
    x = d / w.
Proof.
  unfold adjustedDistances. split.
  - intros H. apply adjustedFrom_In in H. destruct H as (k & f & Hk & Hw & Hx).
    cbn [Nat.add] in *.
    assert (Hc : (k < MAX_ENGINE_CENTERS)%nat).
    { destruct (Nat.lt_ge_cases k MAX_ENGINE_CENTERS) as [L|G]; [exact L|].
      rewrite nth_error_firstn in Hk. apply Nat.ltb_ge in G. rewrite G in Hk.
      discriminate. }
    exists k, f, (weightAt weights k), (distanceTo pos f).
    split; [exact Hc|]. split.
    { rewrite nth_error_firstn in Hk. apply Nat.ltb_lt in Hc. now rewrite Hc in Hk. }
    split; [apply weightAt_nth_error|]. split; [lra|].
    split; [apply distanceTo_nonneg|]. split; [apply distanceTo_square|exact Hx].
  - intros (c & f & w & d & Hc & Hf & Hw & Hq & Hd & Hs & ->).
    rewrite <- weightAt_nth_error in Hw. subst w.
    rewrite <- (distanceTo_unique pos f d Hd Hs).
    apply (adjustedFrom_member pos weights _ 0%nat c f); [|cbn [Nat.add]; lra].
    rewrite nth_error_firstn. apply Nat.ltb_lt in Hc. now rewrite Hc.
Qed.

Lemma App_maxDist_bounds : 13717 / 1000 < App_maxDist < 13728 / 1000.
Proof.
  unfold App_maxDist, INITIAL_SPACING, GRID_SIZE. simpl INR.
  set (x := 3 * ((1 + 1 + 1 + 1 + 1 + 1 + 1 + 1 + 1 + 1 + 1 + 1) * (12 / 10) / 2) ^ 2).
  assert (X : x = 15552 / 100) by (unfold x; field).
  assert (P : 0 <= x) by lra.
  assert (Sq : sqrt x * sqrt x = 15552 / 100) by (rewrite sqrt_sqrt; lra).
  pose proof (sqrt_pos x) as N.
  generalize dependent (sqrt x). intros s Sq N.
  split; nra.
Qed.

Lemma rampEntry_at (i : nat) :
  (i < LUT_SIZE)%nat -> nth_error (lut rampConfig) i = Some (rampEntry i).
Proof.
  intros H. cbn [lut rampConfig]. apply map_nth_error.
  rewrite nth_error_nth' with (d := 0%nat) by (now rewrite length_seq).
  now rewrite seq_nth.
Qed.

(** ** Claims about the distance field *)

(** C1.  In every frame that has a focal point, every grid element gets an
    instance.  The candidates are, for each of the centers the loop visits
    whose weight is at least 0.001, the Euclidean distance
    [sqrt(dx^2 + dy^2 + dz^2)] from the element to the center divided by the
    weight; the effective distance is their minimum ([Infinity] when there is
    none); [t] is [min(1, effective / maxDist)]; the index is
    [floor(t * (LUT_SIZE - 1))], that is the integer [idx] with
    [idx <= t * (LUT_SIZE - 1) < idx + 1], a slot of the table; and the scale
    is the entry of the table at that index (when the entry is zero, the
    fallback [minScale]). *)
Theorem distance_field_scale (cfg : SceneConfig) (positions focal : list Vector3)
  (weights : list R) :
  0 < maxDist cfg -> length (lut cfg) = LUT_SIZE -> focal <> [] ->
  exists outs,
    InstancedSpheres_useFrame cfg positions focal weights = Some outs /\
    length outs = length positions /\
    forall i pos, nth_error positions i = Some pos ->
      let candidates :=
        adjustedDistances pos (firstn MAX_ENGINE_CENTERS focal) weights in
      let e := effectiveDistance pos focal weights in
      let t := sphereT cfg focal weights pos in
      let idx := lutIndex t in
      (forall x,
         In x candidates <->
         exists c f w d,
           (c < MAX_ENGINE_CENTERS)%nat /\ nth_error focal c = Some f /\
           w = match nth_error weights c with Some w0 => w0 | None => 1 end /\
           1 / 1000 <= w /\
           0 <= d /\
           d * d = (vx pos - vx f) * (vx pos - vx f)
                   + (vy pos - vy f) * (vy pos - vy f)
                   + (vz pos - vz f) * (vz pos - vz f) /\
           x = d / w) /\
      match e with
      | Infinity => candidates = []
      | Finite d => In d candidates /\ forall x, In x candidates -> d <= x
      end /\
      t = match e with
          | Infinity => 1
          | Finite d => Rmin 1 (d / maxDist cfg)
          end /\
      0 <= t <= 1 /\
      IZR idx <= t * (INR LUT_SIZE - 1) < IZR idx + 1 /\
      (0 <= idx < Z.of_nat LUT_SIZE)%Z /\
      exists inst v,
        nth_error outs i = Some inst /\
        nth_error (lut cfg) (Z.to_nat idx) = Some v /\
        (v <> 0 -> iScale inst = v) /\
        (v = 0 -> iScale inst = minScale cfg).
Proof.
  intros Hm Hl Hf. eexists. split; [now apply frame_instances|].
  split; [now rewrite length_map|].
  intros i pos Hi candidates e t idx.
  assert (Ht : 0 <= t <= 1) by (now apply normalizedDistance_range).
  pose proof (lutIndex_range t Ht) as Hidx. fold idx in Hidx.
  split; [intros x; apply adjustedDistances_spec|].
  split; [exact (effectiveDistance_min pos focal weights)|].
  split; [reflexivity|]. split; [exact Ht|].
  split.
  { unfold idx, lutIndex. destruct (base_Int_part (t * (INR LUT_SIZE - 1))) as [B1 B2].
    lra. }
  split; [unfold LUT_SIZE; lia|].
  destruct (lutAt_inside (lut cfg) idx) as [v Hv].
  { rewrite Hl. unfold LUT_SIZE. lia. }
  exists (mkInstance (finalScale cfg focal weights pos)
                     (sphereColor cfg focal weights pos)), v.
  split; [exact (map_nth_error _ _ _ Hi)|].
  assert (Hn : nth_error (lut cfg) (Z.to_nat idx) = Some v).
  { unfold lutAt in Hv. destruct (idx <? 0)%Z eqn:N; [discriminate|exact Hv]. }
  split; [exact Hn|].
  cbn [iScale]. unfold finalScale. fold t. fold idx. rewrite Hv.
  split; [apply orElse_truthy|].
  intros ->. apply orElse_falsy. now right.
Qed.

Lemma distance_field_scale_witness :
  exists outs inst,
    InstancedSpheres_useFrame rampConfig [mkVector3 3 4 0] [mkVector3 0 0 0] [1]
    = Some outs /\
    nth_error outs 0 = Some inst /\
    iScale inst = 3 / 100 + 197 / 100 * (92 / 255).
Proof.
  destruct (distance_field_scale rampConfig [mkVector3 3 4 0]
              [mkVector3 0 0 0] [1]) as (outs & H1 & _ & H).
  - exact App_maxDist_pos.
  - cbn [lut rampConfig]. now rewrite length_map, length_seq.
  - discriminate.
  - specialize (H 0%nat (mkVector3 3 4 0) eq_refl). cbv zeta in H.
    destruct H as (C & M & T & _ & F & R & inst & v & N & V & S & _).
    exists outs, inst. split; [exact H1|]. split; [exact N|].
    pose proof App_maxDist_bounds as B.
    assert (I5 : In 5 (adjustedDistances (mkVector3 3 4 0)
                         (firstn MAX_ENGINE_CENTERS [mkVector3 0 0 0]) [1])).
    { apply C. exists 0%nat, (mkVector3 0 0 0), 1, 5.
      unfold MAX_ENGINE_CENTERS. cbn [nth_error vx vy vz].
      repeat split; try lia; try lra. }
    assert (E : effectiveDistance (mkVector3 3 4 0) [mkVector3 0 0 0] [1] = Finite 5).
    { destruct (effectiveDistance (mkVector3 3 4 0) [mkVector3 0 0 0] [1]) as [|d].
      - rewrite M in I5. destruct I5.
      - destruct M as [Hin Hmin]. f_equal.
        apply C in Hin. destruct Hin as (c & f & w & d' & Hc & Hf & Hw & _ & Hd & Hs & ->).
        destruct c as [|c]; [|destruct c; discriminate].
        cbn [nth_error] in Hf, Hw. inversion Hf; subst f. subst w.
        cbn [vx vy vz] in Hs.
        assert (d' = 5) by nra. subst d'. lra. }
    rewrite E in T. cbn [maxDist rampConfig] in T.
    assert (T' : sphereT rampConfig [mkVector3 0 0 0] [1] (mkVector3 3 4 0)
                 = 5 / App_maxDist).
    { rewrite T. unfold Rmin.
      destruct (Rle_dec 1 (5 / App_maxDist)) as [L|L]; [|reflexivity].
      exfalso. apply (Rmult_le_compat_r App_maxDist) in L; [|lra].
      unfold Rdiv in L. rewrite Rmult_assoc, Rinv_l in L; lra. }
    rewrite T' in F, R, V. rewrite LUT_last_slot in F.
    set (idx := lutIndex (5 / App_maxDist)) in *.
    assert (Q : 92 < 5 / App_maxDist * 255 < 93).
    { assert (Y : 5 / App_maxDist * App_maxDist = 5) by (field; lra).
      generalize dependent (5 / App_maxDist). intros y. intros. nra. }
    assert (I : idx = 92%Z).
    { assert (IZR idx < IZR 93) by lra. assert (IZR 91 < IZR idx) by lra.
      apply lt_IZR in H, H0. lia. }
    rewrite I in V. change (Z.to_nat 92) with 92%nat in V.
    rewrite rampEntry_at in V by (unfold LUT_SIZE; lia).
    assert (W : rampEntry 92 = 3 / 100 + 197 / 100 * (92 / 255)).
    { unfold rampEntry. rewrite INR_IZR_INZ. change (Z.of_nat 92) with 92%Z.
      reflexivity. }
    inversion V; subst v. rewrite S; rewrite W; lra.
Defined.




(** C3.  When none of the centers the loop visits has a weight of at least
    0.001, every grid element of a frame gets the effective distance
    [Infinity], [t = 1], the index [LUT_SIZE - 1] and the far tint; its scale
    is the last entry of the table when that entry is not zero, and
    [minScale] when it is zero or the table is too short to have it. *)
Theorem no_active_center (cfg : SceneConfig) (positions focal : list Vector3)
  (weights : list R) :
  0 < maxDist cfg -> focal <> [] ->
  (forall c, (c < Nat.min (length focal) MAX_ENGINE_CENTERS)%nat ->
     weightAt weights c < 1 / 1000) ->
  exists outs,
    InstancedSpheres_useFrame cfg positions focal weights = Some outs /\
    length outs = length positions /\
    forall i pos, nth_error positions i = Some pos ->
      effectiveDistance pos focal weights = Infinity /\
      sphereT cfg focal weights pos = 1 /\
      lutIndex (sphereT cfg focal weights pos) = (Z.of_nat LUT_SIZE - 1)%Z /\
      nth_error outs i
      = Some (mkInstance
                (orElse (nth_error (lut cfg) (LUT_SIZE - 1)) (minScale cfg))
                (tintColor2 cfg)) /\
      exists inst,
        nth_error outs i = Some inst /\
        iColor inst = tintColor2 cfg /\
        (forall v, nth_error (lut cfg) (LUT_SIZE - 1) = Some v -> v <> 0 ->
           iScale inst = v) /\
        (nth_error (lut cfg) (LUT_SIZE - 1) = Some 0 -> iScale inst = minScale cfg) /\
        (nth_error (lut cfg) (LUT_SIZE - 1) = None -> iScale inst = minScale cfg).
Proof.
  intros _ Hf Hw. eexists. split; [now apply frame_instances|].
  split; [now rewrite length_map|].
  intros i pos Hi.
  assert (E : effectiveDistance pos focal weights = Infinity).
  { unfold effectiveDistance. apply centersLoop_no_center.
    intros k Hk. rewrite length_firstn in Hk. cbn [Nat.add]. apply Hw. lia. }
  assert (T : sphereT cfg focal weights pos = 1) by (unfold sphereT; now rewrite E).
  assert (N : nth_error
                (map (fun pos => mkInstance (finalScale cfg focal weights pos)
                                            (sphereColor cfg focal weights pos))
                     positions) i
              = Some (mkInstance
                        (orElse (nth_error (lut cfg) (LUT_SIZE - 1)) (minScale cfg))
                        (tintColor2 cfg))).
  { rewrite (map_nth_error _ _ _ Hi). unfold finalScale, sphereColor.
    rewrite T, lutIndex_one. unfold Color_lerp. f_equal. f_equal.
    destruct (tintColor cfg), (tintColor2 cfg). cbn [cr cg cb]. f_equal; ring. }
  split; [exact E|]. split; [exact T|].
  split; [rewrite T, lutIndex_one; reflexivity|].
  split; [exact N|].
  eexists. split; [exact N|]. cbn [iScale iColor]. split; [reflexivity|].
  split; [|split].
  - intros v -> Hv. now apply orElse_truthy.
  - intros ->. apply orElse_falsy. now right.
  - intros ->. reflexivity.
Qed.

Lemma no_active_center_witness :
  exists outs inst,
    InstancedSpheres_useFrame rampConfig [mkVector3 1 2 3] [mkVector3 0 0 0] [0]
    = Some outs /\
    nth_error outs 0 = Some inst /\
    iScale inst = 2 /\ iColor inst = mkColor 0 0 1 /\
    minScale rampConfig = 3 / 100.
Proof.
  destruct (no_active_center rampConfig [mkVector3 1 2 3] [mkVector3 0 0 0] [0])
    as (outs & H1 & _ & H).
  - exact App_maxDist_pos.
  - discriminate.
  - intros c Hc. cbn in Hc. assert (c = 0%nat) by lia. subst c. cbn. lra.
  - destruct (H 0%nat (mkVector3 1 2 3) eq_refl)
      as (_ & _ & _ & _ & inst & N & C & S & _).
    exists outs, inst. split; [exact H1|]. split; [exact N|].
    assert (W : rampEntry 255 = 2).
    { unfold rampEntry. rewrite INR_IZR_INZ. change (Z.of_nat 255) with 255%Z.
      lra. }
    split; [|split; [exact C|reflexivity]].
    rewrite <- W. apply S.
    + change (LUT_SIZE - 1)%nat with 255%nat.
      apply rampEntry_at. unfold LUT_SIZE. lia.
    + rewrite W. lra.
Defined.

(** The fallback in the first file of part_000 is the literal [0.1]: that
    copy's scene has no [minScale].  On a table whose slot 0 is zero a sphere
    at the focal point gets the scale 0.1 there, and [minScale] in the other
    copies. *)
Lemma SingleFocus_fallback_is_literal :
  SingleFocus.Sphere_useFrame blankConfig (mkVector3 0 0 0) (mkVector3 0 0 0) = 1 / 10 /\
  finalScale blankConfig [mkVector3 0 0 0] [1] (mkVector3 0 0 0) = minScale blankConfig.
Proof.
  assert (T : Rmin 1 (distanceTo (mkVector3 0 0 0) (mkVector3 0 0 0) / App_maxDist) = 0).
  { rewrite distanceTo_self. unfold Rdiv. rewrite Rmult_0_l.
    unfold Rmin. destruct (Rle_dec 1 0); lra. }
  split.
  - unfold SingleFocus.Sphere_useFrame. cbv zeta. cbn [maxDist lut blankConfig].
    rewrite T, lutIndex_zero. apply orElse_falsy. right. reflexivity.
  - unfold finalScale. apply orElse_falsy. right.
    unfold sphereT, effectiveDistance. cbn [firstn MAX_ENGINE_CENTERS centersLoop weightAt nth].
    destruct (Rlt_dec 1 (1 / 1000)) as [W|W]; [lra|].
    cbn [takeNearer normalizedDistance maxDist lut blankConfig].
    replace (distanceTo (mkVector3 0 0 0) (mkVector3 0 0 0) / 1)
      with (distanceTo (mkVector3 0 0 0) (mkVector3 0 0 0)) by (unfold Rdiv; field).
    rewrite T, lutIndex_zero. reflexivity.
Qed.

(** C8.  The scale of an element is [lut[idx] || minScale]: in every frame,
    an index below 0, an index at or beyond the end of the table, and a zero
    entry each give the element the scale [minScale]; any other entry is the
    scale itself.  The same holds for the single-focus [Sphere] of the third
    file of part_000.  Nothing fails: the frame publishes an instance for
    every element. *)
Theorem fallback_is_minScale (cfg : SceneConfig) (positions focal : list Vector3)
  (weights : list R) :
  focal <> [] ->
  exists outs,
    InstancedSpheres_useFrame cfg positions focal weights = Some outs /\
    length outs = length positions /\
    forall i pos, nth_error positions i = Some pos ->
      let idx := lutIndex (sphereT cfg focal weights pos) in
      (exists inst,
         nth_error outs i = Some inst /\
         ((idx < 0)%Z -> iScale inst = minScale cfg) /\
         ((Z.of_nat (length (lut cfg)) <= idx)%Z -> iScale inst = minScale cfg) /\
         ((0 <= idx)%Z -> nth_error (lut cfg) (Z.to_nat idx) = Some 0 ->
          iScale inst = minScale cfg) /\
         (forall v, (0 <= idx)%Z -> nth_error (lut cfg) (Z.to_nat idx) = Some v ->
            v <> 0 -> iScale inst = v)) /\
      forall focalPoint,
        let idx1 := lutIndex (Rmin 1 (distanceTo pos focalPoint / maxDist cfg)) in
        let scale1 := iScale (SingleTint.Sphere_useFrame cfg focalPoint pos) in
        ((idx1 < 0)%Z -> scale1 = minScale cfg) /\
        ((Z.of_nat (length (lut cfg)) <= idx1)%Z -> scale1 = minScale cfg) /\
        ((0 <= idx1)%Z -> nth_error (lut cfg) (Z.to_nat idx1) = Some 0 ->
         scale1 = minScale cfg) /\
        (forall v, (0 <= idx1)%Z -> nth_error (lut cfg) (Z.to_nat idx1) = Some v ->
           v <> 0 -> scale1 = v).
Proof.
  assert (G : forall idx,
            ((idx < 0)%Z -> orElse (lutAt (lut cfg) idx) (minScale cfg) = minScale cfg) /\
            ((Z.of_nat (length (lut cfg)) <= idx)%Z ->
             orElse (lutAt (lut cfg) idx) (minScale cfg) = minScale cfg) /\
            ((0 <= idx)%Z -> nth_error (lut cfg) (Z.to_nat idx) = Some 0 ->
             orElse (lutAt (lut cfg) idx) (minScale cfg) = minScale cfg) /\
            (forall v, (0 <= idx)%Z -> nth_error (lut cfg) (Z.to_nat idx) = Some v ->
               v <> 0 -> orElse (lutAt (lut cfg) idx) (minScale cfg) = v)).
  { intros idx.
    assert (A : (0 <= idx)%Z -> lutAt (lut cfg) idx = nth_error (lut cfg) (Z.to_nat idx)).
    { intros H. unfold lutAt. destruct (idx <? 0)%Z eqn:N; [|reflexivity].
      apply Z.ltb_lt in N. lia. }
    split; [|split; [|split]].
    - intros H. apply orElse_falsy. left. apply lutAt_outside. now left.
    - intros H. apply orElse_falsy. left. apply lutAt_outside. now right.
    - intros H Z0. apply orElse_falsy. right. now rewrite A.
    - intros v H Hv Nz. rewrite A, Hv by exact H. now apply orElse_truthy. }
  intros Hf. eexists. split; [now apply frame_instances|].
  split; [now rewrite length_map|].
  intros i pos Hi idx. split.
  - eexists. split; [exact (map_nth_error _ _ _ Hi)|].
    cbn [iScale]. unfold finalScale. fold idx. apply G.
  - intros focalPoint idx1 scale1. unfold scale1, SingleTint.Sphere_useFrame.
    cbv zeta. cbn [iScale]. fold idx1. apply G.
Qed.

Lemma fallback_is_minScale_witness :
  (exists outs inst,
     InstancedSpheres_useFrame blankConfig [mkVector3 0 0 0] [mkVector3 0 0 0] [1]
     = Some outs /\
     nth_error outs 0 = Some inst /\ iScale inst = 3 / 100) /\
  (exists outs inst,
     InstancedSpheres_useFrame
       (mkSceneConfig App_maxDist (1 / 2) [] (3 / 100) 2 (mkColor 1 0 0) (mkColor 0 0 1))
       [mkVector3 0 0 0] [mkVector3 0 0 0] [1]
     = Some outs /\
     nth_error outs 0 = Some inst /\ iScale inst = 3 / 100).
Proof.
  assert (T : forall cfg, maxDist cfg = App_maxDist ->
            lutIndex (sphereT cfg [mkVector3 0 0 0] [1] (mkVector3 0 0 0)) = 0%Z).
  { intros cfg M. unfold sphereT, effectiveDistance.
    cbn [firstn MAX_ENGINE_CENTERS centersLoop weightAt nth].
    destruct (Rlt_dec 1 (1 / 1000)) as [W|W]; [lra|].
    cbn [takeNearer normalizedDistance]. rewrite distanceTo_self, M.
    replace (Rmin 1 (0 / 1 / App_maxDist)) with 0; [apply lutIndex_zero|].
    unfold Rdiv. rewrite !Rmult_0_l. unfold Rmin. destruct (Rle_dec 1 0); lra. }
  split.
  - destruct (fallback_is_minScale blankConfig [mkVector3 0 0 0] [mkVector3 0 0 0] [1])
      as (outs & H1 & _ & H); [discriminate|].
    destruct (H 0%nat (mkVector3 0 0 0) eq_refl) as [(inst & N & _ & _ & Z0 & _) _].
    exists outs, inst. split; [exact H1|]. split; [exact N|].
    rewrite T in Z0 by reflexivity. apply Z0; [lia|reflexivity].
  - destruct (fallback_is_minScale
                (mkSceneConfig App_maxDist (1 / 2) [] (3 / 100) 2
                               (mkColor 1 0 0) (mkColor 0 0 1))
                [mkVector3 0 0 0] [mkVector3 0 0 0] [1])
      as (outs & H1 & _ & H); [discriminate|].
    destruct (H 0%nat (mkVector3 0 0 0) eq_refl) as [(inst & N & _ & O & _) _].
    exists outs, inst. split; [exact H1|]. split; [exact N|].
    rewrite T in O by reflexivity. apply O. cbn. lia.
Defined.

End FieldFacts.

(* ================================================================== *)
(** * Part V: the focal-center animator *)
(* ================================================================== *)

Section AnimatorFacts.
Local Open Scope R_scope.

Lemma exp_nonpos (x : R) : x <= 0 -> 0 < exp x <= 1.
Proof.
  intros H. split; [apply exp_pos|].
  destruct (Rle_lt_or_eq_dec _ _ H) as [L|E].
  - rewrite <- exp_0. apply Rlt_le, exp_increasing, L.
  - rewrite E, exp_0. lra.
Qed.

(** The smoothing factor [1 - Math.exp(-delta * rate)] of a frame. *)
Lemma smoothing_factor (delta rate : R) :
  0 <= delta -> 0 <= rate -> 0 <= 1 - exp (- delta * rate) < 1.
Proof.
  intros Hd Hr. destruct (exp_nonpos (- delta * rate)) as [P L]; [nra|lra].
Qed.

Lemma lerp_between (x y a lo hi : R) :
  0 <= a <= 1 -> lo <= x <= hi -> lo <= y <= hi -> lo <= lerp x y a <= hi.
Proof. intros Ha Hx Hy. unfold lerp. split; nra. Qed.

Lemma smoothWeights_unit (delta : R) (weights : list R) :
  0 <= delta -> unitWeights weights ->
  forall targets, unitWeights targets ->
    unitWeights (smoothWeights delta weights targets).
Proof.
  intros Hd Hw. induction Hw as [|w ws Hw1 Hws IH]; intros targets Ht; cbn.
  - constructor.
  - destruct (smoothing_factor delta 6 Hd ltac:(lra)) as [A0 A1].
    constructor.
    + apply lerp_between; [lra|exact Hw1|].
      destruct Ht as [|t ts Ht1 _]; cbn; [lra|exact Ht1].
    + apply IH. destruct Ht as [|t ts _ Hts]; cbn; [constructor|exact Hts].
Qed.

Lemma smoothWeights_nth (delta : R) (weights : list R) :
  forall targets i w t,
    nth_error weights i = Some w -> nth_error targets i = Some t ->
    nth_error (smoothWeights delta weights targets) i
    = Some (lerp w t (1 - exp (- delta * 6))).
Proof.
  induction weights as [|w0 ws IH]; intros targets i w t Hw Ht.
  - destruct i; discriminate.
  - destruct targets as [|t0 ts]; [destruct i; discriminate|].
    destruct i as [|i]; cbn in *.
    + now inversion Hw; inversion Ht.
    + now apply IH.
Qed.

Lemma smoothWeights_length (delta : R) (weights : list R) :
  forall targets, length (smoothWeights delta weights targets) = length weights.
Proof. induction weights as [|w ws IH]; intros targets; cbn; [|rewrite IH]; reflexivity. Qed.

(** [setCenter] writes slot [i] and nothing else. *)
Lemma setCenter_same (i : nat) (v : Vector3) (focal : list Vector3) :
  (i <= length focal)%nat -> nth_error (setCenter i v focal) i = Some v.
Proof.
  intros H. unfold setCenter. destruct (i <? length focal)%nat eqn:E.
  - apply Nat.ltb_lt in E. rewrite nth_error_app2 by (rewrite length_firstn; lia).
    rewrite length_firstn. replace (i - Nat.min i (length focal))%nat with 0%nat by lia.
    reflexivity.
  - apply Nat.ltb_ge in E. assert (i = length focal) by lia. subst i.
    rewrite nth_error_app2 by lia. now rewrite Nat.sub_diag.
Qed.

Lemma setCenter_other (i j : nat) (v : Vector3) (focal : list Vector3) :
  (i <= length focal)%nat -> j <> i ->
  nth_error (setCenter i v focal) j = nth_error focal j.
Proof.
  intros H N. unfold setCenter. destruct (i <? length focal)%nat eqn:E.
  - apply Nat.ltb_lt in E.
    destruct (Nat.lt_ge_cases j i) as [L|G].
    + rewrite nth_error_app1 by (rewrite length_firstn; lia).
      rewrite nth_error_firstn. apply Nat.ltb_lt in L. now rewrite L.
    + rewrite nth_error_app2 by (rewrite length_firstn; lia).
      rewrite length_firstn. replace (Nat.min i (length focal)) with i by lia.
      destruct (j - i)%nat as [|k] eqn:K; [lia|]. cbn [nth_error].
      rewrite nth_error_skipn. f_equal. lia.
  - apply Nat.ltb_ge in E. assert (i = length focal) by lia. subst i.
    destruct (Nat.lt_ge_cases j (length focal)) as [L|G].
    + now rewrite nth_error_app1.
    + rewrite nth_error_app2 by lia.
      destruct (j - length focal)%nat as [|k] eqn:K; [lia|]. cbn.
      destruct k; cbn; symmetry; apply nth_error_None; lia.
Qed.

Lemma setCenter_length (i : nat) (v : Vector3) (focal : list Vector3) :
  (i <= length focal)%nat ->
  length (setCenter i v focal) = Nat.max (length focal) (S i).
Proof.
  intros H. unfold setCenter. destruct (i <? length focal)%nat eqn:E.
  - apply Nat.ltb_lt in E. rewrite length_app, length_firstn. cbn [length].
    rewrite length_skipn. lia.
  - apply Nat.ltb_ge in E. rewrite length_app. cbn. lia.
Qed.

(** The center loop succeeds when every center it visits has a phase; it
    then holds the Lissajous position in every slot it visited and leaves
    the slots before its start as they were. *)
Lemma moveCenters_spec (phases : list Phase) (t bound randNorm : R) :
  forall (count i : nat) (focal : list Vector3),
    (i <= length focal)%nat -> (i + count <= length phases)%nat ->
    exists focal',
      moveCenters count i phases t bound randNorm focal = Some focal' /\
      (forall j, (i <= j < i + count)%nat ->
         exists ph, nth_error phases j = Some ph /\
                    nth_error focal' j
                    = Some (centerPosition j ph t bound randNorm)) /\
      (forall j, (j < i)%nat -> nth_error focal' j = nth_error focal j) /\
      length focal' = Nat.max (length focal) (i + count).
Proof.
  induction count as [|count IH]; intros i focal Hi Hp; cbn [moveCenters].
  - exists focal. split; [reflexivity|]. split; [intros j Hj; lia|].
    split; [reflexivity|lia].
  - destruct (nth_error phases i) as [ph|] eqn:P;
      [|apply nth_error_None in P; lia].
    destruct (IH (S i) (setCenter i (centerPosition i ph t bound randNorm) focal))
      as (focal' & M & A & B & C).
    + rewrite setCenter_length by exact Hi. lia.
    + lia.
    + exists focal'. split; [exact M|]. split; [|split].
      * intros j Hj. destruct (Nat.eq_dec j i) as [->|N].
        -- exists ph. split; [exact P|]. rewrite B by lia. now apply setCenter_same.
        -- apply A. lia.
      * intros j Hj. rewrite B by lia. apply setCenter_other; [exact Hi|lia].
      * rewrite C, setCenter_length by exact Hi. lia.
Qed.



(** What a frame does to the refs.  Paused: nothing.  Running, with a phase
    for each of the three centers: it succeeds, advances the time, smooths
    the weights and the randomness, leaves targets and phases alone and
    writes the position of every active center. *)
Lemma useFrame_paused (p : Props) (delta : R) (s : AnimatorState) :
  isDynamic p = false -> SceneContent_useFrame p delta s = Some s.
Proof. intros H. unfold SceneContent_useFrame. now rewrite H. Qed.

Lemma useFrame_running (p : Props) (delta : R) (s : AnimatorState) :
  isDynamic p = true -> length (phaseRef s) = MAX_ENGINE_CENTERS ->
  exists focal,
    SceneContent_useFrame p delta s
    = Some (mkAnimatorState
              (timeRef s + delta * speed p)
              (smoothWeights delta (weightRef s) (weightTargetRef s))
              (weightTargetRef s)
              (lerp (smoothRandomnessRef s) (engineRandomness p)
                    (1 - exp (- delta * 3)))
              (phaseRef s) focal) /\
    forall i, (i < Nat.min (engineCenters p) MAX_ENGINE_CENTERS)%nat ->
      exists ph,
        nth_error (phaseRef s) i = Some ph /\
        nth_error focal i
        = Some (centerPosition i ph (timeRef s + delta * speed p)
                  (baseBound * boundScale p)
                  (lerp (smoothRandomnessRef s) (engineRandomness p)
                        (1 - exp (- delta * 3)) / 100)).
Proof.
  intros Hd Hp. unfold SceneContent_useFrame. rewrite Hd. cbn [negb]. cbv zeta.
  destruct (moveCenters_spec (phaseRef s) (timeRef s + delta * speed p)
              (baseBound * boundScale p)
              (lerp (smoothRandomnessRef s) (engineRandomness p)
                    (1 - exp (- delta * 3)) / 100)
              (Nat.min (engineCenters p) MAX_ENGINE_CENTERS) 0 (focalPointsRef s))
    as (focal & M & A & _); [lia|rewrite Hp; cbn; lia|].
  exists focal. rewrite M. split; [reflexivity|].
  intros i Hi. apply A. lia.
Qed.

Lemma useFrame_ready (p : Props) (delta : R) (s : AnimatorState) :
  0 <= delta -> animatorReady s ->
  exists s', SceneContent_useFrame p delta s = Some s' /\ animatorReady s' /\
             weightTargetRef s' = weightTargetRef s /\
             (isDynamic p = true ->
              weightRef s' = smoothWeights delta (weightRef s) (weightTargetRef s)).
Proof.
  intros Hd (Hp & Hw & Ht). destruct (isDynamic p) eqn:D.
  - destruct (useFrame_running p delta s D Hp) as (focal & E & _).
    eexists. split; [exact E|]. cbn. split; [|split; reflexivity].
    split; [exact Hp|]. split; [|exact Ht]. now apply smoothWeights_unit.
  - exists s. split; [now apply useFrame_paused|]. split; [now split|].
    split; [reflexivity|discriminate].
Qed.

Lemma frames_ready (fs : list (Props * R)) :
  forall s, Forall (fun f => 0 <= snd f) fs -> animatorReady s ->
  exists s', frames fs s = Some s' /\ animatorReady s' /\
    weightTargetRef s' = weightTargetRef s /\
    (Forall (fun f => isDynamic (fst f) = true) fs ->
     forall i w, nth_error (weightRef s) i = Some w ->
       nth_error (weightTargetRef s) i = Some 1 ->
       nth_error (weightRef s') i = Some (1 - (1 - w) * exp (- (6 * elapsed fs)))).
Proof.
  induction fs as [|[p delta] fs IH]; intros s Hd Hr.
  - exists s. cbn. split; [reflexivity|]. split; [exact Hr|]. split; [reflexivity|].
    intros _ i w Hw _. rewrite Hw. f_equal.
    replace (- (6 * 0)) with 0 by ring. rewrite exp_0. ring.
  - inversion Hd as [|? ? Hd1 Hd2]; subst. cbn [snd] in Hd1.
    destruct (useFrame_ready p delta s Hd1 Hr) as (s1 & E1 & R1 & T1 & W1).
    destruct (IH s1 Hd2 R1) as (s' & E & R & T & W).
    exists s'. cbn [frames]. rewrite E1. split; [exact E|]. split; [exact R|].
    split; [congruence|].
    intros Hdyn i w Hw Ht. inversion Hdyn as [|? ? D1 D2]; subst. cbn [fst] in D1.
    rewrite (W D2 i (lerp w 1 (1 - exp (- delta * 6)))).
    + f_equal. cbn [elapsed fold_right snd]. fold (elapsed fs).
      replace (- (6 * (delta + elapsed fs)))
        with (- delta * 6 + - (6 * elapsed fs)) by ring.
      rewrite exp_plus. unfold lerp. ring.
    + rewrite (W1 D1). now apply smoothWeights_nth.
    + now rewrite T1.
Qed.

Lemma exp_minus_30 : exp (- (6 * 5)) < 1 / 1000.
Proof.
  replace (6 * 5) with 30 by ring.
  assert (E10 : 11 <= exp 10) by (pose proof (exp_ineq1_le 10); lra).
  assert (E30 : 1000 < exp 30).
  { replace 30 with (10 + (10 + 10)) by ring. rewrite !exp_plus. nra. }
  rewrite exp_Ropp. unfold Rdiv. rewrite Rmult_1_l.
  apply Rinv_lt_contravar; [|exact E30].
  apply Rmult_lt_0_compat; lra.
Qed.

(** ** Claims about the animator *)

(** C5.  From refs whose weights and targets lie in [0,1] (and that hold a
    phase per center), every run of frames with [delta >= 0] succeeds and
    ends with all weights in [0,1].  If moreover all frames of the run are
    running and their [delta]s add up to at least 5, a weight that started
    at 0 with target 1 ends within 1e-3 of 1. *)
Theorem weights_stay_unit_and_converge (s : AnimatorState) (fs : list (Props * R)) :
  animatorReady s -> Forall (fun f => 0 <= snd f) fs ->
  exists s',
    frames fs s = Some s' /\
    unitWeights (weightRef s') /\
    (Forall (fun f => isDynamic (fst f) = true) fs -> 5 <= elapsed fs ->
     forall i, nth_error (weightRef s) i = Some 0 ->
       nth_error (weightTargetRef s) i = Some 1 ->
       exists w, nth_error (weightRef s') i = Some w /\
                 0 <= w <= 1 /\ Rabs (w - 1) < 1 / 1000).
Proof.
  intros Hr Hd. destruct (frames_ready fs s Hd Hr) as (s' & E & (_ & U & _) & _ & W).
  exists s'. split; [exact E|]. split; [exact U|].
  intros Hdyn H5 i Hw Ht. specialize (W Hdyn i 0 Hw Ht).
  eexists. split; [exact W|].
  assert (X : 0 < exp (- (6 * elapsed fs)) < 1 / 1000).
  { split; [apply exp_pos|]. apply Rle_lt_trans with (exp (- (6 * 5))).
    - destruct (Rle_lt_or_eq_dec _ _ H5) as [L|Eq].
      + apply Rlt_le, exp_increasing. lra.
      + rewrite Eq. lra.
    - exact exp_minus_30. }
  split; [lra|]. apply Rabs_def1; lra.
Qed.

Lemma sampleState_ready : animatorReady sampleState.
Proof.
  unfold animatorReady, sampleState. cbn. split; [reflexivity|].
  split; repeat (apply Forall_cons; [lra|]); apply Forall_nil.
Qed.

Lemma weights_stay_unit_and_converge_witness :
  exists s',
    frames [(mkProps true 3 1 0 1, 2); (mkProps true 3 1 0 1, 3)] sampleState
    = Some s' /\
    exists w, nth_error (weightRef s') 0 = Some w /\ Rabs (w - 1) < 1 / 1000.
Proof.
  destruct (weights_stay_unit_and_converge sampleState
              [(mkProps true 3 1 0 1, 2); (mkProps true 3 1 0 1, 3)])
    as (s' & E & _ & C).
  - exact sampleState_ready.
  - repeat (apply Forall_cons; [cbn [snd]; lra|]). apply Forall_nil.
  - exists s'. split; [exact E|].
    destruct (C ltac:(repeat (apply Forall_cons; [reflexivity|]); apply Forall_nil) ltac:(cbn; lra) 0%nat eq_refl eq_refl)
      as (w & Hw & _ & Hc).
    exists w. split; assumption.
Defined.




End AnimatorFacts.

(* ================================================================== *)
(** * Part VI: further properties of the solver and the editors *)
(* ================================================================== *)

Section SolverAccuracy.
Local Open Scope Q_scope.

Lemma Qsquare_nonneg (x : Q) : 0 <= x * x.
Proof.
  destruct (Qlt_le_dec x 0) as [N|P].
  - setoid_replace (x * x) with ((- x) * (- x)) by ring.
    apply Qmult_le_0_compat; lra.
  - apply Qmult_le_0_compat; exact P.
Qed.

(** The slope of X between two parameters: with both control abscissas in
    [0,1] the difference quotient of X lies in [0,3]. *)
Lemma curveX_slope (a b s t : Q) :
  0 <= a <= 1 -> 0 <= b <= 1 -> 0 <= s -> s <= t -> t <= 1 ->
  0 <= curveX a b t - curveX a b s <= 3 * (t - s).
Proof.
  intros Ha Hb Hs Hst Ht.
  set (q := t * t + t * s + s * s).
  set (u := t + s).
  set (g := q + a * (3 * q - 6 * u + 3) + b * (3 * u - 3 * q)).
  assert (E : curveX a b t - curveX a b s == (t - s) * g).
  { unfold curveX, cubicBezierCoord, g, q, u. cbv zeta. ring. }
  assert (TS : 0 <= t * s) by (apply Qmult_le_0_compat; lra).
  assert (TT : 0 <= t * (1 - t)) by (apply Qmult_le_0_compat; lra).
  assert (SS : 0 <= s * (1 - s)) by (apply Qmult_le_0_compat; lra).
  assert (T1 : 0 <= t * (1 - s)) by (apply Qmult_le_0_compat; lra).
  assert (S1 : 0 <= s * (1 - t)) by (apply Qmult_le_0_compat; lra).
  pose proof (Qsquare_nonneg (t - s)) as D2.
  pose proof (Qsquare_nonneg (t + s - 1)) as U2.
  pose proof (Qsquare_nonneg t) as T2.
  pose proof (Qsquare_nonneg s) as S2.
  assert (G00 : 0 <= q <= 3) by (unfold q; split; lra).
  assert (G10 : 0 <= 4 * q - 6 * u + 3 <= 3).
  { unfold q, u. split.
    - setoid_replace (4 * (t * t + t * s + s * s) - 6 * (t + s) + 3)
        with (3 * ((t + s - 1) * (t + s - 1)) + (t - s) * (t - s)) by ring.
      lra.
    - lra. }
  assert (G01 : 0 <= 3 * u - 2 * q <= 3).
  { unfold q, u. split; [lra|].
    assert (0 <= 2 * (t * t + t * s + s * s) - 3 * (t + s) + 3).
    { setoid_replace (2 * (t * t + t * s + s * s) - 3 * (t + s) + 3)
        with ((3 # 2) * ((t + s - 1) * (t + s - 1)) + (1 # 2) * ((t - s) * (t - s))
              + (3 # 2)) by ring.
      lra. }
    lra. }
  assert (G11 : 0 <= q - 3 * u + 3 <= 3).
  { unfold q, u. split; [|lra].
    setoid_replace (t * t + t * s + s * s - 3 * (t + s) + 3)
      with ((1 - t) * (1 - t) + (1 - t) * (1 - s) + (1 - s) * (1 - s)) by ring.
    pose proof (Qsquare_nonneg (1 - t)). pose proof (Qsquare_nonneg (1 - s)).
    assert (0 <= (1 - t) * (1 - s)) by (apply Qmult_le_0_compat; lra).
    lra. }
  assert (W00 : 0 <= (1 - a) * (1 - b)) by (apply Qmult_le_0_compat; lra).
  assert (W10 : 0 <= a * (1 - b)) by (apply Qmult_le_0_compat; lra).
  assert (W01 : 0 <= (1 - a) * b) by (apply Qmult_le_0_compat; lra).
  assert (W11 : 0 <= a * b) by (apply Qmult_le_0_compat; lra).
  assert (B : g == (1 - a) * (1 - b) * q + a * (1 - b) * (4 * q - 6 * u + 3)
                   + (1 - a) * b * (3 * u - 2 * q) + a * b * (q - 3 * u + 3)).
  { unfold g. ring. }
  assert (P : forall w c, 0 <= w -> 0 <= c <= 3 -> 0 <= w * c /\ 0 <= w * (3 - c)).
  { intros w c Hw Hc. split; apply Qmult_le_0_compat; lra. }
  destruct (P _ _ W00 G00), (P _ _ W10 G10), (P _ _ W01 G01), (P _ _ W11 G11).
  assert (G : 0 <= g <= 3).
  { rewrite B. split; [lra|].
    assert (One : (1 - a) * (1 - b) + a * (1 - b) + (1 - a) * b + a * b == 1) by ring.
    nra. }
  rewrite E.
  assert (0 <= (t - s) * g) by (apply Qmult_le_0_compat; lra).
  assert (0 <= (t - s) * (3 - g)) by (apply Qmult_le_0_compat; lra).
  split; lra.
Qed.

Lemma curveX_ends (a b : Q) : curveX a b 0 == 0 /\ curveX a b 1 == 1.
Proof. unfold curveX, cubicBezierCoord. cbv zeta. split; ring. Qed.

Lemma bracketInv_init (a b u : Q) :
  bracketInv a b (clamp01 u) (bisect_init (clamp01 u)).
Proof.
  destruct (curveX_ends a b) as [E0 E1]. pose proof (clamp01_range u) as R.
  unfold bracketInv, bisect_init. cbn [low high bt bi broke halfPow].
  rewrite E0, E1. repeat split; try lra. intros F. inversion F.
Qed.

Lemma bracketInv_body (a b tx : Q) (st : Bisect) :
  loop_done st = false -> bracketInv a b tx st ->
  bracketInv a b tx (loop_body tx a b st).
Proof.
  intros D (L0 & LH & H1 & (XL & XH) & I).
  unfold loop_done in D. apply orb_false_elim in D. destruct D as [Br _].
  rewrite Br in I. destruct I as [W _].
  pose proof (half_between _ _ LH) as M.
  unfold loop_body. set (mid := (low st + high st) / 2) in *.
  fold (curveX a b mid).
  destruct (Qlt_le_dec _ _) as [A|A]; [|destruct (Qlt_le_dec _ _) as [C|C]];
    unfold bracketInv; cbn [low high bt broke bi halfPow].
  - repeat split; try lra. exact A.
  - repeat split; try lra.
    + unfold mid. rewrite half_eq. rewrite half_eq. lra.
    + intros _. now left.
  - repeat split; try lra.
    + unfold mid. rewrite half_eq. rewrite half_eq. lra.
    + intros _. now right.
Qed.

Lemma bracketInv_bisect (n : nat) (a b tx : Q) (st : Bisect) :
  bracketInv a b tx st -> bracketInv a b tx (bisect n tx a b st).
Proof.
  revert st. induction n as [|n IH]; intros st H; [exact H|].
  rewrite bisect_S. destruct (loop_done st) eqn:D; [exact H|].
  apply IH. now apply bracketInv_body.
Qed.

Lemma bracketInv_final (a b tx : Q) (r : Bisect) :
  0 <= a <= 1 -> 0 <= b <= 1 ->
  bracketInv a b tx r -> loop_done r = true -> (bi r <= BISECT_BUDGET)%nat ->
  Qabs (curveX a b (bt r) - tx) < X_TOLERANCE.
Proof.
  intros Ha Hb (L0 & LH & H1 & (XL & XH) & I) D C. unfold loop_done in D.
  destruct (broke r); [exact I|].
  rewrite orb_false_l in D. apply Nat.leb_le in D.
  assert (E : bi r = BISECT_BUDGET) by lia. rewrite E in I.
  destruct I as [I1 I2]. specialize (I2 ltac:(unfold BISECT_BUDGET; lia)).
  pose proof halfPow_budget as HB.
  pose proof (curveX_slope a b (low r) (high r) Ha Hb L0 LH H1) as S.
  unfold X_TOLERANCE in *.
  destruct I2 as [-> | ->]; apply Qabs_case; intros; lra.
Qed.

(** X1.  For control abscissas in [0,1] and every query, the parameter the
    solver ends with lies in [0,1] and its X is within 1e-4 of the clamped
    query: 24 halvings always suffice. *)
Theorem solver_hits_target (u p1x p1y p2x p2y startY endY : Q) :
  0 <= p1x <= 1 -> 0 <= p2x <= 1 ->
  0 <= solveT u p1x p2x <= 1 /\
  Qabs (curveX p1x p2x (solveT u p1x p2x) - clamp01 u) < X_TOLERANCE /\
  sampleBezierY u p1x p1y p2x p2y startY endY
  = curveY p1y p2y startY endY (solveT u p1x p2x).
Proof.
  intros Ha Hb. split; [apply solveT_range|]. split; [|reflexivity].
  unfold solveT, sampleLoop.
  exact (bracketInv_final p1x p2x (clamp01 u) _ Ha Hb
           (bracketInv_bisect BISECT_BUDGET p1x p2x (clamp01 u) _
              (bracketInv_init p1x p2x u))
           (bisect_reaches_done BISECT_BUDGET (clamp01 u) p1x p2x _
              (init_budget (clamp01 u)))
           (bisect_count BISECT_BUDGET (clamp01 u) p1x p2x _
              (init_count (clamp01 u)))).
Qed.

Lemma solver_hits_target_witness :
  Qabs (curveX (33 # 100) (66 # 100) (solveT (1 # 2) (33 # 100) (66 # 100))
        - clamp01 (1 # 2)) < X_TOLERANCE.
Proof.
  refine (proj1 (proj2 (solver_hits_target (1 # 2) (33 # 100) (8 # 10) (66 # 100)
                          (2 # 10) 1 0 _ _))); lra.
Defined.

End SolverAccuracy.

Section EditorFacts.
Local Open Scope Q_scope.

Lemma clamp01_below (u : Q) : u <= 0 -> clamp01 u = 0.
Proof.
  intros H. unfold clamp01, Qmax, Qmin, GenericMinMax.gmax, GenericMinMax.gmin.
  destruct (Qcompare 0 u) eqn:C.
  - reflexivity.
  - apply Qlt_alt in C. lra.
  - reflexivity.
Qed.

Lemma clamp01_above (u : Q) : 1 <= u -> clamp01 u = 1.
Proof.
  intros H. unfold clamp01, Qmax, Qmin, GenericMinMax.gmax, GenericMinMax.gmin.
  destruct (Qcompare 0 u) eqn:C.
  - apply Qeq_alt in C. lra.
  - destruct (Qcompare 1 u) eqn:D; try reflexivity. apply Qgt_alt in D. lra.
  - apply Qgt_alt in C. lra.
Qed.

(** X2.  A query outside [0,1] is answered as the nearest end of the range:
    at or below 0 like the query 0, at or above 1 like the query 1. *)
Theorem sampleBezierY_clamps_query (u p1x p1y p2x p2y startY endY : Q) :
  (u <= 0 ->
   sampleBezierY u p1x p1y p2x p2y startY endY
   = sampleBezierY 0 p1x p1y p2x p2y startY endY) /\
  (1 <= u ->
   sampleBezierY u p1x p1y p2x p2y startY endY
   = sampleBezierY 1 p1x p1y p2x p2y startY endY).
Proof.
  unfold sampleBezierY, solveT, sampleLoop. split; intros H.
  - now rewrite (clamp01_below u H), clamp01_0.
  - now rewrite (clamp01_above u H), clamp01_1.
Qed.

Lemma sampleBezierY_clamps_query_witness :
  sampleBezierY (- 5) (33 # 100) (8 # 10) (66 # 100) (2 # 10) 1 0
  = sampleBezierY 0 (33 # 100) (8 # 10) (66 # 100) (2 # 10) 1 0 /\
  sampleBezierY 7 (33 # 100) (8 # 10) (66 # 100) (2 # 10) 1 0
  = sampleBezierY 1 (33 # 100) (8 # 10) (66 # 100) (2 # 10) 1 0.
Proof.
  split.
  - apply (proj1 (sampleBezierY_clamps_query (- 5) (33 # 100) (8 # 10) (66 # 100)
                    (2 # 10) 1 0)). lra.
  - apply (proj2 (sampleBezierY_clamps_query 7 (33 # 100) (8 # 10) (66 # 100)
                    (2 # 10) 1 0)). lra.
Defined.

Lemma defaultControlPoints_inv : editorInv defaultControlPoints.
Proof. unfold editorInv, defaultControlPoints. cbn. repeat split; lra. Qed.

Lemma handlePointerMove_inv (h : option nat) (fx fy : Q) (c : ControlPoints) :
  editorInv c -> editorInv (handlePointerMove h fx fy c).
Proof.
  intros (A & B & C & D & E). unfold handlePointerMove.
  destruct h as [h|]; [|repeat split; lra]. cbv zeta.
  pose proof (clamp01_range fx) as Rx. pose proof (clamp01_range fy) as Ry.
  destruct (h =? 1)%nat; [|destruct (h =? 2)%nat]; unfold editorInv;
    cbn [cp1x cp1y cp2x cp2y].
  - pose proof (Q.le_min_l (cp2x c - (2 # 100)) (clamp01 fx)) as M.
    pose proof (Q.le_max_l (1 # 100) (Qmin (cp2x c - (2 # 100)) (clamp01 fx))) as L.
    assert (U : Qmax (1 # 100) (Qmin (cp2x c - (2 # 100)) (clamp01 fx))
                <= cp2x c - (2 # 100)) by (apply Q.max_lub; lra).
    repeat split; lra.
  - pose proof (Q.le_max_l (cp1x c + (2 # 100)) (clamp01 fx)) as M.
    pose proof (Q.le_min_l (1 - (1 # 100)) (Qmax (cp1x c + (2 # 100)) (clamp01 fx))) as L.
    assert (U : cp1x c + (2 # 100)
                <= Qmin (1 - (1 # 100)) (Qmax (cp1x c + (2 # 100)) (clamp01 fx)))
      by (apply Q.min_glb; lra).
    repeat split; lra.
  - repeat split; lra.
Qed.

(** X3.  The curve editor keeps the control points valid: from the default
    points, after any sequence of pointer moves with any handle and any
    pointer position, both X coordinates are in [0.01, 0.99], [p1x] is at
    least 0.02 below [p2x] and both Y coordinates are in [0,1]; so X is
    monotonic and the solver of X1 applies. *)
Theorem editor_keeps_points_valid (ds : list Drag) :
  let c := drags ds defaultControlPoints in
  editorInv c /\
  valid_control_points (cp1x c) (cp1y c) (cp2x c) (cp2y c).
Proof.
  cbv zeta.
  assert (I : editorInv (drags ds defaultControlPoints)).
  { unfold drags. generalize defaultControlPoints_inv.
    generalize defaultControlPoints.
    induction ds as [|d ds IH]; intros c H; cbn [fold_left]; [exact H|].
    apply IH. now apply handlePointerMove_inv. }
  split; [exact I|]. destruct I as (A & B & C & D & E).
  unfold valid_control_points. repeat split; lra.
Qed.

(** X20.  For control points the editor allows, a move of handle 1 as far
    right as possible stops [gap] short of [p2x], and a move of handle 2 as
    far left as possible stops [gap] after [p1x]. *)
Lemma handlePointerMove_stops_at_gap (c : ControlPoints) :
  editorInv c ->
  cp1x (handlePointerMove (Some 1%nat) 1 0 c) == cp2x c - (2 # 100) /\
  cp2x (handlePointerMove (Some 2%nat) 0 0 c) == cp1x c + (2 # 100).
Proof.
  intros (A & B & C & D & E). unfold handlePointerMove. cbn [Nat.eqb]. cbv zeta.
  cbn [cp1x cp2x]. rewrite clamp01_1, clamp01_0. split.
  - rewrite (Q.min_l (cp2x c - (2 # 100)) 1) by lra. apply Q.max_r. lra.
  - rewrite (Q.max_l (cp1x c + (2 # 100)) 0) by lra. apply Q.min_r. lra.
Qed.

Lemma handlePointerMove_stops_at_gap_witness :
  cp1x (handlePointerMove (Some 1%nat) 1 0 defaultControlPoints)
  == cp2x defaultControlPoints - (2 # 100).
Proof.
  apply (proj1 (handlePointerMove_stops_at_gap defaultControlPoints
                  defaultControlPoints_inv)).
Defined.

Lemma slide_inv (ev : Q + Q) (bounds : Q * Q) :
  fst bounds + (1 # 100) <= snd bounds ->
  fst (slide ev bounds) + (1 # 100) <= snd (slide ev bounds).
Proof.
  destruct bounds as [lo hi]. cbn [fst snd]. intros H.
  destruct ev as [parsed|parsed]; unfold slide, handleMinChange, handleMaxChange;
    cbn [fst snd].
  - pose proof (Q.le_min_r parsed (hi - (1 # 100))). lra.
  - pose proof (Q.le_max_r parsed (lo + (1 # 100))). lra.
Qed.

(** X4.  The scale slider keeps the bounds ordered: from the default
    bounds, after any sequence of changes of either thumb to any parsed
    value, [minScale + 0.01 <= maxScale]; a lower thumb pushed above the
    upper one stops 0.01 below it. *)
Theorem slider_keeps_bounds_ordered (evs : list (Q + Q)) :
  let b := slides evs defaultBounds in
  fst b + (1 # 100) <= snd b /\ fst b < snd b /\
  forall parsed, snd b <= parsed ->
    fst (handleMinChange parsed b) == snd b - (1 # 100).
Proof.
  cbv zeta.
  assert (I : fst (slides evs defaultBounds) + (1 # 100)
              <= snd (slides evs defaultBounds)).
  { unfold slides.
    assert (H : fst defaultBounds + (1 # 100) <= snd defaultBounds)
      by (cbn; lra).
    revert H. generalize defaultBounds.
    induction evs as [|ev evs IH]; intros b H; cbn [fold_left]; [exact H|].
    apply IH. now apply slide_inv. }
  split; [exact I|]. split; [lra|].
  intros parsed H. unfold handleMinChange. cbn [fst snd]. apply Q.min_r. lra.
Qed.

End EditorFacts.

Section ColorFacts.
Local Open Scope Q_scope.

Lemma floor_fraction (x : Q) : 0 <= x - inject_Z (Qfloor x) < 1.
Proof.
  pose proof (Qfloor_le x) as L. pose proof (Qlt_floor x) as U.
  rewrite inject_Z_plus in U. change (inject_Z 1) with 1 in U. lra.
Qed.

(** X5.  [hsvToRgb] never leaves the cone of its value: for every hue
    (negative and beyond 1 included), every saturation in [0,1] and every
    non-negative value, each component lies between [v * (1 - s)] and [v],
    one component is exactly [v] and one is exactly [v * (1 - s)]; with
    [v <= 1] all components are in [0,1]. *)
Theorem hsvToRgb_range (h s v : Q) :
  0 <= s <= 1 -> 0 <= v ->
  let c := hsvToRgb h s v in
  rgbWithin (v * (1 - s)) v c /\
  (rgb_r c = v \/ rgb_g c = v \/ rgb_b c = v) /\
  (rgb_r c = v * (1 - s) \/ rgb_g c = v * (1 - s) \/ rgb_b c = v * (1 - s)) /\
  (v <= 1 -> rgbWithin 0 1 c).
Proof.
  intros Hs Hv. cbv zeta. unfold hsvToRgb. cbv zeta.
  pose proof (floor_fraction (h * 6)) as F.
  set (f := h * 6 - inject_Z (Qfloor (h * 6))) in *.
  assert (P0 : 0 <= v * (1 - s)) by (apply Qmult_le_0_compat; lra).
  assert (P1 : 0 <= v * s) by (apply Qmult_le_0_compat; lra).
  assert (Q1 : 0 <= v * s * f) by (apply Qmult_le_0_compat; lra).
  assert (Q2 : 0 <= v * s * (1 - f)) by (apply Qmult_le_0_compat; lra).
  assert (Eq1 : v * (1 - f * s) == v - v * s * f) by ring.
  assert (Eq2 : v * (1 - (1 - f) * s) == v - v * s * (1 - f)) by ring.
  assert (Ep : v * (1 - s) == v - v * s) by ring.
  assert (Es : v * s * (1 - f) == v * s - v * s * f) by ring.
  generalize (Z.rem (Qfloor (h * 6)) 6). intros k.
  assert (A : forall r g b,
            (r = v \/ g = v \/ b = v) ->
            (r = v * (1 - s) \/ g = v * (1 - s) \/ b = v * (1 - s)) ->
            v * (1 - s) <= r <= v -> v * (1 - s) <= g <= v ->
            v * (1 - s) <= b <= v ->
            rgbWithin (v * (1 - s)) v (mkRgb r g b) /\
            (rgb_r (mkRgb r g b) = v \/ rgb_g (mkRgb r g b) = v
             \/ rgb_b (mkRgb r g b) = v) /\
            (rgb_r (mkRgb r g b) = v * (1 - s) \/ rgb_g (mkRgb r g b) = v * (1 - s)
             \/ rgb_b (mkRgb r g b) = v * (1 - s)) /\
            (v <= 1 -> rgbWithin 0 1 (mkRgb r g b))).
  { intros r g b M1 M2 Rr Rg Rb. unfold rgbWithin. cbn [rgb_r rgb_g rgb_b].
    split; [tauto|]. split; [exact M1|]. split; [exact M2|].
    intros V. repeat split; lra. }
  destruct k as [|p|p];
    repeat match goal with
           | |- context [match ?x with xI _ => _ | xO _ => _ | xH => _ end] =>
               destruct x
           end;
    apply A; auto; lra.
Qed.

Lemma hsvToRgb_range_witness :
  rgbWithin 0 1 (hsvToRgb (220 # 360) (75 # 100) (65 # 100)).
Proof.
  refine (proj2 (proj2 (proj2 (hsvToRgb_range (220 # 360) (75 # 100) (65 # 100)
                                 _ _))) _); lra.
Defined.

Lemma updateHue_range (fx : Q) : 0 <= updateHue fx <= 360.
Proof. unfold updateHue. pose proof (clamp01_range fx). lra. Qed.

(** X6.  The hue slider wraps: the right end gives the hue 360, and the
    color of the hue 360 is the color of the hue 0 (pure [v], [v * (1 - s)],
    [v * (1 - s)]); every hue the slider can produce lies in [0, 360]. *)
Theorem hue_wraps_around (s v : Q) :
  updateHue 1 == 360 /\ updateHue 0 == 0 /\
  (forall fx, 0 <= updateHue fx <= 360) /\
  rgb_r (hsvToRgb (updateHue 1 / 360) s v) == rgb_r (hsvToRgb (updateHue 0 / 360) s v) /\
  rgb_g (hsvToRgb (updateHue 1 / 360) s v) == rgb_g (hsvToRgb (updateHue 0 / 360) s v) /\
  rgb_b (hsvToRgb (updateHue 1 / 360) s v) == rgb_b (hsvToRgb (updateHue 0 / 360) s v) /\
  rgb_r (hsvToRgb (updateHue 0 / 360) s v) == v /\
  rgb_g (hsvToRgb (updateHue 0 / 360) s v) == v * (1 - s) /\
  rgb_b (hsvToRgb (updateHue 0 / 360) s v) == v * (1 - s).
Proof.
  unfold updateHue. rewrite clamp01_1, clamp01_0.
  split; [reflexivity|]. split; [reflexivity|].
  split; [apply updateHue_range|].
  unfold hsvToRgb. cbv zeta.
  change (Z.rem (Qfloor (1 * 360 / 360 * 6)) 6) with 0%Z.
  change (Z.rem (Qfloor (0 * 360 / 360 * 6)) 6) with 0%Z.
  cbn [rgb_r rgb_g rgb_b].
  change (Qfloor (1 * 360 / 360 * 6)) with 6%Z.
  change (Qfloor (0 * 360 / 360 * 6)) with 0%Z.
  repeat split; try reflexivity; field.
Qed.

End ColorFacts.

(* ================================================================== *)
(** * Part VII: further properties of the scene *)
(* ================================================================== *)

Section SceneFacts.
Local Open Scope R_scope.

Lemma baseBound_value : baseBound = 72 / 10.
Proof.
  unfold baseBound, INITIAL_SPACING, GRID_SIZE. rewrite INR_IZR_INZ.
  cbn [Z.of_nat Pos.of_succ_nat Pos.succ]. lra.
Qed.

Lemma Rabs_minus_one : Rabs (-1) = 1.
Proof. unfold Rabs. destruct (Rcase_abs (-1)); lra. Qed.

Lemma sign_abs (x : R) : x <> 0 -> Rabs (sign x) = 1.
Proof.
  intros H. unfold sign. destruct (Rlt_dec 0 x) as [P|P].
  - apply Rabs_R1.
  - destruct (Rlt_dec x 0) as [N|N].
    + apply Rabs_minus_one.
    + lra.
Qed.

(** One axis of the bounce ends inside the bound, with the speed kept. *)
Lemma bounceAxis_inside (bound scaledDelta : R) (xv : R * R) :
  0 < bound ->
  Rabs (fst (bounceAxis bound scaledDelta xv)) <= bound /\
  Rabs (snd (bounceAxis bound scaledDelta xv)) = Rabs (snd xv).
Proof.
  intros Hb. unfold bounceAxis. cbv zeta.
  destruct (Rlt_dec bound (Rabs (fst xv + snd xv * scaledDelta))) as [O|I];
    cbn [fst snd].
  - split.
    + rewrite Rabs_mult, sign_abs, (Rabs_right bound); [lra|lra|].
      intros Z. rewrite Z, Rabs_R0 in O. lra.
    + rewrite Rabs_mult, Rabs_minus_one. lra.
  - split; [lra|reflexivity].
Qed.

Lemma Bounce_useFrame_inside (isDyn : bool) (speed delta : R) (s : Bouncer) :
  within baseBound (focalPoint s) ->
  within baseBound (focalPoint (Bounce_useFrame isDyn speed delta s)) /\
  Rabs (vx (velocity (Bounce_useFrame isDyn speed delta s))) = Rabs (vx (velocity s)) /\
  Rabs (vy (velocity (Bounce_useFrame isDyn speed delta s))) = Rabs (vy (velocity s)) /\
  Rabs (vz (velocity (Bounce_useFrame isDyn speed delta s))) = Rabs (vz (velocity s)).
Proof.
  intros W. unfold Bounce_useFrame. destruct isDyn; cbn [negb].
  - cbv zeta. fold baseBound. cbn [focalPoint velocity vx vy vz]. unfold within.
    cbn [vx vy vz].
    assert (B : 0 < baseBound) by (rewrite baseBound_value; lra).
    repeat split; apply bounceAxis_inside; exact B.
  - repeat split; try reflexivity; apply W.
Qed.

(** X7.  The single-focus animation keeps the focal point inside the cube
    of half extent [bound] on every axis, whatever the deltas and speeds
    (negative or huge ones included), and it never changes the speed along
    an axis, only its direction. *)
Theorem bounce_stays_inside (fs : list (bool * R * R)) (s : Bouncer) :
  within baseBound (focalPoint s) ->
  within baseBound (focalPoint (bounces fs s)) /\
  Rabs (vx (velocity (bounces fs s))) = Rabs (vx (velocity s)) /\
  Rabs (vy (velocity (bounces fs s))) = Rabs (vy (velocity s)) /\
  Rabs (vz (velocity (bounces fs s))) = Rabs (vz (velocity s)).
Proof.
  unfold bounces. revert s. induction fs as [|[[d sp] dt] fs IH]; intros s W;
    cbn [fold_left fst snd].
  - repeat split; try reflexivity; apply W.
  - destruct (Bounce_useFrame_inside d sp dt s W) as (W1 & A & B & C).
    destruct (IH _ W1) as (W2 & A2 & B2 & C2).
    split; [exact W2|]. repeat split; congruence.
Qed.

Lemma bounce_stays_inside_witness :
  within baseBound
    (focalPoint (bounces [(true, 1, 100); (false, 1, 1); (true, 8, 3)]
                   (mkBouncer (mkVector3 0 0 0)
                              (mkVector3 (7 / 100) (- 7 / 100) 0)))).
Proof.
  refine (proj1 (bounce_stays_inside _ _ _)).
  unfold within. cbn [focalPoint vx vy vz]. rewrite Rabs_R0, baseBound_value.
  repeat split; lra.
Defined.

Lemma gridCoordinate_range (k : nat) :
  (k < GRID_SIZE)%nat ->
  - (66 / 10) <= gridCoordinate INITIAL_SPACING k <= 66 / 10.
Proof.
  intros H. unfold gridCoordinate, INITIAL_SPACING, GRID_SIZE in *.
  assert (K : 0 <= INR k <= 11).
  { split; [apply pos_INR|]. replace 11 with (INR 11) by (rewrite INR_IZR_INZ; reflexivity).
    apply le_INR. lia. }
  replace (INR (12 - 1)) with 11 by (rewrite INR_IZR_INZ; reflexivity).
  lra.
Qed.

Lemma in_grid (spacing : R) (pos : Vector3) :
  In pos (generateInitialSpheres spacing) ->
  exists x y z, (x < GRID_SIZE)%nat /\ (y < GRID_SIZE)%nat /\ (z < GRID_SIZE)%nat /\
    pos = mkVector3 (gridCoordinate spacing x) (gridCoordinate spacing y)
                    (gridCoordinate spacing z).
Proof.
  unfold generateInitialSpheres. intros H.
  apply in_flat_map in H. destruct H as (x & Hx & H).
  apply in_flat_map in H. destruct H as (y & Hy & H).
  apply in_map_iff in H. destruct H as (z & <- & Hz).
  apply in_seq in Hx, Hy, Hz. exists x, y, z. repeat split; lia.
Qed.

Lemma flat_map_constant_length {A B : Type} (f : A -> list B) (n : nat) (l : list A) :
  (forall a, length (f a) = n) -> length (flat_map f l) = (length l * n)%nat.
Proof.
  intros H. induction l as [|a l IH]; cbn; [reflexivity|].
  now rewrite length_app, H, IH.
Qed.

(** X8.  The grid has [GRID_SIZE]^3 = 1728 positions; with the spacing of
    the app every coordinate lies in [-6.6, 6.6], and every position is
    closer to the origin than [maxDist], so a center resting at the origin
    leaves no element at the saturated end of the table. *)
Theorem grid_fits_maxDist :
  length (generateInitialSpheres INITIAL_SPACING) = 1728%nat /\
  forall pos, In pos (generateInitialSpheres INITIAL_SPACING) ->
    within (66 / 10) pos /\
    distanceTo pos (mkVector3 0 0 0) < App_maxDist /\
    Rmin 1 (distanceTo pos (mkVector3 0 0 0) / App_maxDist) < 1.
Proof.
  split.
  - unfold generateInitialSpheres.
    rewrite (flat_map_constant_length _ (GRID_SIZE * GRID_SIZE)).
    + rewrite length_seq. reflexivity.
    + intros x. rewrite (flat_map_constant_length _ GRID_SIZE).
      * now rewrite length_seq.
      * intros y. now rewrite length_map, length_seq.
  - intros pos H. apply in_grid in H. destruct H as (x & y & z & Hx & Hy & Hz & ->).
    pose proof (gridCoordinate_range x Hx) as Rx.
    pose proof (gridCoordinate_range y Hy) as Ry.
    pose proof (gridCoordinate_range z Hz) as Rz.
    set (a := gridCoordinate INITIAL_SPACING x) in *.
    set (b := gridCoordinate INITIAL_SPACING y) in *.
    set (c := gridCoordinate INITIAL_SPACING z) in *.
    assert (D : distanceTo (mkVector3 a b c) (mkVector3 0 0 0) < App_maxDist).
    { unfold distanceTo, App_maxDist. cbv zeta. cbn [vx vy vz].
      fold baseBound. rewrite baseBound_value.
      apply Rle_lt_trans with (sqrt (3 * (66 / 10) ^ 2)).
      - apply sqrt_le_1_alt. nra.
      - apply Rlt_le_trans with (sqrt (3 * (72 / 10) ^ 2)).
        + apply sqrt_lt_1_alt. lra.
        + assert (0 <= sqrt (3 * (72 / 10) ^ 2)) by apply sqrt_pos. lra. }
    split; [|split; [exact D|]].
    + unfold within. cbn [vx vy vz]. repeat split; apply Rabs_le; lra.
    + pose proof App_maxDist_pos as M.
      assert (distanceTo (mkVector3 a b c) (mkVector3 0 0 0) / App_maxDist < 1).
      { apply Rmult_lt_reg_r with App_maxDist; [exact M|].
        unfold Rdiv. rewrite Rmult_assoc, Rinv_l by lra. lra. }
      unfold Rmin. destruct (Rle_dec _ _); lra.
Qed.

(** X9.  The effect of [App] resizes the array of centers to
    [engineCenters]: the result has exactly that many centers, the centers
    that were there before and still fit are kept in place, and the array
    is empty (the frame of the spheres is then skipped) only for
    [engineCenters = 0]. *)
Theorem App_useEffect_resizes (engineCenters : nat) (freshPoint : nat -> Vector3)
  (focal : list Vector3) (cfg : SceneConfig) (positions : list Vector3)
  (weights : list R) :
  let focal' := App_useEffect engineCenters freshPoint focal in
  length focal' = engineCenters /\
  firstn (Nat.min engineCenters (length focal)) focal'
  = firstn (Nat.min engineCenters (length focal)) focal /\
  (InstancedSpheres_useFrame cfg positions focal' weights = None
   <-> engineCenters = 0%nat).
Proof.
  cbv zeta. unfold App_useEffect. cbv zeta.
  destruct (length focal <? engineCenters)%nat eqn:L;
    [apply Nat.ltb_lt in L | apply Nat.ltb_ge in L;
     destruct (engineCenters <? length focal)%nat eqn:G;
     [apply Nat.ltb_lt in G | apply Nat.ltb_ge in G]].
  - assert (Len : length (focal ++ map freshPoint (seq 0 (engineCenters - length focal)))
                  = engineCenters)
      by (rewrite length_app, length_map, length_seq; lia).
    split; [exact Len|]. split.
    + replace (Nat.min engineCenters (length focal)) with (length focal) by lia.
      rewrite firstn_app, Nat.sub_diag, firstn_all. cbn. now rewrite app_nil_r.
    + destruct (focal ++ map freshPoint (seq 0 (engineCenters - length focal)));
        cbn in *; split; intros H; try discriminate; try reflexivity; lia.
  - assert (Len : length (firstn engineCenters focal) = engineCenters)
      by (rewrite length_firstn; lia).
    split; [exact Len|]. split.
    + replace (Nat.min engineCenters (length focal)) with engineCenters by lia.
      now rewrite firstn_firstn, Nat.min_id.
    + destruct (firstn engineCenters focal); cbn in *; split; intros H;
        try discriminate; try reflexivity; lia.
  - split; [lia|]. split; [reflexivity|].
    destruct focal; cbn in *; split; intros H; try discriminate; try reflexivity; lia.
Qed.

End SceneFacts.

Section AnimatorMore.
Local Open Scope R_scope.

Lemma moveCenters_rest (phases : list Phase) (t bound randNorm : R) :
  forall (count i : nat) (focal focal' : list Vector3),
    (i <= length focal)%nat ->
    moveCenters count i phases t bound randNorm focal = Some focal' ->
    (forall j, (i + count <= j)%nat -> nth_error focal' j = nth_error focal j) /\
    length focal' = Nat.max (length focal) (i + count).
Proof.
  induction count as [|count IH]; intros i focal focal' Hi M; cbn [moveCenters] in M.
  - inversion M; subst. split; [reflexivity|lia].
  - destruct (nth_error phases i) as [ph|] eqn:P; [|discriminate].
    apply IH in M; [|rewrite setCenter_length by exact Hi; lia].
    destruct M as [A B]. split.
    + intros j Hj. rewrite A by lia. apply setCenter_other; [exact Hi|lia].
    + rewrite B, setCenter_length by exact Hi. lia.
Qed.

(** X10.  A running frame moves the active centers only: every center at
    or beyond [min(engineCenters, 3)] keeps its position (a faded-out center
    rests where it was), the number of centers does not change once there
    are as many as active ones, and every weight, active or not, is
    smoothed. *)
Theorem inactive_centers_rest (p : Props) (delta : R) (s : AnimatorState) :
  isDynamic p = true -> length (phaseRef s) = MAX_ENGINE_CENTERS ->
  exists s',
    SceneContent_useFrame p delta s = Some s' /\
    (forall j, (Nat.min (engineCenters p) MAX_ENGINE_CENTERS <= j)%nat ->
       nth_error (focalPointsRef s') j = nth_error (focalPointsRef s) j) /\
    length (focalPointsRef s')
    = Nat.max (length (focalPointsRef s))
              (Nat.min (engineCenters p) MAX_ENGINE_CENTERS) /\
    weightRef s' = smoothWeights delta (weightRef s) (weightTargetRef s) /\
    length (weightRef s') = length (weightRef s).
Proof.
  intros Hd Hp. unfold SceneContent_useFrame. rewrite Hd. cbn [negb]. cbv zeta.
  destruct (moveCenters_spec (phaseRef s) (timeRef s + delta * speed p)
              (baseBound * boundScale p)
              (lerp (smoothRandomnessRef s) (engineRandomness p)
                    (1 - exp (- delta * 3)) / 100)
              (Nat.min (engineCenters p) MAX_ENGINE_CENTERS) 0 (focalPointsRef s))
    as (focal & M & _); [lia|rewrite Hp; cbn; lia|].
  rewrite M. eexists. split; [reflexivity|]. cbn [focalPointsRef weightRef].
  destruct (moveCenters_rest _ _ _ _ _ 0%nat _ _ (Nat.le_0_l _) M) as [A B].
  split; [intros j Hj; apply A; lia|]. split; [exact B|].
  split; [reflexivity|apply smoothWeights_length].
Qed.

Lemma inactive_centers_rest_witness :
  exists s',
    SceneContent_useFrame (mkProps true 3 1 100 1) 1 jitteredState = Some s' /\
    nth_error (focalPointsRef s') 2 = Some (mkVector3 0 0 0).
Proof.
  destruct (inactive_centers_rest (mkProps true 3 1 100 1) 1 jitteredState
              eq_refl eq_refl) as (s' & E & A & _).
  exists s'. split; [exact E|]. rewrite A; [reflexivity|cbn; lia].
Defined.

Lemma pushUpTo_full {A : Type} (n : nat) (fresh : nat -> A) (a : list A) :
  (n <= length a)%nat -> pushUpTo n fresh a = a.
Proof.
  intros H. unfold pushUpTo. replace (n - length a)%nat with 0%nat by lia.
  cbn. apply app_nil_r.
Qed.

Lemma pushUpTo_length {A : Type} (n : nat) (fresh : nat -> A) (a : list A) :
  length (pushUpTo n fresh a) = Nat.max n (length a).
Proof. unfold pushUpTo. rewrite length_app, length_map, length_seq. lia. Qed.

Lemma setTargets_length (n : nat) (targets : list R) :
  (MAX_ENGINE_CENTERS <= length targets)%nat ->
  length (setTargets n targets) = length targets.
Proof.
  intros H. unfold setTargets. rewrite length_app, length_map, length_seq, length_skipn.
  lia.
Qed.

Lemma setTargets_idempotent (n : nat) (targets : list R) :
  setTargets n (setTargets n targets) = setTargets n targets.
Proof.
  unfold setTargets. reflexivity.
Qed.

Lemma unitWeights_app (a b : list R) :
  unitWeights a -> unitWeights b -> unitWeights (a ++ b).
Proof. intros Ha Hb. apply Forall_app. now split. Qed.

Lemma unitWeights_zeros (n : nat) : unitWeights (map (fun _ : nat => 0) (seq 0 n)).
Proof. apply Forall_map, Forall_forall. intros x _. lra. Qed.

(** X11.  The effect of [SceneContent] makes the refs ready for frames and
    draws nothing twice.  From any refs with weights and targets in [0,1]
    it leaves exactly three phases, at least three weights, targets and
    centers, the targets of the first three centers at 1 below
    [engineCenters] and at 0 from there on, the weights, phases and centers
    that existed untouched; and running it again with the same
    [engineCenters] changes nothing, whatever the random draws. *)
Theorem useEffect_ready_and_idempotent (engineCenters : nat)
  (freshPhase : nat -> Phase) (freshPoint : nat -> Vector3) (s : AnimatorState) :
  unitWeights (weightRef s) -> unitWeights (weightTargetRef s) ->
  let s' := SceneContent_useEffect engineCenters freshPhase freshPoint s in
  animatorReady s' /\
  (MAX_ENGINE_CENTERS <= length (focalPointsRef s'))%nat /\
  (forall i, (i < MAX_ENGINE_CENTERS)%nat ->
     nth_error (weightTargetRef s') i
     = Some (if (i <? engineCenters)%nat then 1 else 0)) /\
  (forall i w, nth_error (weightRef s) i = Some w ->
     nth_error (weightRef s') i = Some w) /\
  (forall i v, nth_error (focalPointsRef s) i = Some v ->
     nth_error (focalPointsRef s') i = Some v) /\
  (forall freshPhase' freshPoint',
     SceneContent_useEffect engineCenters freshPhase' freshPoint' s' = s').
Proof.
  intros Hw Ht. cbv zeta. unfold SceneContent_useEffect.
  cbn [timeRef weightRef weightTargetRef smoothRandomnessRef phaseRef focalPointsRef].
  assert (LT : (MAX_ENGINE_CENTERS
                <= length (pushUpTo MAX_ENGINE_CENTERS (fun _ : nat => 0%R)
                             (weightTargetRef s)))%nat)
    by (rewrite pushUpTo_length; lia).
  split; [|split; [|split; [|split; [|split]]]].
  - unfold animatorReady.
    cbn [timeRef weightRef weightTargetRef smoothRandomnessRef phaseRef focalPointsRef].
    split; [|split].
    + rewrite length_firstn, pushUpTo_length. lia.
    + apply unitWeights_app; [exact Hw|apply unitWeights_zeros].
    + unfold setTargets. apply unitWeights_app.
      * apply Forall_map, Forall_forall. intros i _.
        destruct (i <? engineCenters)%nat; lra.
      * apply Forall_forall. intros x Hx.
        assert (U : unitWeights (pushUpTo MAX_ENGINE_CENTERS (fun _ : nat => 0)
                                          (weightTargetRef s)))
          by (apply unitWeights_app; [exact Ht|apply unitWeights_zeros]).
        rewrite <- (firstn_skipn MAX_ENGINE_CENTERS) in U.
        apply Forall_app in U. destruct U as [_ U].
        rewrite Forall_forall in U. now apply U.
  - rewrite pushUpTo_length. lia.
  - intros i Hi. unfold setTargets.
    rewrite nth_error_app1 by (rewrite length_map, length_seq; exact Hi).
    rewrite nth_error_map, nth_error_seq.
    apply Nat.ltb_lt in Hi. rewrite Hi. reflexivity.
  - intros i w H. unfold pushUpTo. rewrite nth_error_app1; [exact H|].
    apply nth_error_Some. congruence.
  - intros i v H. unfold pushUpTo. rewrite nth_error_app1; [exact H|].
    apply nth_error_Some. congruence.
  - intros fp fq. f_equal.
    + apply pushUpTo_full. rewrite pushUpTo_length. lia.
    + rewrite (pushUpTo_full MAX_ENGINE_CENTERS (fun _ : nat => 0)
                 (setTargets engineCenters _))
        by (rewrite setTargets_length by exact LT; exact LT).
      apply setTargets_idempotent.
    + rewrite pushUpTo_full by (rewrite length_firstn, pushUpTo_length; lia).
      apply firstn_all2. rewrite length_firstn. lia.
    + apply pushUpTo_full. rewrite pushUpTo_length. lia.
Qed.

Lemma useEffect_ready_and_idempotent_witness :
  animatorReady sampleState /\
  SceneContent_useEffect 1 (fun _ => samplePhase) (fun _ => mkVector3 1 1 1)
                         sampleState
  = sampleState.
Proof.
  destruct (useEffect_ready_and_idempotent 1 (fun _ => samplePhase)
              (fun _ => mkVector3 0 0 0) (mountState 0))
    as (A & _ & _ & _ & _ & I).
  - apply Forall_nil.
  - apply Forall_nil.
  - split; [exact A|]. apply I.
Defined.

End AnimatorMore.

Section FieldMore.
Local Open Scope R_scope.

(** X12.  The copies agree.  The instanced field with a single center
    whose weight is 1 (or missing) gives every element the scale of the
    single-focus [Sphere] of the third file of part_000, and that
    [Sphere]'s color, the tint applied with [curveFactor = 1], is what the
    two-tint field gives when both tints are that tint; the [Sphere] of the
    first file differs from both only in the fallback. *)
Theorem copies_agree (cfg : SceneConfig) (focalPoint pos : Vector3)
  (weights : list R) :
  weightAt weights 0 = 1 ->
  finalScale cfg [focalPoint] weights pos
  = iScale (SingleTint.Sphere_useFrame cfg focalPoint pos) /\
  sphereColor (mkSceneConfig (maxDist cfg) (opacity cfg) (lut cfg) (minScale cfg)
                             (maxScale cfg) (tintColor cfg) (tintColor cfg))
              [focalPoint] weights pos
  = iColor (SingleTint.Sphere_useFrame cfg focalPoint pos) /\
  iColor (SingleTint.Sphere_useFrame cfg focalPoint pos) = tintColor cfg /\
  (forall v, lutAt (lut cfg) (lutIndex (sphereT cfg [focalPoint] weights pos)) = Some v ->
     v <> 0 ->
     SingleFocus.Sphere_useFrame cfg focalPoint pos
     = finalScale cfg [focalPoint] weights pos).
Proof.
  intros W.
  assert (T : sphereT cfg [focalPoint] weights pos
              = Rmin 1 (distanceTo pos focalPoint / maxDist cfg)).
  { unfold sphereT, effectiveDistance.
    cbn [firstn MAX_ENGINE_CENTERS centersLoop]. rewrite W.
    destruct (Rlt_dec 1 (1 / 1000)) as [F|_]; [lra|].
    cbn [takeNearer normalizedDistance]. f_equal. f_equal. field. }
  assert (C : forall t c, Color_lerp c c t = c).
  { intros t [r g b]. unfold Color_lerp. cbn [cr cg cb]. f_equal; ring. }
  split; [|split; [|split]].
  - unfold finalScale, SingleTint.Sphere_useFrame. cbv zeta. cbn [iScale].
    now rewrite T.
  - unfold sphereColor, SingleTint.Sphere_useFrame. cbv zeta.
    cbn [iColor tintColor tintColor2]. rewrite C.
    destruct (tintColor cfg) as [r g b]. unfold Color_lerp, BASE_WHITE.
    cbn [cr cg cb]. f_equal; ring.
  - unfold SingleTint.Sphere_useFrame. cbv zeta. cbn [iColor].
    destruct (tintColor cfg) as [r g b]. unfold Color_lerp, BASE_WHITE.
    cbn [cr cg cb]. f_equal; ring.
  - intros v Hv Hn. unfold finalScale, SingleFocus.Sphere_useFrame. cbv zeta.
    rewrite T in *. rewrite Hv. now rewrite !orElse_truthy.
Qed.

Lemma copies_agree_witness :
  finalScale sampleConfig [mkVector3 1 2 3] [1] (mkVector3 0 0 0)
  = iScale (SingleTint.Sphere_useFrame sampleConfig (mkVector3 1 2 3) (mkVector3 0 0 0)).
Proof.
  apply (proj1 (copies_agree sampleConfig (mkVector3 1 2 3) (mkVector3 0 0 0) [1]
                  eq_refl)).
Defined.

(** X13.  An element that sits on an active center (one of the first three,
    weight at least 0.001) is at normalized distance 0: its scale is the
    first entry of the table (through the fallback) and its color the near
    tint, whatever the other centers do. *)
Theorem element_on_center (cfg : SceneConfig) (focal : list Vector3)
  (weights : list R) (c : nat) (pos : Vector3) :
  0 < maxDist cfg -> (c < MAX_ENGINE_CENTERS)%nat ->
  nth_error focal c = Some pos -> 1 / 1000 <= weightAt weights c ->
  sphereT cfg focal weights pos = 0 /\
  finalScale cfg focal weights pos = orElse (nth_error (lut cfg) 0) (minScale cfg) /\
  sphereColor cfg focal weights pos = tintColor cfg.
Proof.
  intros Hm Hc Hn Hw.
  assert (T : sphereT cfg focal weights pos = 0).
  { unfold sphereT. pose proof (effectiveDistance_min pos focal weights) as M.
    assert (I : In 0 (adjustedDistances pos (firstn MAX_ENGINE_CENTERS focal) weights)).
    { replace 0 with (distanceTo pos pos / weightAt weights (0 + c)).
      - apply adjustedFrom_member; [|cbn [Nat.add]; lra].
        rewrite nth_error_firstn. apply Nat.ltb_lt in Hc. now rewrite Hc.
      - rewrite distanceTo_self. unfold Rdiv. ring. }
    destruct (effectiveDistance pos focal weights) as [|d];
      cbn [isMinimumOf normalizedDistance] in M |- *.
    - rewrite M in I. destruct I.
    - destruct M as [Hin Hmin]. specialize (Hmin 0 I).
      apply adjustedFrom_nonneg in Hin. assert (d = 0) by lra. subst d.
      unfold Rdiv. rewrite Rmult_0_l. unfold Rmin. destruct (Rle_dec 1 0); lra. }
  split; [exact T|]. split.
  - unfold finalScale. rewrite T, lutIndex_zero. reflexivity.
  - unfold sphereColor. rewrite T. destruct (tintColor cfg), (tintColor2 cfg).
    unfold Color_lerp. cbn [cr cg cb]. f_equal; ring.
Qed.

Lemma element_on_center_witness :
  sphereT sampleConfig [mkVector3 5 5 5; mkVector3 1 2 3] [1; 1 / 2] (mkVector3 1 2 3)
  = 0.
Proof.
  apply (proj1 (element_on_center sampleConfig [mkVector3 5 5 5; mkVector3 1 2 3]
                  [1; 1 / 2] 1 (mkVector3 1 2 3) App_maxDist_pos
                  ltac:(unfold MAX_ENGINE_CENTERS; lia) eq_refl
                  ltac:(cbn; lra))).
Defined.

End FieldMore.

Section AnimatorRuns.
Local Open Scope R_scope.

Lemma lerp_same (x a : R) : lerp x x a = x.
Proof. unfold lerp. ring. Qed.

(** X14.  The frame callback of [src/App.tsx] is the one with [boundScale]
    and smoothed randomness taken at [boundScale = 2] with the smoothed
    randomness settled on the setting: both give the same refs. *)
Theorem AppTsx_frame_agrees (p : Props) (delta : R) (s : AnimatorState) :
  boundScale p = 2 -> smoothRandomnessRef s = engineRandomness p ->
  AppTsx.SceneContent_useFrame p delta s = SceneContent_useFrame p delta s.
Proof.
  intros Hb Hr. unfold AppTsx.SceneContent_useFrame, SceneContent_useFrame.
  destruct (isDynamic p); cbn [negb]; [|reflexivity]. cbv zeta.
  rewrite Hb, Hr, lerp_same. unfold baseBound. reflexivity.
Qed.

Lemma AppTsx_frame_agrees_witness :
  AppTsx.SceneContent_useFrame (mkProps true 3 1 100 2) 1 jitteredState
  = SceneContent_useFrame (mkProps true 3 1 100 2) 1 jitteredState.
Proof.
  apply (AppTsx_frame_agrees (mkProps true 3 1 100 2) 1 jitteredState);
    reflexivity.
Defined.

(** X15.  Smoothing never overshoots: with [delta >= 0] every weight that
    has a target ends between where it was and its target, no further from
    the target than before, and does not move at all when [delta = 0]. *)
Theorem smoothing_never_overshoots (delta : R) (weights targets : list R) :
  0 <= delta ->
  forall i w t, nth_error weights i = Some w -> nth_error targets i = Some t ->
    exists w',
      nth_error (smoothWeights delta weights targets) i = Some w' /\
      Rmin w t <= w' <= Rmax w t /\
      Rabs (w' - t) <= Rabs (w - t) /\
      (delta = 0 -> w' = w).
Proof.
  intros Hd i w t Hw Ht. eexists.
  split; [exact (smoothWeights_nth delta weights targets i w t Hw Ht)|].
  destruct (smoothing_factor delta 6 Hd ltac:(lra)) as [A0 A1].
  set (a := 1 - exp (- delta * 6)) in *. unfold lerp.
  split; [|split].
  - unfold Rmin, Rmax. destruct (Rle_dec w t); split; nra.
  - replace ((1 - a) * w + a * t - t) with ((1 - a) * (w - t)) by ring.
    rewrite Rabs_mult, (Rabs_right (1 - a)) by lra.
    pose proof (Rabs_pos (w - t)). nra.
  - intros Z. unfold a. rewrite Z. replace (- 0 * 6) with 0 by ring.
    rewrite exp_0. ring.
Qed.

Lemma smoothing_never_overshoots_witness :
  exists w',
    nth_error (smoothWeights (1 / 60) [0; 1] [1; 0]) 1 = Some w' /\
    Rabs (w' - 0) <= Rabs (1 - 0).
Proof.
  destruct (smoothing_never_overshoots (1 / 60) [0; 1] [1; 0] ltac:(lra)
              1%nat 1 0 eq_refl eq_refl) as (w' & N & _ & A & _).
  exists w'. split; assumption.
Defined.

Lemma useFrame_time (p : Props) (delta : R) (s : AnimatorState) :
  length (phaseRef s) = MAX_ENGINE_CENTERS ->
  0 <= delta -> 0 <= smoothRandomnessRef s <= 100 -> 0 <= engineRandomness p <= 100 ->
  exists s',
    SceneContent_useFrame p delta s = Some s' /\
    timeRef s' = timeRef s + (if isDynamic p then delta * speed p else 0) /\
    0 <= smoothRandomnessRef s' <= 100 /\
    phaseRef s' = phaseRef s /\
    (isDynamic p = false -> s' = s).
Proof.
  intros Hp Hd Hs He. destruct (isDynamic p) eqn:D.
  - destruct (useFrame_running p delta s D Hp) as (focal & E & _).
    eexists. split; [exact E|]. cbn [timeRef smoothRandomnessRef phaseRef].
    split; [reflexivity|]. split; [|split; [reflexivity|discriminate]].
    destruct (smoothing_factor delta 3 Hd ltac:(lra)) as [A0 A1].
    apply lerp_between; lra.
  - exists s. split; [now apply useFrame_paused|]. split; [lra|].
    split; [exact Hs|]. split; reflexivity.
Qed.

(** X16.  Over any run of frames with [delta >= 0] and randomness settings
    in [0,100], from refs holding three phases: the run succeeds, the time
    has advanced by [delta * speed] of the running frames only, the smoothed
    randomness is still in [0,100], the phases drawn at creation are never
    redrawn, and a run of paused frames changes nothing at all. *)
Theorem run_advances_time (fs : list (Props * R)) (s : AnimatorState) :
  length (phaseRef s) = MAX_ENGINE_CENTERS ->
  0 <= smoothRandomnessRef s <= 100 ->
  Forall (fun f => 0 <= snd f /\ 0 <= engineRandomness (fst f) <= 100) fs ->
  exists s',
    frames fs s = Some s' /\
    timeRef s' = timeRef s + runningTime fs /\
    0 <= smoothRandomnessRef s' <= 100 /\
    phaseRef s' = phaseRef s /\
    (Forall (fun f => isDynamic (fst f) = false) fs -> s' = s).
Proof.
  revert s. induction fs as [|[p delta] fs IH]; intros s Hp Hs Hf.
  - exists s. cbn. split; [reflexivity|]. split; [lra|]. split; [exact Hs|].
    split; reflexivity.
  - inversion Hf as [|? ? [Hd He] Hf']; subst. cbn [fst snd] in *.
    destruct (useFrame_time p delta s Hp Hd Hs He) as (s1 & E1 & T1 & S1 & P1 & Z1).
    destruct (IH s1 ltac:(congruence) S1 Hf') as (s' & E & T & S' & P & Z).
    exists s'. cbn [frames]. rewrite E1. split; [exact E|].
    split; [|split; [exact S'|split; [congruence|]]].
    + cbn [runningTime fold_right fst snd]. fold (runningTime fs). lra.
    + intros A. inversion A as [|? ? A1 A2]; subst. cbn [fst] in A1.
      rewrite (Z A2). now apply Z1.
Qed.

Lemma run_advances_time_witness :
  exists s',
    frames [(mkProps true 3 1 50 1, 1 / 60); (mkProps false 3 1 50 1, 1 / 60)]
           sampleState = Some s' /\
    timeRef s' = timeRef sampleState + (1 / 60 * 3 + (0 + 0)).
Proof.
  destruct (run_advances_time
              [(mkProps true 3 1 50 1, 1 / 60); (mkProps false 3 1 50 1, 1 / 60)]
              sampleState) as (s' & E & T & _).
  - reflexivity.
  - cbn. lra.
  - repeat (apply Forall_cons; [cbn [fst snd engineRandomness]; lra|]).
    apply Forall_nil.
  - exists s'. split; [exact E|exact T].
Defined.




End AnimatorRuns.

Section SolverOrder.
Local Open Scope Q_scope.

(** X18.  The parameter the solver finds never decreases when the query
    grows, for all control points, even those whose X folds back; so along
    a falling Y the sampled value never increases with the query and along
    a rising Y it never decreases. *)
Theorem solver_preserves_order (u v p1x p1y p2x p2y startY endY : Q) :
  u <= v ->
  solveT u p1x p2x <= solveT v p1x p2x /\
  (fallingY p1y p2y startY endY ->
   sampleBezierY v p1x p1y p2x p2y startY endY
   <= sampleBezierY u p1x p1y p2x p2y startY endY) /\
  (risingY p1y p2y startY endY ->
   sampleBezierY u p1x p1y p2x p2y startY endY
   <= sampleBezierY v p1x p1y p2x p2y startY endY).
Proof.
  intros H. pose proof (solveT_monotone u v p1x p2x H) as M.
  pose proof (solveT_range u p1x p2x) as Ru.
  pose proof (solveT_range v p1x p2x) as Rv.
  split; [exact M|]. unfold sampleBezierY. split; intros Y; apply Y; lra.
Qed.

Lemma solver_preserves_order_witness :
  sampleBezierY (2 # 3) (1 # 3) (2 # 3) (2 # 3) (1 # 3) 1 0
  <= sampleBezierY (1 # 3) (1 # 3) (2 # 3) (2 # 3) (1 # 3) 1 0.
Proof.
  refine (proj1 (proj2 (solver_preserves_order (1 # 3) (2 # 3) (1 # 3) (2 # 3)
                          (2 # 3) (1 # 3) 1 0 _)) straight_fallingY).
  lra.
Defined.

(** Entries of a table built from Y control values in [0,1] with ordered
    bounds: finite, between any finite values that enclose the stored
    bounds. *)
Lemma LUT_entries_within (p1x p1y p2x p2y : Q) (isReversed : bool)
  (minScale maxScale : Q) (i : nat) (lo hi : Q) :
  0 <= p1y <= 1 -> 0 <= p2y <= 1 -> minScale <= maxScale -> (i < LUT_SIZE)%nat ->
  f32_le (F32 lo) (fround minScale) -> f32_le (fround maxScale) (F32 hi) ->
  exists q,
    nth i (generateScaleLUT p1x p1y p2x p2y isReversed minScale maxScale) (F32 0)
    = F32 q /\ lo <= q <= hi.
Proof.
  intros H1 H2 Hm Hi Hlo Hhi. unfold generateScaleLUT. cbv zeta.
  rewrite LUT_entry by exact Hi.
  refine (proj2 (proj2 (stored_within minScale maxScale _ _)) lo hi Hlo Hhi).
  apply slotValue_within; auto; destruct isReversed; lra.
Qed.

Lemma generateScaleLUT_length (p1x p1y p2x p2y : Q) (isReversed : bool)
  (minScale maxScale : Q) :
  length (generateScaleLUT p1x p1y p2x p2y isReversed minScale maxScale) = LUT_SIZE.
Proof. unfold generateScaleLUT. cbv zeta. apply LUT_length. Qed.

End SolverOrder.

Section EndToEnd.
Local Open Scope R_scope.

Lemma Q2R_zero : Q2R 0 = 0.
Proof. unfold Q2R. cbn. lra. Qed.

(** A table all of whose entries are finite is read back entry by entry. *)
Lemma table_is_read (table : list float32) :
  (forall i, (i < length table)%nat -> exists q, nth i table (F32 0) = F32 q) ->
  readTable table = Some (map f32_number table).
Proof.
  intros H. unfold readTable.
  replace (forallb f32_finite table) with true; [reflexivity|].
  symmetry. apply forallb_forall. intros x Hx.
  destruct (In_nth table x (F32 0) Hx) as (i & Hi & <-).
  destruct (H i Hi) as [q ->]. reflexivity.
Qed.

(** X19.  From curve to sphere.  Let the table be the one [App] builds from
    Y control values in [0,1] and ordered scale bounds whose stored values
    lie between a positive [lo] and a finite [hi].  Then the scene reads a
    table of [LUT_SIZE] numbers, and every element of every frame gets a
    scale that is an entry of the table itself, between [lo] and [hi] and
    positive, wherever the centers are and whatever their weights: the
    fallback is never taken.  The same holds for the [Sphere] of the first
    file of part_000, whose fallback is the literal [0.1]. *)
Theorem scale_is_a_table_entry (p1x p1y p2x p2y : Q) (isReversed : bool)
  (minQ maxQ lo hi : Q) (opacity : R) (tint tint2 : Color) :
  (0 <= p1y <= 1)%Q -> (0 <= p2y <= 1)%Q -> (minQ <= maxQ)%Q -> (0 < lo)%Q ->
  f32_le (F32 lo) (fround minQ) -> f32_le (fround maxQ) (F32 hi) ->
  exists cfg,
    App_config p1x p1y p2x p2y isReversed minQ maxQ opacity tint tint2 = Some cfg /\
    length (lut cfg) = LUT_SIZE /\
    forall (focal : list Vector3) (weights : list R) (pos focalPoint : Vector3),
      (exists i q,
         (i < LUT_SIZE)%nat /\
         nth i (generateScaleLUT p1x p1y p2x p2y isReversed minQ maxQ) (F32 0%Q)
         = F32 q /\
         finalScale cfg focal weights pos = Q2R q) /\
      Q2R lo <= finalScale cfg focal weights pos <= Q2R hi /\
      0 < finalScale cfg focal weights pos /\
      (exists i q,
         (i < LUT_SIZE)%nat /\
         nth i (generateScaleLUT p1x p1y p2x p2y isReversed minQ maxQ) (F32 0%Q)
         = F32 q /\
         SingleFocus.Sphere_useFrame cfg focalPoint pos = Q2R q) /\
      Q2R lo <= SingleFocus.Sphere_useFrame cfg focalPoint pos <= Q2R hi.
Proof.
  intros H1 H2 Hm Hp Hlo Hhi.
  pose proof (generateScaleLUT_length p1x p1y p2x p2y isReversed minQ maxQ) as Len.
  assert (E : forall i, (i < LUT_SIZE)%nat ->
            exists q,
              nth i (generateScaleLUT p1x p1y p2x p2y isReversed minQ maxQ) (F32 0%Q)
              = F32 q /\ (lo <= q <= hi)%Q).
  { intros i Hi. now apply LUT_entries_within. }
  unfold App_config.
  generalize dependent (generateScaleLUT p1x p1y p2x p2y isReversed minQ maxQ).
  intros table Len E.
  rewrite table_is_read.
  2:{ intros i Hi. rewrite Len in Hi. destruct (E i Hi) as (q & Hq & _). now exists q. }
  eexists. split; [reflexivity|]. cbn [lut]. split; [now rewrite length_map|].
  apply Qlt_Rlt in Hp. rewrite Q2R_zero in Hp.
  assert (G : forall t, 0 <= t <= 1 ->
            exists i q, (i < LUT_SIZE)%nat /\ nth i table (F32 0%Q) = F32 q /\
                        Q2R lo <= Q2R q <= Q2R hi /\
                        forall fallback,
                          orElse (lutAt (map f32_number table) (lutIndex t)) fallback
                          = Q2R q).
  { intros t Ht. pose proof (lutIndex_range t Ht) as I.
    set (idx := lutIndex t) in *.
    assert (Hi : (Z.to_nat idx < LUT_SIZE)%nat) by (unfold LUT_SIZE; lia).
    destruct (E _ Hi) as (q & Hq & Lq & Uq).
    apply Qle_Rle in Lq, Uq.
    exists (Z.to_nat idx), q. split; [exact Hi|]. split; [exact Hq|].
    split; [lra|]. intros fallback.
    assert (A : lutAt (map f32_number table) idx = Some (Q2R q)).
    { unfold lutAt. destruct (idx <? 0)%Z eqn:N; [apply Z.ltb_lt in N; lia|].
      rewrite nth_error_map, (nth_error_nth' table (F32 0%Q))
        by (rewrite Len; exact Hi).
      rewrite Hq. reflexivity. }
    rewrite A. apply orElse_truthy. lra. }
  intros focal weights pos focalPoint.
  pose proof (normalizedDistance_range pos focal weights App_maxDist App_maxDist_pos) as T.
  destruct (G _ T) as (i & q & Hi & Hq & B & S).
  assert (T1 : 0 <= Rmin 1 (distanceTo pos focalPoint / App_maxDist) <= 1).
  { pose proof (distanceTo_nonneg pos focalPoint) as D.
    pose proof App_maxDist_pos as M.
    assert (0 <= distanceTo pos focalPoint / App_maxDist).
    { apply Rmult_le_pos; [exact D|]. apply Rlt_le, Rinv_0_lt_compat, M. }
    unfold Rmin. destruct (Rle_dec 1 (distanceTo pos focalPoint / App_maxDist)); lra. }
  destruct (G _ T1) as (i1 & q1 & Hi1 & Hq1 & B1 & S1).
  unfold finalScale, sphereT, SingleFocus.Sphere_useFrame. cbv zeta.
  cbn [lut minScale maxDist]. rewrite S, S1.
  split; [exists i, q; auto|]. split; [exact B|]. split; [lra|].
  split; [exists i1, q1; auto|exact B1].
Qed.

Lemma scale_is_a_table_entry_witness :
  exists cfg,
    App_config (33 # 100) (8 # 10) (66 # 100) (2 # 10) false (3 # 100) 2
               (1 / 2) (mkColor 1 0 0) (mkColor 0 0 1) = Some cfg /\
    Q2R (16106127 # 536870912)
    <= finalScale cfg [mkVector3 0 0 0] [1] (mkVector3 1 2 3) <= Q2R 2.
Proof.
  destruct (scale_is_a_table_entry (33 # 100) (8 # 10) (66 # 100) (2 # 10) false
              (3 # 100) 2 (16106127 # 536870912) 2
              (1 / 2) (mkColor 1 0 0) (mkColor 0 0 1))
    as (cfg & C & _ & H).
  - unfold Qle; cbn; lia.
  - unfold Qle; cbn; lia.
  - unfold Qle; cbn; lia.
  - reflexivity.
  - vm_compute. discriminate.
  - vm_compute. discriminate.
  - exists cfg. split; [exact C|].
    exact (proj1 (proj2 (H [mkVector3 0 0 0] [1] (mkVector3 1 2 3) (mkVector3 0 0 0)))).
Defined.

End EndToEnd.

Section Configurations.
Local Open Scope Q_scope.

Lemma slides_inv (evs : list (Q + Q)) :
  fst (slides evs defaultBounds) + (1 # 100) <= snd (slides evs defaultBounds).
Proof.
  unfold slides.
  assert (H : fst defaultBounds + (1 # 100) <= snd defaultBounds) by (cbn; lra).
  revert H. generalize defaultBounds.
  induction evs as [|ev evs IH]; intros b H; cbn [fold_left]; [exact H|].
  apply IH. now apply slide_inv.
Qed.

Lemma drags_inv (ds : list Drag) : editorInv (drags ds defaultControlPoints).
Proof.
  unfold drags. generalize defaultControlPoints_inv. generalize defaultControlPoints.
  induction ds as [|d ds IH]; intros c H; cbn [fold_left]; [exact H|].
  apply IH. now apply handlePointerMove_inv.
Qed.

(** X21.  Whatever the user does with the curve editor and the scale slider
    of [src/App.tsx], starting from the defaults ([isReversed] stays
    [false]), the table built from the resulting configuration has
    [LUT_SIZE] entries; the number computed for each slot lies within the
    chosen scale bounds, and the entry, that number as stored, lies between
    the stored bounds. *)
Theorem reachable_table_within_bounds (ds : list Drag) (evs : list (Q + Q))
  (i : nat) :
  (i < LUT_SIZE)%nat ->
  let c := drags ds defaultControlPoints in
  let b := slides evs defaultBounds in
  let table := generateScaleLUT (cp1x c) (cp1y c) (cp2x c) (cp2y c) false
                                (fst b) (snd b) in
  let y := slotValue (cp1x c) (cp1y c) (cp2x c) (cp2y c) 1 0 (fst b) (snd b) i in
  length table = LUT_SIZE /\
  fst b <= y <= snd b /\
  nth i table (F32 0) = fround y /\
  f32_le (fround (fst b)) (nth i table (F32 0)) /\
  f32_le (nth i table (F32 0)) (fround (snd b)).
Proof.
  intros Hi. cbv zeta. split; [apply generateScaleLUT_length|].
  destruct (drags_inv ds) as (_ & _ & _ & Y1 & Y2).
  pose proof (slides_inv evs) as B.
  assert (W : fst (slides evs defaultBounds)
              <= slotValue (cp1x (drags ds defaultControlPoints))
                           (cp1y (drags ds defaultControlPoints))
                           (cp2x (drags ds defaultControlPoints))
                           (cp2y (drags ds defaultControlPoints)) 1 0
                           (fst (slides evs defaultBounds))
                           (snd (slides evs defaultBounds)) i
              <= snd (slides evs defaultBounds)).
  { apply slotValue_within; auto; lra. }
  split; [exact W|].
  unfold generateScaleLUT. cbv zeta. rewrite LUT_entry by exact Hi.
  split; [reflexivity|].
  destruct (stored_within _ _ _ W) as (A & C & _). split; assumption.
Qed.

Lemma reachable_table_within_bounds_witness :
  f32_le
    (fround (fst (slides [inl (1 # 2); inr (3 # 2)] defaultBounds)))
    (nth 7 (generateScaleLUT
              (cp1x (drags [(Some 1%nat, 9 # 10, 1 # 4)] defaultControlPoints))
              (cp1y (drags [(Some 1%nat, 9 # 10, 1 # 4)] defaultControlPoints))
              (cp2x (drags [(Some 1%nat, 9 # 10, 1 # 4)] defaultControlPoints))
              (cp2y (drags [(Some 1%nat, 9 # 10, 1 # 4)] defaultControlPoints))
              false
              (fst (slides [inl (1 # 2); inr (3 # 2)] defaultBounds))
              (snd (slides [inl (1 # 2); inr (3 # 2)] defaultBounds))) (F32 0)).
Proof.
  refine (proj1 (proj2 (proj2 (proj2 (reachable_table_within_bounds
                          [(Some 1%nat, 9 # 10, 1 # 4)]
                          [inl (1 # 2); inr (3 # 2)] 7 _))))).
  unfold LUT_SIZE. lia.
Defined.

Lemma handlePointerMove_anchored_inv (h : option nat) (fx fy : Q) (a : AnchoredCurve) :
  anchoredInv a -> anchoredInv (handlePointerMove_anchored h fx fy a).
Proof.
  intros (I & S & E). unfold handlePointerMove_anchored.
  destruct h as [h|]; [|now split]. cbv zeta.
  pose proof (clamp01_range fy) as Ry.
  pose proof (handlePointerMove_inv (Some h) fx fy (controlPoints a) I) as M.
  unfold handlePointerMove in M. cbv zeta in M.
  destruct (h =? 1)%nat; [|destruct (h =? 2)%nat;
    [|destruct (h =? 0)%nat; [|destruct (h =? 3)%nat]]];
    unfold anchoredInv; cbn [controlPoints anchorStartY anchorEndY];
    repeat split; try apply M; try apply I; lra.
Qed.

(** X22.  The editor with draggable anchors keeps the whole curve valid:
    from its defaults, after any sequence of pointer moves on any of its
    four handles, the control points satisfy the gap and edge limits and
    both anchors are in [0,1]; so, for ordered scale bounds, the number
    computed for every slot of the table lies within the bounds, and the
    entry, that number as stored, lies between the stored bounds. *)
Theorem anchored_editor_keeps_curve_valid (ds : list Drag)
  (minScale maxScale : Q) (i : nat) :
  minScale <= maxScale -> (i < LUT_SIZE)%nat ->
  let a := drags_anchored ds defaultAnchoredCurve in
  let c := controlPoints a in
  let table := generateScaleLUT_anchors (cp1x c) (cp1y c) (cp2x c) (cp2y c)
                 (anchorStartY a) (anchorEndY a) minScale maxScale in
  let y := slotValue (cp1x c) (cp1y c) (cp2x c) (cp2y c)
                     (anchorStartY a) (anchorEndY a) minScale maxScale i in
  anchoredInv a /\
  minScale <= y <= maxScale /\
  nth i table (F32 0) = fround y /\
  f32_le (fround minScale) (nth i table (F32 0)) /\
  f32_le (nth i table (F32 0)) (fround maxScale).
Proof.
  intros Hm Hi. cbv zeta.
  assert (I : anchoredInv (drags_anchored ds defaultAnchoredCurve)).
  { unfold drags_anchored.
    assert (H : anchoredInv defaultAnchoredCurve).
    { split; [exact defaultControlPoints_inv|]. cbn. lra. }
    revert H. generalize defaultAnchoredCurve.
    induction ds as [|d ds IH]; intros a H; cbn [fold_left]; [exact H|].
    apply IH. now apply handlePointerMove_anchored_inv. }
  split; [exact I|]. destruct I as ((_ & _ & _ & Y1 & Y2) & S & E).
  assert (W : minScale
              <= slotValue
                   (cp1x (controlPoints (drags_anchored ds defaultAnchoredCurve)))
                   (cp1y (controlPoints (drags_anchored ds defaultAnchoredCurve)))
                   (cp2x (controlPoints (drags_anchored ds defaultAnchoredCurve)))
                   (cp2y (controlPoints (drags_anchored ds defaultAnchoredCurve)))
                   (anchorStartY (drags_anchored ds defaultAnchoredCurve))
                   (anchorEndY (drags_anchored ds defaultAnchoredCurve))
                   minScale maxScale i
              <= maxScale).
  { apply slotValue_within; auto. }
  split; [exact W|].
  rewrite LUT_entry by exact Hi. split; [reflexivity|].
  destruct (stored_within _ _ _ W) as (A & C & _). split; assumption.
Qed.

Lemma anchored_editor_keeps_curve_valid_witness :
  anchoredInv (drags_anchored [(Some 0%nat, 1 # 2, 3 # 4); (Some 3%nat, 0, - 2)]
                              defaultAnchoredCurve) /\
  f32_le
    (fround (3 # 100))
    (nth 0 (generateScaleLUT_anchors
              (cp1x (controlPoints (drags_anchored
                 [(Some 0%nat, 1 # 2, 3 # 4); (Some 3%nat, 0, - 2)] defaultAnchoredCurve)))
              (cp1y (controlPoints (drags_anchored
                 [(Some 0%nat, 1 # 2, 3 # 4); (Some 3%nat, 0, - 2)] defaultAnchoredCurve)))
              (cp2x (controlPoints (drags_anchored
                 [(Some 0%nat, 1 # 2, 3 # 4); (Some 3%nat, 0, - 2)] defaultAnchoredCurve)))
              (cp2y (controlPoints (drags_anchored
                 [(Some 0%nat, 1 # 2, 3 # 4); (Some 3%nat, 0, - 2)] defaultAnchoredCurve)))
              (anchorStartY (drags_anchored
                 [(Some 0%nat, 1 # 2, 3 # 4); (Some 3%nat, 0, - 2)] defaultAnchoredCurve))
              (anchorEndY (drags_anchored
                 [(Some 0%nat, 1 # 2, 3 # 4); (Some 3%nat, 0, - 2)] defaultAnchoredCurve))
              (3 # 100) 2) (F32 0)).
Proof.
  destruct (anchored_editor_keeps_curve_valid
              [(Some 0%nat, 1 # 2, 3 # 4); (Some 3%nat, 0, - 2)]
              (3 # 100) 2 0) as (I & _ & _ & L & _).
  - lra.
  - unfold LUT_SIZE. lia.
  - split; [exact I | exact L].
Defined.

End Configurations.
